(** * comics-zipper: the classifier, the archiver and the worker pool

    A shallow embedding of [src/filesystem.py] (classes [FileSystemScanner]
    and [FileSystemWatcher]), [src/compression.py] (classes
    [CompressionTask] and [CompressionManager]), [add_task_result] of
    [src/report.py] and two helpers of [src/utils.py], with the properties
    of the specification that concern them and further properties of the
    code.

    Conventions of the embedding.
    - A Python [str] is a [string] of bytes (its UTF-8 encoding).
      [str.lower] is modelled on the ASCII letters; no other character
      lower-cases to a letter that occurs in an image extension.
    - Paths follow [posixpath]: the separator is [/].
    - A Python float that is the quotient of two integers is the exact
      rational ([Q]).
    - The file system is a static snapshot: what the code reads from it is
      given by functions (for [os.scandir], [os.path.getsize], ...) and by a
      directory tree (for [os.walk]).
    - A Python exception is a value of [Exc]; a call that may raise returns
      an [outcome]. Every exception considered is an instance of
      [Exception] (file system, zipfile and hashing errors are). *)

From Stdlib Require Import QArith Ascii String.
From stdpp Require Import gmap strings list sorting.

#[local] Set Warnings "-register-all".

(** ** Python values shared by both files *)

Inductive ExcClass :=
  | PermissionError
  | FileNotFoundError
  | NotADirectoryError
  | OSError
  | BadZipFile
  | CancelledError
  | ZeroDivisionError.

#[global] Instance ExcClass_eq_dec : EqDecision ExcClass.
Proof. solve_decision. Defined.

Record Exc := MkExc { exc_class : ExcClass; exc_msg : string }.

#[global] Instance Exc_eq_dec : EqDecision Exc.
Proof. solve_decision. Defined.

Inductive outcome (A : Type) :=
  | Returns (a : A)
  | Raises (e : Exc).
Arguments Returns {A} a.
Arguments Raises {A} e.

(** ** Strings and paths ([str.lower], [os.path]) *)

Definition lower_ascii (c : ascii) : ascii :=
  let n := nat_of_ascii c in
  if (65 <=? n)%nat && (n <=? 90)%nat then ascii_of_nat (n + 32) else c.

Fixpoint lower (s : string) : string :=
  match s with
  | EmptyString => EmptyString
  | String c s' => String (lower_ascii c) (lower s')
  end.

(** [s.rfind(c)]: the index of the last occurrence of [c], or [-1]. *)
Fixpoint rfind_from (c : ascii) (s : string) (i : Z) (found : Z) : Z :=
  match s with
  | EmptyString => found
  | String d s' => rfind_from c s' (i + 1) (if Ascii.eqb c d then i else found)
  end.

Definition rfind (c : ascii) (s : string) : Z := rfind_from c s 0 (-1).

Fixpoint take_str (n : nat) (s : string) : string :=
  match n, s with
  | S n', String c s' => String c (take_str n' s')
  | _, _ => EmptyString
  end.

Fixpoint drop_str (n : nat) (s : string) : string :=
  match n, s with
  | S n', String _ s' => drop_str n' s'
  | _, _ => s
  end.

Definition sep : ascii := "/"%char.
Definition extsep : ascii := "."%char.

Fixpoint all_extsep (s : string) : bool :=
  match s with
  | EmptyString => true
  | String c s' => Ascii.eqb c extsep && all_extsep s'
  end.

(** [genericpath._splitext]: the extension starts at the last dot of the last
    component, unless only dots come before it in that component. *)
Definition splitext (p : string) : string * string :=
  let sepIndex := rfind sep p in
  let dotIndex := rfind extsep p in
  if (sepIndex <? dotIndex)%Z then
    let filenameIndex := Z.to_nat (sepIndex + 1) in
    let leading := take_str (Z.to_nat dotIndex - filenameIndex) (drop_str filenameIndex p) in
    if all_extsep leading then (p, EmptyString)
    else (take_str (Z.to_nat dotIndex) p, drop_str (Z.to_nat dotIndex) p)
  else (p, EmptyString).

Definition ends_with_sep (s : string) : bool :=
  (rfind sep s =? Z.of_nat (String.length s) - 1)%Z && negb (String.eqb s "").

Definition starts_with_sep (s : string) : bool :=
  match s with
  | String c _ => Ascii.eqb c sep
  | EmptyString => false
  end.

(** [posixpath.join(a, b)]. *)
Definition path_join (a b : string) : string :=
  if starts_with_sep b then b
  else if String.eqb a "" || ends_with_sep a then String.append a b
  else String.append a (String.append "/" b).

(** [posixpath.basename(p)]: what follows the last separator. *)
Definition basename (p : string) : string :=
  drop_str (Z.to_nat (rfind sep p + 1)) p.

Fixpoint all_sep (s : string) : bool :=
  match s with
  | EmptyString => true
  | String c s' => Ascii.eqb c sep && all_sep s'
  end.

Fixpoint rstrip_sep_rev (r : list ascii) : list ascii :=
  match r with
  | c :: r' => if Ascii.eqb c sep then rstrip_sep_rev r' else r
  | [] => []
  end.

Definition rstrip_sep (s : string) : string :=
  string_of_list_ascii (rev (rstrip_sep_rev (rev (list_ascii_of_string s)))).

(** [posixpath.dirname(p)]. *)
Definition dirname (p : string) : string :=
  let head := take_str (Z.to_nat (rfind sep p + 1)) p in
  if negb (String.eqb head "") && negb (all_sep head) then rstrip_sep head else head.

(** [s.count(os.sep)]. *)
Fixpoint count_sep (s : string) : nat :=
  match s with
  | EmptyString => 0
  | String c s' => (if Ascii.eqb c sep then 1 else 0) + count_sep s'
  end.

(** ** [os.walk] over a directory tree

    A directory has a name, the names of its entries that are not
    directories, and its sub-directories. [os.walk(top)] is top-down: it
    yields [(root, dirs, files)] for [top], lets the consumer edit [dirs] in
    place, and then walks the sub-directories that are still listed. The
    edit is the parameter [edit root dirs]; the edits of the source only
    remove names, so a sub-directory is walked iff its name is still
    listed. The name of the tree's root is not read: the walk starts at the
    path it is given. *)

Inductive FsTree :=
  | FsDir (dir_name : string) (files : list string) (subdirs : list FsTree).

Definition tree_name (t : FsTree) : string :=
  match t with FsDir n _ _ => n end.

Definition walk_item : Type := string * list string * list string.

Section os_walk.
Variable edit : string -> list string -> list string.

Fixpoint os_walk (top : string) (t : FsTree) : list walk_item :=
  match t with
  | FsDir _ fs ds =>
      let dirs := map tree_name ds in
      let kept := edit top dirs in
      (top, dirs, fs) ::
      (fix descend (l : list FsTree) : list walk_item :=
         match l with
         | [] => []
         | sub :: l' =>
             if bool_decide (tree_name sub ∈ kept)
             then os_walk (path_join top (tree_name sub)) sub ++ descend l'
             else descend l'
         end) ds
  end.
End os_walk.

(** The walk of a consumer that leaves [dirs] as it is. *)
Definition os_walk_all : string -> FsTree -> list walk_item :=
  os_walk (fun _ dirs => dirs).

(** ** [filesystem.py]: class [FileSystemScanner] *)

(** [self.image_extensions] (the same set in [CompressionManager]). *)
Definition image_extensions : list string :=
  [".jpg"; ".jpeg"; ".png"; ".gif"; ".bmp"; ".webp";
   ".tiff"; ".tif"; ".ico"; ".jfif"; ".heic"].

(** [self.excluded_dirs]. *)
Definition excluded_dirs : list string :=
  [".git"; "__pycache__"; ".svn"; "node_modules"; ".vscode"].

(** [is_image_file] (both classes define it with the same body). *)
Definition is_image_file (file_path : string) : bool :=
  bool_decide ((splitext (lower file_path)).2 ∈ image_extensions).

(** An [os.DirEntry]: [entry_is_file] and [entry_is_dir] are what
    [item.is_file()] and [item.is_dir()] answer (both are false for a broken
    link or a device). *)
Record DirEntry := MkEntry {
  entry_name : string;
  entry_is_file : bool;
  entry_is_dir : bool
}.

(** The scanner object: [self.max_depth] and [self.chapter_cache]. *)
Record Scanner := MkScanner {
  max_depth : Z;
  chapter_cache : gmap string bool
}.

Definition with_cache (self : Scanner) (c : gmap string bool) : Scanner :=
  {| max_depth := max_depth self; chapter_cache := c |}.

(** The [for item in os.scandir(dir_path)] loop of [is_chapter_directory],
    with its [break]; it returns [(has_images, has_subdirs)]. *)
Fixpoint scan_items (items : list DirEntry) (has_images has_subdirs : bool) : bool * bool :=
  match items with
  | [] => (has_images, has_subdirs)
  | item :: rest =>
      if entry_is_file item && is_image_file (entry_name item) then
        scan_items rest true has_subdirs
      else if entry_is_dir item && negb (bool_decide (entry_name item ∈ excluded_dirs)) then
        if has_images then (has_images, true)
        else scan_items rest has_images true
      else scan_items rest has_images has_subdirs
  end.

(** What follows the loop: [result = has_images and not has_subdirs], then
    [if has_images and has_subdirs: result = True]. *)
Definition chapter_result (flags : bool * bool) : bool :=
  let '(has_images, has_subdirs) := flags in
  let result := has_images && negb has_subdirs in
  if has_images && has_subdirs then true else result.

(** [except (PermissionError, FileNotFoundError)]. *)
Definition scandir_error_caught (e : Exc) : bool :=
  bool_decide (exc_class e = PermissionError) || bool_decide (exc_class e = FileNotFoundError).

(** [is_chapter_directory(dir_path)]: the value returned (or the exception
    that escapes) and the scanner with its cache updated. *)
Definition is_chapter_directory
    (scandir : string -> outcome (list DirEntry))
    (self : Scanner) (dir_path : string) : outcome bool * Scanner :=
  match chapter_cache self !! dir_path with
  | Some cached => (Returns cached, self)
  | None =>
      match scandir dir_path with
      | Returns items =>
          let result := chapter_result (scan_items items false false) in
          (Returns result, with_cache self (<[dir_path := result]> (chapter_cache self)))
      | Raises e =>
          if scandir_error_caught e
          then (Returns false, with_cache self (<[dir_path := false]> (chapter_cache self)))
          else (Raises e, self)
      end
  end.

(** [root.count(os.sep) - root_path.count(os.sep) >= self.max_depth]. *)
Definition depth_reached (self : Scanner) (root_path root : string) : bool :=
  (max_depth self <=? Z.of_nat (count_sep root) - Z.of_nat (count_sep root_path))%Z.

(** The in-place edits of [dirs] in both loops of
    [scan_for_comic_directories]:
    [dirs[:] = [d for d in dirs if d not in self.excluded_dirs]], then
    [dirs[:] = []] at the depth limit. *)
Definition scan_edit (self : Scanner) (root_path root : string) (dirs : list string) : list string :=
  let dirs := filter (λ d, d ∉ excluded_dirs) dirs in
  if depth_reached self root_path root then [] else dirs.

(** First loop: [total_dirs += len(dirs)], before the edits. *)
Definition count_total_dirs (walk : list walk_item) : nat :=
  foldl (λ total_dirs '(_, dirs, _), total_dirs + length dirs) 0 walk.

(** The bytes of the status prefix of [f"...: {dir_path}"] (two CJK
    characters, a colon and a space). *)
Definition scan_label : string :=
  string_of_list_ascii (map ascii_of_nat [230; 137; 171; 230; 143; 143; 58; 32]).

(** True division of a count by a positive count. *)
Definition py_div (a b : nat) : Q := Z.of_nat a # Pos.of_nat b.

(** The state of the second loop. [progress_log] records the calls of
    [progress_callback], oldest first. *)
Record ScanState := MkScanState {
  scan_self : Scanner;
  processed_dirs : nat;
  comic_chapters : list (string * string * string);
  progress_log : list (Q * string)
}.

(** The body of [for dir_name in dirs]; [Some e] when [is_chapter_directory]
    let [e] escape. *)
Definition scan_dir
    (scandir : string -> outcome (list DirEntry)) (progress_callback : bool)
    (total_dirs : nat) (root dir_name : string) (st : ScanState) : ScanState * option Exc :=
  let dir_path := path_join root dir_name in
  let processed := processed_dirs st + 1 in
  let log :=
    if progress_callback && bool_decide (0 < total_dirs)
    then progress_log st ++ [(py_div processed total_dirs, String.append scan_label dir_path)]
    else progress_log st in
  match is_chapter_directory scandir (scan_self st) dir_path with
  | (Returns is_chapter, self') =>
      let chapters :=
        if is_chapter
        then comic_chapters st ++ [(dirname dir_path, dir_path, dir_name)]
        else comic_chapters st in
      (MkScanState self' processed chapters log, None)
  | (Raises e, self') =>
      (MkScanState self' processed (comic_chapters st) log, Some e)
  end.

Fixpoint scan_dirs
    (scandir : string -> outcome (list DirEntry)) (progress_callback : bool)
    (total_dirs : nat) (root : string) (dirs : list string) (st : ScanState)
    : ScanState * option Exc :=
  match dirs with
  | [] => (st, None)
  | dir_name :: rest =>
      match scan_dir scandir progress_callback total_dirs root dir_name st with
      | (st', None) => scan_dirs scandir progress_callback total_dirs root rest st'
      | stopped => stopped
      end
  end.

(** Second loop, over what [os.walk] yields: the edits, [continue] at the
    depth limit, then the directories that are left. *)
Fixpoint scan_walk
    (scandir : string -> outcome (list DirEntry)) (progress_callback : bool)
    (total_dirs : nat) (root_path : string) (walk : list walk_item) (st : ScanState)
    : ScanState * option Exc :=
  match walk with
  | [] => (st, None)
  | (root, dirs, _) :: rest =>
      let dirs := filter (λ d, d ∉ excluded_dirs) dirs in
      if depth_reached (scan_self st) root_path root then
        scan_walk scandir progress_callback total_dirs root_path rest st
      else
        match scan_dirs scandir progress_callback total_dirs root dirs st with
        | (st', None) => scan_walk scandir progress_callback total_dirs root_path rest st'
        | stopped => stopped
        end
  end.

(** [scan_for_comic_directories(root_path, progress_callback)] on the tree
    [fs] found at [root_path]: the final state (its [comic_chapters] is the
    value returned) and the exception that escaped, if one did. *)
Definition scan_for_comic_directories
    (fs : FsTree) (scandir : string -> outcome (list DirEntry))
    (self : Scanner) (root_path : string) (progress_callback : bool)
    : ScanState * option Exc :=
  let walk := os_walk (scan_edit self root_path) root_path fs in
  let total_dirs := count_total_dirs walk in
  scan_walk scandir progress_callback total_dirs root_path walk
    (MkScanState self 0 [] []).

(** The directories the second loop reaches, in order: those on which
    [is_chapter_directory] is called when nothing raises. *)
Definition visited_dirs (self : Scanner) (root_path : string) (walk : list walk_item) : list string :=
  flat_map (λ '(root, dirs, _),
      if depth_reached self root_path root then []
      else map (path_join root) (filter (λ d, d ∉ excluded_dirs) dirs)) walk.

(** [prepare_compression_tasks(chapters, rename_pattern)]. *)
Definition prepare_compression_tasks
    (chapters : list (string * string * string)) (rename_pattern : bool)
    : list (string * string) :=
  map (λ '(comic_title_dir, chapter_dir, chapter_name),
         (chapter_dir, path_join comic_title_dir (String.append chapter_name ".zip")))
      chapters.

(** ** A state and exception monad for the effectful methods

    A computation runs on a state [S] and either returns a value or raises;
    the state reached is kept in both cases, as the side effects of Python
    code are when an exception unwinds. *)

Definition M (S A : Type) : Type := S -> outcome A * S.

Definition ret {S A} (a : A) : M S A := λ s, (Returns a, s).

Definition bind {S A B} (m : M S A) (k : A -> M S B) : M S B :=
  λ s, match m s with
       | (Returns a, s') => k a s'
       | (Raises e, s') => (Raises e, s')
       end.

Definition raise {S A} (e : Exc) : M S A := λ s, (Raises e, s).

Definition get {S} : M S S := λ s, (Returns s, s).

Definition modify {S} (f : S -> S) : M S unit := λ s, (Returns tt, f s).

(** A call whose result the environment decides. *)
Definition call {S A} (r : outcome A) : M S A := λ s, (r, s).

(** A call that returns nothing and raises when the environment says so. *)
Definition attempt {S} (failure : option Exc) : M S unit :=
  match failure with
  | Some e => raise e
  | None => ret tt
  end.

(** [try: body / except Exception as e: handler(e)]. *)
Definition try_except {S A} (body : M S A) (handler : Exc -> M S A) : M S A :=
  λ s, match body s with
       | (Returns a, s') => (Returns a, s')
       | (Raises e, s') => handler e s'
       end.

(** [with ... : body]: [exit] runs when the body returns and when it raises;
    an exception of [exit] replaces the body's. *)
Definition with_exit {S A} (body : M S A) (exit : M S unit) : M S A :=
  λ s, match body s with
       | (Returns a, s') =>
           match exit s' with
           | (Returns _, s'') => (Returns a, s'')
           | (Raises e, s'') => (Raises e, s'')
           end
       | (Raises e, s') =>
           match exit s' with
           | (Returns _, s'') => (Raises e, s'')
           | (Raises e', s'') => (Raises e', s'')
           end
       end.

#[global] Instance M_ret {S} : MRet (M S) := λ A, ret.
#[global] Instance M_bind {S} : MBind (M S) := λ A B k m, bind m k.

(** [for x in xs: body(x)]. *)
Fixpoint for_each {S A} (xs : list A) (body : A -> M S unit) : M S unit :=
  match xs with
  | [] => ret tt
  | x :: rest => body x;; for_each rest body
  end.

(** ** [compression.py]: class [CompressionTask] *)

Inductive Status := Pending | Running | Completed | Failed | Cancelled.

#[global] Instance Status_eq_dec : EqDecision Status.
Proof. solve_decision. Defined.

Record CompressionTask := MkTask {
  source_path : string;
  target_path : string;
  preserve_timestamp : bool;
  compression_level : Z;
  rename_pattern : bool;
  status : Status;
  error : option Exc;
  start_time : option Q;
  end_time : option Q;
  image_count : nat;
  original_size : nat;
  compressed_size : nat;
  md5 : option string
}.

(** [CompressionTask.__init__]. *)
Definition new_task (source target : string) (preserve : bool) (level : Z) (rename : bool)
    : CompressionTask :=
  {| source_path := source; target_path := target; preserve_timestamp := preserve;
     compression_level := level; rename_pattern := rename;
     status := Pending; error := None; start_time := None; end_time := None;
     image_count := 0; original_size := 0; compressed_size := 0; md5 := None |}.

Definition set_status (s : Status) (t : CompressionTask) : CompressionTask :=
  {| source_path := source_path t; target_path := target_path t;
     preserve_timestamp := preserve_timestamp t;
     compression_level := compression_level t; rename_pattern := rename_pattern t;
     status := s; error := error t; start_time := start_time t; end_time := end_time t;
     image_count := image_count t; original_size := original_size t;
     compressed_size := compressed_size t; md5 := md5 t |}.

Definition set_error (e : Exc) (t : CompressionTask) : CompressionTask :=
  {| source_path := source_path t; target_path := target_path t;
     preserve_timestamp := preserve_timestamp t;
     compression_level := compression_level t; rename_pattern := rename_pattern t;
     status := status t; error := Some e; start_time := start_time t; end_time := end_time t;
     image_count := image_count t; original_size := original_size t;
     compressed_size := compressed_size t; md5 := md5 t |}.

Definition set_start_time (now : Q) (t : CompressionTask) : CompressionTask :=
  {| source_path := source_path t; target_path := target_path t;
     preserve_timestamp := preserve_timestamp t;
     compression_level := compression_level t; rename_pattern := rename_pattern t;
     status := status t; error := error t; start_time := Some now; end_time := end_time t;
     image_count := image_count t; original_size := original_size t;
     compressed_size := compressed_size t; md5 := md5 t |}.

Definition set_end_time (now : Q) (t : CompressionTask) : CompressionTask :=
  {| source_path := source_path t; target_path := target_path t;
     preserve_timestamp := preserve_timestamp t;
     compression_level := compression_level t; rename_pattern := rename_pattern t;
     status := status t; error := error t; start_time := start_time t; end_time := Some now;
     image_count := image_count t; original_size := original_size t;
     compressed_size := compressed_size t; md5 := md5 t |}.

Definition set_counts (n size : nat) (t : CompressionTask) : CompressionTask :=
  {| source_path := source_path t; target_path := target_path t;
     preserve_timestamp := preserve_timestamp t;
     compression_level := compression_level t; rename_pattern := rename_pattern t;
     status := status t; error := error t; start_time := start_time t; end_time := end_time t;
     image_count := n; original_size := size;
     compressed_size := compressed_size t; md5 := md5 t |}.

Definition set_target_path (p : string) (t : CompressionTask) : CompressionTask :=
  {| source_path := source_path t; target_path := p;
     preserve_timestamp := preserve_timestamp t;
     compression_level := compression_level t; rename_pattern := rename_pattern t;
     status := status t; error := error t; start_time := start_time t; end_time := end_time t;
     image_count := image_count t; original_size := original_size t;
     compressed_size := compressed_size t; md5 := md5 t |}.

Definition set_md5 (h : string) (t : CompressionTask) : CompressionTask :=
  {| source_path := source_path t; target_path := target_path t;
     preserve_timestamp := preserve_timestamp t;
     compression_level := compression_level t; rename_pattern := rename_pattern t;
     status := status t; error := error t; start_time := start_time t; end_time := end_time t;
     image_count := image_count t; original_size := original_size t;
     compressed_size := compressed_size t; md5 := Some h |}.

Definition set_compressed_size (n : nat) (t : CompressionTask) : CompressionTask :=
  {| source_path := source_path t; target_path := target_path t;
     preserve_timestamp := preserve_timestamp t;
     compression_level := compression_level t; rename_pattern := rename_pattern t;
     status := status t; error := error t; start_time := start_time t; end_time := end_time t;
     image_count := image_count t; original_size := original_size t;
     compressed_size := n; md5 := md5 t |}.

(** Truth value of a float. *)
Definition truthy (x : option Q) : bool :=
  match x with
  | Some q => negb (Qeq_bool q 0)
  | None => false
  end.

(** True division of two sizes (the divisor is not zero where it is used). *)
Definition size_ratio (a b : nat) : Q := Z.of_nat a # Pos.of_nat b.

(** The dictionary [to_dict] returns, one field per key. *)
Record TaskDict := MkTaskDict {
  d_source_path : string;
  d_target_path : string;
  d_status : Status;
  d_error : option string;
  d_start_time : option Q;
  d_end_time : option Q;
  d_duration : option Q;
  d_image_count : nat;
  d_original_size : nat;
  d_compressed_size : nat;
  d_compression_ratio : Q;
  d_md5 : option string
}.

Definition to_dict (self : CompressionTask) : TaskDict :=
  {| d_source_path := source_path self;
     d_target_path := target_path self;
     d_status := status self;
     d_error := exc_msg <$> error self;
     d_start_time := start_time self;
     d_end_time := end_time self;
     d_duration :=
       if truthy (end_time self) && truthy (start_time self)
       then match end_time self, start_time self with
            | Some e, Some s => Some (e - s)%Q
            | _, _ => None
            end
       else None;
     d_image_count := image_count self;
     d_original_size := original_size self;
     d_compressed_size := compressed_size self;
     d_compression_ratio :=
       if bool_decide (compressed_size self ≠ 0)
       then size_ratio (original_size self) (compressed_size self)
       else 0%Q;
     d_md5 := md5 self |}.

(** ** [compression.py]: the archiving methods of [CompressionManager]

    What the calls into [os], [shutil], [zipfile] and [hashlib] answer is
    fixed by a [World]; an [option Exc] is the exception a call raises, if
    it does. [os.walk] raises nothing (it skips what it cannot list) and
    yields nothing for a path that is not a directory. The world also
    fixes which code points the Unicode database of the interpreter
    classes as decimal digits ([w_decimal]): [re] asks it for [\d]; a
    path is the UTF-8 encoding of the [str] the program holds. *)

Record World := MkWorld {
  w_tree : string -> option FsTree;
  w_getsize : string -> outcome nat;
  w_getmtime : string -> outcome Q;
  w_zip_create : string -> option Exc;
  w_zip_write : string -> option Exc;
  w_zip_close : string -> option Exc;
  w_exists : string -> bool;
  w_remove : string -> option Exc;
  w_rename : string -> string -> option Exc;
  w_utime : string -> Q -> option Exc;
  w_md5 : string -> outcome string;
  w_rmtree : string -> option Exc;
  w_decimal : N -> bool
}.

Definition walk_of (w : World) (directory : string) : list walk_item :=
  match w_tree w directory with
  | Some t => os_walk_all directory t
  | None => []
  end.

(** [count_images_in_directory(directory)]: the loops run on the pair
    [(count, total_size)]; the [except Exception] clause logs and falls
    through to [return count, total_size]. *)
Definition count_images_loop (w : World) (directory : string) : M (nat * nat) unit :=
  for_each (walk_of w directory) (λ '(root, _, files),
    for_each files (λ file,
      if is_image_file file then
        modify (λ '(count, total_size), (count + 1, total_size));;
        let file_path := path_join root file in
        size ← call (w_getsize w file_path);
        modify (λ '(count, total_size), (count, total_size + size))
      else mret tt)).

Definition count_images_in_directory (w : World) (directory : string) : nat * nat :=
  (try_except (count_images_loop w directory) (λ _, mret tt) (0, 0)).2.

(** An entry of a ZIP archive: its name and the size of the file stored. *)
Record ZipEntry := MkZipEntry {
  arcname : string;
  file_size : nat
}.

(** What [compress_directory] works on: the task object, the entries
    written to the open [ZipFile], the archives this call left on disk (by
    path) and the directories it removed. *)
Record CdState := MkCd {
  cd_task : CompressionTask;
  cd_zipf : list ZipEntry;
  cd_archives : gmap string (list ZipEntry);
  cd_removed : list string
}.

Definition on_task (f : CompressionTask -> CompressionTask) (s : CdState) : CdState :=
  MkCd (f (cd_task s)) (cd_zipf s) (cd_archives s) (cd_removed s).

Definition the_task : M CdState CompressionTask :=
  s ← get; mret (cd_task s).

(** [zipf.write(file_path, arcname=file)]: the file is stat'ed, read and
    appended as one more entry, whether or not the name is already there
    ([zipfile] warns of a duplicate name and writes the entry). *)
Definition zipf_write (w : World) (file_path file : string) : M CdState unit :=
  size ← call (w_getsize w file_path);
  attempt (w_zip_write w file_path);;
  modify (λ s, MkCd (cd_task s) (cd_zipf s ++ [MkZipEntry file size])
                    (cd_archives s) (cd_removed s)).

(** [zipfile.ZipFile(path, 'w', level)]. *)
Definition zipf_open (w : World) (path : string) : M CdState unit :=
  attempt (w_zip_create w path);;
  modify (λ s, MkCd (cd_task s) [] (cd_archives s) (cd_removed s)).

(** [ZipFile.__exit__]: the archive is closed with the entries written. *)
Definition zipf_close (w : World) (path : string) : M CdState unit :=
  attempt (w_zip_close w path);;
  modify (λ s, MkCd (cd_task s) [] (<[path := cd_zipf s]> (cd_archives s)) (cd_removed s)).

Definition os_remove (w : World) (path : string) : M CdState unit :=
  attempt (w_remove w path);;
  modify (λ s, MkCd (cd_task s) (cd_zipf s) (delete path (cd_archives s)) (cd_removed s)).

Definition os_rename (w : World) (src dst : string) : M CdState unit :=
  attempt (w_rename w src dst);;
  modify (λ s, MkCd (cd_task s) (cd_zipf s)
                    (match cd_archives s !! src with
                     | Some entries => <[dst := entries]> (delete src (cd_archives s))
                     | None => delete dst (cd_archives s)
                     end)
                    (cd_removed s)).

Definition shutil_rmtree (w : World) (path : string) : M CdState unit :=
  attempt (w_rmtree w path);;
  modify (λ s, MkCd (cd_task s) (cd_zipf s) (cd_archives s) (cd_removed s ++ [path])).

Definition is_digit (c : ascii) : bool :=
  let n := nat_of_ascii c in (48 <=? n)%nat && (n <=? 57)%nat.

Fixpoint all_digits (s : string) : bool :=
  match s with
  | EmptyString => true
  | String c s' => is_digit c && all_digits s'
  end.

Definition newline : string := String (ascii_of_nat 10) EmptyString.

(** A continuation byte of UTF-8. *)
Definition is_utf8_tail (c : ascii) : bool :=
  let n := nat_of_ascii c in (128 <=? n)%nat && (n <? 192)%nat.

(** The bits a byte adds to a code point: its value above [base]. *)
Definition utf8_bits (c : ascii) (base : nat) : N := N.of_nat (nat_of_ascii c - base).

(** A code point that UTF-8 encodes in the length whose least code point
    is [least]: not a shorter one written long, not a surrogate and not
    above U+10FFFF. *)
Definition is_scalar (least code_point : N) : bool :=
  (least <=? code_point)%N && (code_point <? 1114112)%N
  && negb ((55296 <=? code_point)%N && (code_point <? 57344)%N).

(** [\d] of a [str] pattern compiled without [re.ASCII], on a character
    of more than one byte: a decimal digit of the Unicode database. *)
Definition is_decimal (w : World) (least code_point : N) : bool :=
  is_scalar least code_point && w_decimal w code_point.

(** The longest run of decimal digits at the start of a string, and what
    follows it. The characters are decoded from UTF-8, one to four bytes
    each; of the characters of one byte the digits are [0] to [9]; bytes
    that do not form a character end the run. *)
Fixpoint span_decimal (w : World) (s : string) : string * string :=
  match s with
  | EmptyString => (EmptyString, EmptyString)
  | String b1 r1 =>
      let n1 := nat_of_ascii b1 in
      if (n1 <? 128)%nat then
        if is_digit b1
        then let '(number, rest) := span_decimal w r1 in (String b1 number, rest)
        else (EmptyString, s)
      else
        match r1 with
        | EmptyString => (EmptyString, s)
        | String b2 r2 =>
            if (192 <=? n1)%nat && (n1 <? 224)%nat then
              if is_utf8_tail b2
                 && is_decimal w 128 (utf8_bits b1 192 * 64 + utf8_bits b2 128)
              then let '(number, rest) := span_decimal w r2 in
                   (String b1 (String b2 number), rest)
              else (EmptyString, s)
            else
              match r2 with
              | EmptyString => (EmptyString, s)
              | String b3 r3 =>
                  if (224 <=? n1)%nat && (n1 <? 240)%nat then
                    if is_utf8_tail b2 && is_utf8_tail b3
                       && is_decimal w 2048 (utf8_bits b1 224 * 4096 + utf8_bits b2 128 * 64
                                             + utf8_bits b3 128)
                    then let '(number, rest) := span_decimal w r3 in
                         (String b1 (String b2 (String b3 number)), rest)
                    else (EmptyString, s)
                  else
                    match r3 with
                    | EmptyString => (EmptyString, s)
                    | String b4 r4 =>
                        if (240 <=? n1)%nat && (n1 <? 248)%nat
                           && is_utf8_tail b2 && is_utf8_tail b3 && is_utf8_tail b4
                           && is_decimal w 65536 (utf8_bits b1 240 * 262144
                                                  + utf8_bits b2 128 * 4096
                                                  + utf8_bits b3 128 * 64 + utf8_bits b4 128)
                        then let '(number, rest) := span_decimal w r4 in
                             (String b1 (String b2 (String b3 (String b4 number))), rest)
                        else (EmptyString, s)
                    end
              end
        end
  end.

(** [self.number_only_pattern.match(base_name)] for the pattern
    [^(\d+)\.zip$]: the digits when it matches. [\d+] takes the longest
    run of digits (a shorter one is followed by a digit, not by the dot);
    [$] also matches before a final newline. *)
Definition number_only_match (w : World) (base_name : string) : option string :=
  let '(number, rest) := span_decimal w base_name in
  if negb (String.eqb number "")
     && (String.eqb rest ".zip" || String.eqb rest (String.append ".zip" newline))
  then Some number else None.

(** The bytes of [f"..{number}...zip"]: one CJK character on each side of
    the number. *)
Definition chapter_name (number : string) : string :=
  String.append (string_of_list_ascii (map ascii_of_nat [231; 172; 172]))
    (String.append number
       (String.append (string_of_list_ascii (map ascii_of_nat [231; 171; 160])) ".zip")).

(** Lines 129 to 137: the path the archive is moved to,
    [final_target_path]. *)
Definition final_target_path (w : World) (task : CompressionTask) : string :=
  if rename_pattern task then
    match number_only_match w (basename (target_path task)) with
    | Some number => path_join (dirname (target_path task)) (chapter_name number)
    | None => target_path task
    end
  else target_path task.

(** Lines 105 and 106: [task.start_time = time.time()], [task.status = "running"]. *)
Definition compress_begin (now : Q) (task : CompressionTask) : CompressionTask :=
  set_status Running (set_start_time now task).

(** The [try] block of [compress_directory]. *)
Definition compress_try (w : World) : M CdState unit :=
  task ← the_task;
  let '(n, size) := count_images_in_directory w (source_path task) in
  modify (on_task (set_counts n size));;
  src_mtime ← call (w_getmtime w (source_path task));
  let temp_target_path := String.append (target_path task) ".temp" in
  zipf_open w temp_target_path;;
  with_exit
    (for_each (walk_of w (source_path task)) (λ '(root, _, files),
       for_each files (λ file,
         if is_image_file file
         then zipf_write w (path_join root file) file
         else mret tt)))
    (zipf_close w temp_target_path);;
  let final_target_path := final_target_path w task in
  (if w_exists w final_target_path then os_remove w final_target_path else mret tt);;
  os_rename w temp_target_path final_target_path;;
  modify (on_task (set_target_path final_target_path));;
  (if preserve_timestamp task then attempt (w_utime w final_target_path src_mtime) else mret tt);;
  h ← call (w_md5 w final_target_path);
  modify (on_task (set_md5 h));;
  csize ← call (w_getsize w final_target_path);
  modify (on_task (set_compressed_size csize));;
  shutil_rmtree w (source_path task);;
  modify (on_task (set_status Completed)).

(** [except Exception as e]. *)
Definition compress_except (e : Exc) : M CdState unit :=
  modify (on_task (set_status Failed));;
  modify (on_task (set_error e)).

(** What runs after lines 105 and 106: the [try] statement, then
    [task.end_time = time.time()] and [return task]. *)
Definition compress_rest (w : World) (now : Q) : M CdState CompressionTask :=
  try_except (compress_try w) compress_except;;
  modify (on_task (set_end_time now));;
  the_task.

(** [compress_directory(task)], started at time [t0] and ended at [t1]. *)
Definition compress_directory (w : World) (t0 t1 : Q) (task : CompressionTask)
    : outcome CompressionTask * CdState :=
  (modify (on_task (compress_begin t0));; compress_rest w t1) (MkCd task [] ∅ []).

(** ** [compression.py]: the pool of [CompressionManager]

    The manager object and the objects it refers to. A [Future] of
    [concurrent.futures] is identified by its position in [pool_futures],
    a [ThreadPoolExecutor] by a number, a task object by its position in
    [tasks]. The work queue of an executor is made of its pending futures,
    oldest first.

    The library behaves as documented: [shutdown(wait=False,
    cancel_futures=True)] cancels the futures the executor has not started
    and lets the running ones finish; a callback added with
    [add_done_callback] is called when the future is cancelled or finishes
    running; an exception raised by a callback is logged and dropped.

    Each call of a method of the manager is one step, and so are the four
    phases of a worker on a work item: taking it from the queue
    ([work_queue.get()] in [_worker]); running lines 105 and 106 of
    [compress_directory]; the rest of [compress_directory]; and
    [set_result] with the callbacks. A call of the manager can come between
    any two of them: an item that a worker has taken is no longer in the
    queue, so that [shutdown] does not cancel it, while its task is still
    pending until line 106 has run.

    Two calls of the manager do not overlap. A step of a worker that falls
    within a call is placed before or after the call: the queue hands an
    item either to a worker or to [shutdown], the loops of [start()],
    [resume()] and [cancel()] read the status of each task once, and the
    test of line 248 and the assignment of line 249 are taken as one access
    to the status. *)

Inductive FutureState :=
  | FPending      (* in the work queue *)
  | FTaken        (* taken by a worker, line 106 has not run *)
  | FRunning      (* line 106 has run, [compress_directory] has not returned *)
  | FReturned     (* [compress_directory] has returned, [set_result] not called *)
  | FFinished     (* result set, callbacks called *)
  | FCancelled.   (* cancelled, callbacks called *)

#[global] Instance FutureState_eq_dec : EqDecision FutureState.
Proof. solve_decision. Defined.

Record Future := MkFuture {
  fut_task : nat;
  fut_executor : nat;
  fut_state : FutureState
}.

Definition set_fut_state (s : FutureState) (fu : Future) : Future :=
  MkFuture (fut_task fu) (fut_executor fu) s.

Record Manager := MkManager {
  max_workers : nat;
  update_callback : bool;
  tasks : list CompressionTask;
  completed_tasks : nat;
  total_tasks : nat;
  running : bool;
  paused : bool;
  executor : option nat;
  futures : list nat;
  (* the objects behind the attributes *)
  pool_futures : list Future;
  pool_executors : nat;
  (* the calls of [update_callback]: the progress and the task passed *)
  updates : list (Q * nat)
}.

(** [CompressionManager.__init__]. *)
Definition new_manager (workers : nat) (callback : bool) : Manager :=
  MkManager workers callback [] 0 0 false false None [] [] 0 [].

Definition with_tasks (ts : list CompressionTask) (m : Manager) : Manager :=
  MkManager (max_workers m) (update_callback m) ts (completed_tasks m) (total_tasks m)
    (running m) (paused m) (executor m) (futures m) (pool_futures m) (pool_executors m)
    (updates m).

Definition with_pool_futures (fs : list Future) (m : Manager) : Manager :=
  MkManager (max_workers m) (update_callback m) (tasks m) (completed_tasks m) (total_tasks m)
    (running m) (paused m) (executor m) (futures m) fs (pool_executors m) (updates m).

Definition with_completed (n : nat) (m : Manager) : Manager :=
  MkManager (max_workers m) (update_callback m) (tasks m) n (total_tasks m)
    (running m) (paused m) (executor m) (futures m) (pool_futures m) (pool_executors m)
    (updates m).

Definition with_updates (us : list (Q * nat)) (m : Manager) : Manager :=
  MkManager (max_workers m) (update_callback m) (tasks m) (completed_tasks m) (total_tasks m)
    (running m) (paused m) (executor m) (futures m) (pool_futures m) (pool_executors m) us.

Definition with_paused (b : bool) (m : Manager) : Manager :=
  MkManager (max_workers m) (update_callback m) (tasks m) (completed_tasks m) (total_tasks m)
    (running m) b (executor m) (futures m) (pool_futures m) (pool_executors m) (updates m).

Definition with_running (b : bool) (m : Manager) : Manager :=
  MkManager (max_workers m) (update_callback m) (tasks m) (completed_tasks m) (total_tasks m)
    b (paused m) (executor m) (futures m) (pool_futures m) (pool_executors m) (updates m).

Definition with_executor (e : option nat) (m : Manager) : Manager :=
  MkManager (max_workers m) (update_callback m) (tasks m) (completed_tasks m) (total_tasks m)
    (running m) (paused m) e (futures m) (pool_futures m) (pool_executors m) (updates m).

(** [add_task(...)]. *)
Definition add_task (source target : string) (preserve : bool) (level : Z) (rename : bool)
    (self : Manager) : Manager :=
  with_tasks (tasks self ++ [new_task source target preserve level rename]) self.

(** [_task_completed(future)]: the counter is incremented under the lock;
    [completed_tasks / total_tasks] raises when the total is zero, and
    [future.result()] raises for a cancelled future: both end the callback
    after the increment. *)
Definition task_completed (future : nat) (self : Manager) : Manager :=
  let self := with_completed (completed_tasks self + 1) self in
  if bool_decide (total_tasks self = 0) then self
  else
    let progress := py_div (completed_tasks self) (total_tasks self) in
    if update_callback self then
      match pool_futures self !! future with
      | Some fu =>
          if bool_decide (fut_state fu = FCancelled) then self
          else with_updates (updates self ++ [(progress, fut_task fu)]) self
      | None => self
      end
    else self.

(** [ThreadPoolExecutor(max_workers=self.max_workers)]. *)
Definition new_executor (self : Manager) : Manager :=
  MkManager (max_workers self) (update_callback self) (tasks self) (completed_tasks self)
    (total_tasks self) (running self) (paused self) (Some (pool_executors self))
    (futures self) (pool_futures self) (pool_executors self + 1) (updates self).

(** The body of the submission loop for the task at position [i]:
    [future = self.executor.submit(self.compress_directory, task)],
    [future.add_done_callback(self._task_completed)],
    [self.futures.append(future)]. *)
Definition submit (e : nat) (i : nat) (self : Manager) : Manager :=
  MkManager (max_workers self) (update_callback self) (tasks self) (completed_tasks self)
    (total_tasks self) (running self) (paused self) (executor self)
    (futures self ++ [length (pool_futures self)])
    (pool_futures self ++ [MkFuture i e FPending]) (pool_executors self) (updates self).

Definition is_pending (ts : list CompressionTask) (i : nat) : bool :=
  match ts !! i with
  | Some t => bool_decide (status t = Pending)
  | None => false
  end.

(** [self.futures = []], then
    [for task in self.tasks: if task.status == "pending": ...]. *)
Definition submit_pending (e : nat) (self : Manager) : Manager :=
  foldl (λ m i, if is_pending (tasks m) i then submit e i m else m)
    (MkManager (max_workers self) (update_callback self) (tasks self) (completed_tasks self)
       (total_tasks self) (running self) (paused self) (executor self) []
       (pool_futures self) (pool_executors self) (updates self))
    (seq 0 (length (tasks self))).

(** [start()]. *)
Definition start (self : Manager) : Manager :=
  if running self then self
  else
    let self :=
      MkManager (max_workers self) (update_callback self) (tasks self) 0 (length (tasks self))
        true false (executor self) (futures self) (pool_futures self) (pool_executors self)
        (updates self) in
    if bool_decide (total_tasks self = 0) then self
    else
      let e := pool_executors self in
      submit_pending e (new_executor self).

Definition is_queued (e : nat) (fs : list Future) (f : nat) : bool :=
  match fs !! f with
  | Some fu => bool_decide (fut_state fu = FPending) && bool_decide (fut_executor fu = e)
  | None => false
  end.

(** [Future.cancel()] on a pending future: it becomes cancelled and its
    callbacks are called. *)
Definition future_cancel (f : nat) (self : Manager) : Manager :=
  task_completed f
    (with_pool_futures (alter (set_fut_state FCancelled) f (pool_futures self)) self).

(** [executor.shutdown(wait=False, cancel_futures=True)]: the queue is
    drained, oldest first, and each of its futures cancelled. *)
Definition executor_shutdown (e : nat) (self : Manager) : Manager :=
  foldl (λ m f, if is_queued e (pool_futures m) f then future_cancel f m else m)
    self (seq 0 (length (pool_futures self))).

(** [if self.executor: self.executor.shutdown(...); self.executor = None]. *)
Definition drop_executor (self : Manager) : Manager :=
  match executor self with
  | Some e => with_executor None (executor_shutdown e self)
  | None => self
  end.

(** [pause()]. *)
Definition pause (self : Manager) : Manager :=
  drop_executor (with_paused true self).

(** [resume()]. *)
Definition resume (self : Manager) : Manager :=
  if negb (paused self) then self
  else
    let e := pool_executors self in
    with_paused false (submit_pending e (new_executor self)).

Definition cancel_if_running (t : CompressionTask) : CompressionTask :=
  if bool_decide (status t = Running) then set_status Cancelled t else t.

(** [cancel()]. *)
Definition cancel (self : Manager) : Manager :=
  let self := drop_executor (with_running false self) in
  with_tasks (map cancel_if_running (tasks self)) self.

(** [get_progress()]. *)
Definition get_progress (self : Manager) : Q :=
  if bool_decide (total_tasks self = 0) then 0%Q
  else py_div (completed_tasks self) (total_tasks self).

(** The dictionary [get_stats] returns. *)
Record Stats := MkStats {
  s_total_tasks : nat;
  s_completed_tasks : nat;
  s_failed_tasks : nat;
  s_total_images : nat;
  s_total_original_size : nat;
  s_total_compressed_size : nat;
  s_compression_ratio : Q
}.

Definition sum_of (f : CompressionTask -> nat) (ts : list CompressionTask) : nat :=
  foldr (λ t acc, f t + acc) 0 ts.

Definition get_stats (self : Manager) : Stats :=
  let completed := filter (λ t, status t = Completed) (tasks self) in
  let failed := filter (λ t, status t = Failed) (tasks self) in
  let total_images := sum_of image_count completed in
  let total_original_size := sum_of original_size completed in
  let total_compressed_size := sum_of compressed_size completed in
  {| s_total_tasks := total_tasks self;
     s_completed_tasks := completed_tasks self;
     s_failed_tasks := length failed;
     s_total_images := total_images;
     s_total_original_size := total_original_size;
     s_total_compressed_size := total_compressed_size;
     s_compression_ratio :=
       if bool_decide (total_original_size ≠ 0)
       then size_ratio total_compressed_size total_original_size
       else 0%Q |}.

(** *** The workers *)

(** The work items of executor [e] that occupy a worker thread. *)
Definition busy_workers (e : nat) (fs : list Future) : nat :=
  length (filter (λ fu, fut_executor fu = e ∧
                        (fut_state fu = FTaken ∨ fut_state fu = FRunning ∨
                         fut_state fu = FReturned)) fs).

(** No older future of the same executor is still queued. *)
Definition first_queued (fs : list Future) (f : nat) (e : nat) : bool :=
  forallb (λ g, negb (is_queued e fs g)) (seq 0 f).

(** A worker that is free takes the future [f] from the head of the queue
    of its executor. *)
Definition worker_take (f : nat) (m : Manager) : option Manager :=
  fu ← pool_futures m !! f;
  if bool_decide (fut_state fu = FPending)
     && first_queued (pool_futures m) f (fut_executor fu)
     && bool_decide (busy_workers (fut_executor fu) (pool_futures m) < max_workers m)
  then Some (with_pool_futures (<[f := set_fut_state FTaken fu]> (pool_futures m)) m)
  else None.

(** The worker that took [f] runs lines 105 and 106 of [compress_directory]
    on the task object, whatever its status is by then. *)
Definition worker_begin (f : nat) (now : Q) (m : Manager) : option Manager :=
  fu ← pool_futures m !! f;
  t ← tasks m !! fut_task fu;
  if bool_decide (fut_state fu = FTaken)
  then Some (with_tasks (<[fut_task fu := compress_begin now t]> (tasks m))
               (with_pool_futures (<[f := set_fut_state FRunning fu]> (pool_futures m)) m))
  else None.

(** The worker runs the rest of [compress_directory] on the task object as
    it is then. *)
Definition worker_finish (f : nat) (w : World) (now : Q) (m : Manager) : option Manager :=
  fu ← pool_futures m !! f;
  t ← tasks m !! fut_task fu;
  if bool_decide (fut_state fu = FRunning)
  then Some (with_tasks (<[fut_task fu := cd_task (compress_rest w now (MkCd t [] ∅ [])).2]>
                           (tasks m))
               (with_pool_futures (<[f := set_fut_state FReturned fu]> (pool_futures m)) m))
  else None.

(** The worker sets the result of the future: the callback runs. *)
Definition worker_done (f : nat) (m : Manager) : option Manager :=
  fu ← pool_futures m !! f;
  if bool_decide (fut_state fu = FReturned)
  then Some (task_completed f
               (with_pool_futures (<[f := set_fut_state FFinished fu]> (pool_futures m)) m))
  else None.

(** *** Runs of the pool *)

Inductive Label :=
  | AddTask (source target : string) (preserve : bool) (level : Z) (rename : bool)
  | Start
  | Pause
  | Resume
  | Cancel
  | WorkerTake (f : nat)
  | WorkerBegin (f : nat) (now : Q)
  | WorkerFinish (f : nat) (w : World) (now : Q)
  | WorkerDone (f : nat).

(** One step; [None] when a worker step is not possible in [m]. *)
Definition step (l : Label) (m : Manager) : option Manager :=
  match l with
  | AddTask source target preserve level rename =>
      Some (add_task source target preserve level rename m)
  | Start => Some (start m)
  | Pause => Some (pause m)
  | Resume => Some (resume m)
  | Cancel => Some (cancel m)
  | WorkerTake f => worker_take f m
  | WorkerBegin f now => worker_begin f now m
  | WorkerFinish f w now => worker_finish f w now m
  | WorkerDone f => worker_done f m
  end.

Fixpoint run (ls : list Label) (m : Manager) : option Manager :=
  match ls with
  | [] => Some m
  | l :: rest => m' ← step l m; run rest m'
  end.

(** The life cycle of a pool: [resume()] is for a pool that is running. *)
Definition in_life_cycle (l : Label) (m : Manager) : bool :=
  match l with
  | Resume => running m
  | _ => true
  end.

(** A run in which every step is within the life cycle. *)
Fixpoint life_cycle_run (ls : list Label) (m : Manager) : option Manager :=
  match ls with
  | [] => Some m
  | l :: rest =>
      if in_life_cycle l m then m' ← step l m; life_cycle_run rest m' else None
  end.

(** The futures of a task whose done-callback has been called: each call
    added one to [completed_tasks]. *)
Definition callbacks_of (i : nat) (m : Manager) : nat :=
  length (filter (λ fu, fut_task fu = i ∧
                        (fut_state fu = FFinished ∨ fut_state fu = FCancelled))
                 (pool_futures m)).

(** The moves of a status the specification names, and the two a worker
    makes when it finishes a task that [cancel()] marked in the meantime. *)
Definition status_edge (s s' : Status) : bool :=
  match s, s' with
  | Pending, Running
  | Running, Completed | Running, Failed | Running, Cancelled
  | Cancelled, Completed | Cancelled, Failed => true
  | _, _ => bool_decide (s = s')
  end.

(** The moves the specification names, and no other. *)
Definition spec_status_edge (s s' : Status) : bool :=
  match s, s' with
  | Pending, Running
  | Running, Completed | Running, Failed | Running, Cancelled => true
  | _, _ => bool_decide (s = s')
  end.

(** ** [filesystem.py]: class [FileSystemWatcher] *)

(** [try: body / except classes: handler]: an exception of another class
    escapes. *)
Definition try_except_if {S A} (caught : Exc → bool) (body : M S A) (handler : Exc → M S A)
    : M S A :=
  λ s, match body s with
       | (Returns a, s') => (Returns a, s')
       | (Raises e, s') => if caught e then handler e s' else (Raises e, s')
       end.

(** [except (FileNotFoundError, PermissionError)]. *)
Definition getmtime_error_caught (e : Exc) : bool :=
  bool_decide (exc_class e = FileNotFoundError) || bool_decide (exc_class e = PermissionError).

(** The watcher object: [self.last_modified_times]. *)
Record Watcher := MkWatcher {
  last_modified_times : gmap string Q
}.

(** [FileSystemWatcher.__init__]. *)
Definition new_watcher : Watcher := MkWatcher ∅.

(** The body of the inner loop of [snapshot_directory], on the dictionary
    [snapshot]. *)
Definition snapshot_file (w : World) (file_path : string) : M (gmap string Q) unit :=
  try_except_if getmtime_error_caught
    (mtime ← call (w_getmtime w file_path); modify (<[file_path := mtime]>))
    (λ _, mret tt).

Definition snapshot_loop (w : World) (directory : string) : M (gmap string Q) unit :=
  for_each (walk_of w directory) (λ '(root, _, files),
    for_each files (λ file,
      let file_path := path_join root file in
      snapshot_file w file_path)).

(** [snapshot_directory(directory)]. *)
Definition snapshot_directory (w : World) (directory : string) : outcome (gmap string Q) :=
  match snapshot_loop w directory ∅ with
  | (Returns _, snapshot) => Returns snapshot
  | (Raises e, _) => Raises e
  end.

(** [file_path not in self.last_modified_times or
     mtime > self.last_modified_times[file_path]]. *)
Definition is_changed (last : gmap string Q) (file_path : string) (mtime : Q) : bool :=
  match last !! file_path with
  | None => true
  | Some before => negb (Qle_bool mtime before)
  end.

(** [get_changed_files(directory)]: the set returned (or the exception that
    escapes) and the watcher with its snapshot replaced. *)
Definition get_changed_files (w : World) (self : Watcher) (directory : string)
    : outcome (gset string) * Watcher :=
  match snapshot_directory w directory with
  | Returns current_snapshot =>
      let changed_files :=
        dom (filter (λ kv, is_changed (last_modified_times self) kv.1 kv.2 = true)
               current_snapshot) in
      (Returns changed_files, MkWatcher current_snapshot)
  | Raises e => (Raises e, self)
  end.

(** ** [report.py]: class [ReportGenerator]

    [add_task_result] only; [generate_report] writes a workbook with
    [pandas] and is not modelled. The text of a time ([strftime]) is not
    modelled either: a row keeps the time that is formatted. *)

(** [self.summary]. *)
Record Summary := MkSummary {
  total_comics : gset string;
  total_chapters : nat;
  total_images : nat;
  total_original_size : nat;
  total_compressed_size : nat;
  summary_start_time : option Q;
  summary_end_time : option Q;
  failed_tasks : nat
}.

(** An entry of [self.task_results], one field per key, in the order of
    the source. *)
Record TaskRow := MkTaskRow {
  row_comic_title : string;
  row_chapter_name : string;
  row_archive_name : string;
  row_image_count : nat;
  row_original_mb : Q;
  row_compressed_mb : Q;
  row_ratio : Q;
  row_time : option Q;
  row_duration : Q;
  row_md5 : string;
  row_source_path : string;
  row_status : Status;
  row_error : string
}.

Record ReportGenerator := MkReport {
  task_results : list TaskRow;
  summary : Summary
}.

(** [ReportGenerator.__init__]. *)
Definition new_report : ReportGenerator :=
  MkReport [] (MkSummary ∅ 0 0 0 0 None None 0).

(** [a < b] on floats, where both are set. *)
Definition time_lt (a b : option Q) : bool :=
  match a, b with
  | Some x, Some y => negb (Qle_bool y x)
  | _, _ => false
  end.

(** [size / (1024 * 1024) if size else 0]. *)
Definition megabytes (size : nat) : Q :=
  if bool_decide (size ≠ 0) then Z.of_nat size # 1048576 else 0%Q.

(** [add_task_result(task)]. *)
Definition add_task_result (task : CompressionTask) (self : ReportGenerator) : ReportGenerator :=
  let s := summary self in
  let start :=
    if negb (truthy (summary_start_time s))
       || (truthy (start_time task) && time_lt (start_time task) (summary_start_time s))
    then start_time task else summary_start_time s in
  let finish :=
    if negb (truthy (summary_end_time s))
       || (truthy (end_time task) && time_lt (summary_end_time s) (end_time task))
    then end_time task else summary_end_time s in
  let s :=
    if bool_decide (status task = Completed) then
      let comic_title := basename (dirname (source_path task)) in
      MkSummary ({[comic_title]} ∪ total_comics s) (total_chapters s + 1)
        (total_images s + image_count task)
        (total_original_size s + original_size task)
        (total_compressed_size s + compressed_size task)
        start finish (failed_tasks s)
    else if bool_decide (status task = Failed) then
      MkSummary (total_comics s) (total_chapters s) (total_images s)
        (total_original_size s) (total_compressed_size s) start finish (failed_tasks s + 1)
    else
      MkSummary (total_comics s) (total_chapters s) (total_images s)
        (total_original_size s) (total_compressed_size s) start finish (failed_tasks s) in
  let task_data := {|
    row_comic_title := basename (dirname (source_path task));
    row_chapter_name := basename (source_path task);
    row_archive_name := basename (target_path task);
    row_image_count := image_count task;
    row_original_mb := megabytes (original_size task);
    row_compressed_mb := megabytes (compressed_size task);
    row_ratio :=
      if bool_decide (original_size task ≠ 0) && bool_decide (compressed_size task ≠ 0)
      then size_ratio (compressed_size task) (original_size task) else 0%Q;
    row_time := if truthy (end_time task) then end_time task else None;
    row_duration :=
      if truthy (end_time task) && truthy (start_time task)
      then match end_time task, start_time task with
           | Some e, Some b => (e - b)%Q
           | _, _ => 0%Q
           end
      else 0%Q;
    row_md5 := default "" (md5 task);
    row_source_path := source_path task;
    row_status := status task;
    row_error := default "" (exc_msg <$> error task)
  |} in
  MkReport (task_results self ++ [task_data]) s.

(** ** [utils.py]: [find_images_recursively] and [sanitize_filename] *)

(** [find_images_recursively(directory, image_extensions)]: the loops run on
    the pair [(images, total_size)]; the [except Exception] clause logs and
    falls through to [return images, total_size]. *)
Definition find_images_loop (w : World) (directory : string) (extensions : gset string)
    : M (list string * nat) unit :=
  for_each (walk_of w directory) (λ '(root, _, files),
    for_each files (λ file,
      if bool_decide ((splitext (lower file)).2 ∈ extensions) then
        let file_path := path_join root file in
        modify (λ '(images, total_size), (images ++ [file_path], total_size));;
        size ← call (w_getsize w file_path);
        modify (λ '(images, total_size), (images, total_size + size))
      else mret tt)).

Definition find_images_recursively (w : World) (directory : string) (extensions : gset string)
    : list string * nat :=
  (try_except (find_images_loop w directory extensions) (λ _, mret tt) ([], 0)).2.

(** The characters of the class [invalid_chars] of the source, by their
    codes: less-than, greater-than, colon, double quote, slash, backslash,
    bar, question mark and star. *)
Definition invalid_chars : list ascii :=
  map ascii_of_nat [60; 62; 58; 34; 47; 92; 124; 63; 42].

Definition is_invalid_char (c : ascii) : bool := existsb (Ascii.eqb c) invalid_chars.

(** [re.sub(invalid_chars, '_', filename)]. *)
Fixpoint replace_invalid (filename : string) : string :=
  match filename with
  | EmptyString => EmptyString
  | String c rest => String (if is_invalid_char c then "_"%char else c) (replace_invalid rest)
  end.

(** A character of [rstrip('. ')]. *)
Definition is_dot_or_space (c : ascii) : bool := Ascii.eqb c "."%char || Ascii.eqb c " "%char.

(** [s.rstrip('. ')]. *)
Fixpoint rstrip_dots (s : string) : string :=
  match s with
  | EmptyString => EmptyString
  | String c rest =>
      let stripped := rstrip_dots rest in
      if String.eqb stripped "" && is_dot_or_space c then EmptyString
      else String c stripped
  end.

(** [sanitize_filename(filename)]. *)
Definition sanitize_filename (filename : string) : string :=
  let sanitized := replace_invalid filename in
  rstrip_dots sanitized.

(** * Definitions used to state and prove the properties *)

(** What [future.cancel()] and [executor.shutdown()] cannot change: all of
    the manager but the counter, the futures' states and the callback
    log. *)
Definition same_frame (m m' : Manager) : Prop :=
  max_workers m' = max_workers m ∧ update_callback m' = update_callback m ∧
  tasks m' = tasks m ∧ total_tasks m' = total_tasks m ∧
  running m' = running m ∧ paused m' = paused m ∧ executor m' = executor m ∧
  futures m' = futures m ∧ pool_executors m' = pool_executors m.

(** The future [f] after the queue of [e] has been drained. *)
Definition cancel_queued (e : nat) (fu : Future) : Future :=
  if bool_decide (fut_state fu = FPending) && bool_decide (fut_executor fu = e)
  then set_fut_state FCancelled fu else fu.

Definition shutdown_body (e : nat) (m : Manager) (f : nat) : Manager :=
  if is_queued e (pool_futures m) f then future_cancel f m else m.

(** The positions of the tasks that are pending, in order. *)
Definition pending_indices (ts : list CompressionTask) : list nat :=
  filter (λ i, is_pending ts i) (seq 0 (length ts)).

Definition submit_body (e : nat) (m : Manager) (i : nat) : Manager :=
  if is_pending (tasks m) i then submit e i m else m.

(** A world in which every call succeeds; each source directory holds one
    image of ten bytes. The decimal digits from 128 on are the full-width
    ones. *)
Definition quiet_world : World := {|
  w_tree := λ _, Some (FsDir "" ["001.jpg"] []);
  w_getsize := λ _, Returns 10;
  w_getmtime := λ _, Returns 7%Q;
  w_zip_create := λ _, None;
  w_zip_write := λ _, None;
  w_zip_close := λ _, None;
  w_exists := λ _, false;
  w_remove := λ _, None;
  w_rename := λ _ _, None;
  w_utime := λ _ _, None;
  w_md5 := λ _, Returns "d41d8cd9";
  w_rmtree := λ _, None;
  w_decimal := λ code_point, (65296 <=? code_point)%N && (code_point <=? 65305)%N
|}.

(** The UTF-8 bytes of the full-width digits one and two (U+FF11, U+FF12),
    and the digit one written in two bytes, which is not UTF-8. *)
Definition full_width_12 : string :=
  string_of_list_ascii (map ascii_of_nat [239; 188; 145; 239; 188; 146]).

Definition overlong_1 : string := string_of_list_ascii (map ascii_of_nat [193; 177]).

(** Two chapters handed to a pool of one worker, which is started. *)
Definition two_chapters : list Label :=
  [AddTask "Comics/A/1" "Comics/A/1.zip" true 8 false;
   AddTask "Comics/A/2" "Comics/A/2.zip" true 8 false;
   Start].




(** A directory that lists a sub-directory before its only image. *)
Definition mixed_scandir (p : string) : outcome (list DirEntry) :=
  if String.eqb p "Comics/A/1"
  then Returns [MkEntry "pages" false true; MkEntry "001.JPG" true false]
  else Raises (MkExc FileNotFoundError p).

(** A computation that, when it returns, leaves the task completed. *)
Definition ends_completed (m : M CdState unit) : Prop :=
  ∀ s s', m s = (Returns tt, s') → status (cd_task s') = Completed.

(** A world in which the temporary archive cannot be renamed. *)
Definition rename_fails : World := {|
  w_tree := w_tree quiet_world;
  w_getsize := w_getsize quiet_world;
  w_getmtime := w_getmtime quiet_world;
  w_zip_create := w_zip_create quiet_world;
  w_zip_write := w_zip_write quiet_world;
  w_zip_close := w_zip_close quiet_world;
  w_exists := w_exists quiet_world;
  w_remove := w_remove quiet_world;
  w_rename := λ _ _, Some (MkExc OSError "rename");
  w_utime := w_utime quiet_world;
  w_md5 := w_md5 quiet_world;
  w_rmtree := w_rmtree quiet_world;
  w_decimal := w_decimal quiet_world
|}.

(** The calls of the callback for the directories [paths], the first of
    them being call number [processed + 1]. *)
Fixpoint log_entries (total_dirs processed : nat) (paths : list string) : list (Q * string) :=
  match paths with
  | [] => []
  | dir_path :: rest =>
      (py_div (processed + 1) total_dirs, String.append scan_label dir_path)
      :: log_entries total_dirs (processed + 1) rest
  end.

Definition guarded (total_dirs : nat) (entries : list (Q * string)) : list (Q * string) :=
  if bool_decide (0 < total_dirs)%nat then entries else [].

(** What a loop of the second pass does to the state when it is given
    the directories [paths] to classify: it handles the first [k] of
    them, all of them unless an exception stopped it. *)
Definition handled (total_dirs : nat) (paths : list string) (st : ScanState)
    (r : ScanState * option Exc) : Prop :=
  ∃ k, (k ≤ length paths)%nat ∧
       (r.2 = None → k = length paths) ∧
       processed_dirs r.1 = processed_dirs st + k ∧
       progress_log r.1 =
         progress_log st ++ guarded total_dirs (log_entries total_dirs (processed_dirs st) (take k paths)) ∧
       max_depth (scan_self r.1) = max_depth (scan_self st).

(** The image files below a directory, as both loops over [os.walk] meet
    them: the path of each and its base name. *)
Definition image_files (walk : list walk_item) : list (string * string) :=
  flat_map (λ '(root, _, files),
      map (λ file, (path_join root file, file)) (filter (λ file, is_image_file file) files))
    walk.

(** The entries written for the image files, given their sizes. *)
Definition entries_of (images : list (string * string)) (sizes : list nat) : list ZipEntry :=
  zip_with (λ '(_, file) size, MkZipEntry file size) images sizes.

(** The last four characters. *)
Definition last_four (s : string) : string := drop_str (String.length s - 4) s.

(** A chapter whose sub-directory holds an image with the name of one at
    the top; the size of a file is the length of its path. *)
Definition nested_world : World := {|
  w_tree := λ _, Some (FsDir "1" ["001.jpg"; "notes.txt"]
                         [FsDir "extra" ["001.jpg"; "002.PNG"] []]);
  w_getsize := λ p, Returns (String.length p);
  w_getmtime := w_getmtime quiet_world;
  w_zip_create := w_zip_create quiet_world;
  w_zip_write := w_zip_write quiet_world;
  w_zip_close := w_zip_close quiet_world;
  w_exists := λ _, true;
  w_remove := w_remove quiet_world;
  w_rename := w_rename quiet_world;
  w_utime := w_utime quiet_world;
  w_md5 := w_md5 quiet_world;
  w_rmtree := w_rmtree quiet_world;
  w_decimal := w_decimal quiet_world
|}.

(** A future that a worker has taken from its queue. *)
Definition dequeued (fu : Future) : Prop :=
  fut_state fu = FTaken ∨ fut_state fu = FRunning ∨
  fut_state fu = FReturned ∨ fut_state fu = FFinished.

#[global] Instance dequeued_dec (fu : Future) : Decision (dequeued fu).
Proof. unfold dequeued. apply _. Defined.

(** A future whose worker has run line 106 of [compress_directory]. *)
Definition begun (fu : Future) : Prop :=
  fut_state fu = FRunning ∨ fut_state fu = FReturned ∨ fut_state fu = FFinished.

(** A future whose [compress_directory] has returned. *)
Definition returned (fu : Future) : Prop :=
  fut_state fu = FReturned ∨ fut_state fu = FFinished.

(** What the statuses of the tasks say of the futures, in every state
    reached from a new manager: a task that has left pending has a future
    that has begun, the task of a running future has left pending, and a
    task that is completed or failed has a future that has returned. *)
Record track_inv (m : Manager) : Prop := {
  trk_begun : ∀ i t, tasks m !! i = Some t → status t ≠ Pending →
    ∃ f fu, pool_futures m !! f = Some fu ∧ fut_task fu = i ∧ begun fu;
  trk_running : ∀ f fu, pool_futures m !! f = Some fu → fut_state fu = FRunning →
    ∃ t, tasks m !! fut_task fu = Some t ∧ status t ≠ Pending;
  trk_done : ∀ i t, tasks m !! i = Some t → status t = Completed ∨ status t = Failed →
    ∃ f fu, pool_futures m !! f = Some fu ∧ fut_task fu = i ∧ returned fu
}.

(** The futures of the task at position [i] that a worker has taken. *)
Definition taken_futures (i : nat) (m : Manager) : list Future :=
  filter (λ fu, fut_task fu = i ∧ dequeued fu) (pool_futures m).

(** The task at position [i] has been taken from a work queue once at
    most. *)
Definition taken_once (i : nat) (m : Manager) : Prop :=
  length (taken_futures i m) ≤ 1.

(** The invariant of a pool used within its life cycle: an executor that
    was shut down has an empty queue. *)
Record pool_inv (m : Manager) : Prop := {
  inv_idle : running m = false → executor m = None;
  inv_paused : paused m = true → executor m = None;
  inv_queue : ∀ f fu, pool_futures m !! f = Some fu →
    fut_state fu = FPending → executor m = Some (fut_executor fu)
}.

(** One chapter is running when the pool is cancelled; its worker finishes
    afterwards. *)
Definition cancel_trace : list Label :=
  [AddTask "Comics/A/1" "Comics/A/1.zip" true 8 false; Start; WorkerTake 0; WorkerBegin 0 1; Cancel].

Definition cancelled_pool : Manager :=
  Eval vm_compute in
    default (new_manager 1 false) (life_cycle_run cancel_trace (new_manager 1 false)).

Definition cancelled_task : CompressionTask :=
  Eval vm_compute in default (new_task "" "" true 0 false) (tasks cancelled_pool !! 0).

Definition finished_pool : Manager :=
  Eval vm_compute in
    default cancelled_pool (step (WorkerFinish 0 quiet_world 2) cancelled_pool).

(** One chapter: the pool is paused and resumed after a worker took the
    chapter from the queue and before line 106 has run; the first worker
    then completes the chapter and a second one takes it again. *)
Definition paused_take_trace : list Label :=
  [AddTask "Comics/A/1" "Comics/A/1.zip" true 8 false; Start; WorkerTake 0;
   Pause; Resume;
   WorkerBegin 0 1; WorkerFinish 0 quiet_world 2; WorkerDone 0; WorkerTake 1].

(** The futures [pause()] finds in the queue of the executor. *)
Definition queued_futures (m : Manager) : list nat :=
  match executor m with
  | Some e => filter (λ f, is_queued e (pool_futures m) f) (seq 0 (length (pool_futures m)))
  | None => []
  end.

(** ** More about the pool *)

(** The steps of a run that is neither paused nor cancelled. *)
Definition never_stopped (l : Label) : bool :=
  match l with
  | Pause | Cancel => false
  | _ => true
  end.

(** The futures whose completion has been counted. *)
Definition finished_futures (m : Manager) : list Future :=
  filter (λ fu, fut_state fu = FFinished) (pool_futures m).

(** What holds of the counter in a run that is neither paused nor
    cancelled. *)
Record counter_inv (m : Manager) : Prop := {
  cnt_paused : paused m = false;
  cnt_idle : running m = false → pool_futures m = [];
  cnt_pending : running m = false → Forall (λ t, status t = Pending) (tasks m);
  cnt_completed : completed_tasks m = length (finished_futures m);
  cnt_total : length (pool_futures m) = total_tasks m
}.

(** Both chapters are compressed, one after the other, by a pool that is
    never stopped. *)
Definition steady_trace : list Label :=
  two_chapters ++
  [WorkerTake 0; WorkerBegin 0 1; WorkerFinish 0 quiet_world 2; WorkerDone 0;
   WorkerTake 1; WorkerBegin 1 3; WorkerFinish 1 rename_fails 4; WorkerDone 1].

Definition steady_pool : Manager :=
  Eval vm_compute in
    default (new_manager 1 true) (run steady_trace (new_manager 1 true)).

Definition steady_task : CompressionTask :=
  Eval vm_compute in default (new_task "" "" true 0 false) (tasks steady_pool !! 1).

(** The pool with its first chapter running and the second queued. *)
Definition busy_pool : Manager :=
  Eval vm_compute in
    default (new_manager 1 true)
      (life_cycle_run (two_chapters ++ [WorkerTake 0; WorkerBegin 0 1]) (new_manager 1 true)).






(** ** More about the scanner *)

(** The directories the second loop of [scan_for_comic_directories]
    reaches, in order: the path of each and its name in the listing of its
    parent. *)
Definition visited_entries (self : Scanner) (root_path : string) (walk : list walk_item)
    : list (string * string) :=
  flat_map (λ '(root, dirs, _),
      if depth_reached self root_path root then []
      else map (λ d, (path_join root d, d)) (filter (λ d, d ∉ excluded_dirs) dirs)) walk.

(** The triple appended for a chapter directory. *)
Definition chapter_triple (entry : string * string) : string * string * string :=
  (dirname entry.1, entry.1, entry.2).

(** The chapters collected from the directories [entries], as the cache of
    the scanner [self] tells. *)
Definition cached_chapters (self : Scanner) (entries : list (string * string))
    : list (string * string * string) :=
  map chapter_triple (filter (λ entry, chapter_cache self !! entry.1 = Some true) entries).

(** After the directories [entries]: the chapters are those the cache
    answers for, and each directory has its answer in the cache. *)
Definition chapters_inv (st : ScanState) (entries : list (string * string)) : Prop :=
  comic_chapters st = cached_chapters (scan_self st) entries ∧
  Forall (λ entry, is_Some (chapter_cache (scan_self st) !! entry.1)) entries.

(** A loop of the second pass, given the directories [entries] after
    [done]: it classifies the first [k] of them, all of them unless an
    exception stopped it. *)
Definition collected (done entries : list (string * string))
    (r : ScanState * option Exc) : Prop :=
  ∃ k, k ≤ length entries ∧ (r.2 = None → k = length entries) ∧
       chapters_inv r.1 (done ++ take k entries).

(** A directory that has been removed. *)
Definition gone_scandir (p : string) : outcome (list DirEntry) :=
  Raises (MkExc FileNotFoundError p).
(** ** More about the watcher *)

(** The paths of the files below a directory, as the loops over [os.walk]
    meet them. *)
Definition walked_files (walk : list walk_item) : list string :=
  flat_map (λ '(root, _, files), map (path_join root) files) walk.

(** The time of last modification can be read, or the failure is one that
    [snapshot_directory] passes over. *)
Definition mtime_readable (w : World) (file_path : string) : Prop :=
  match w_getmtime w file_path with
  | Returns _ => True
  | Raises e => getmtime_error_caught e = true
  end.

(** The dictionary records what [os.path.getmtime] answers. *)
Definition snapshot_sound (w : World) (snapshot : gmap string Q) : Prop :=
  ∀ p t, snapshot !! p = Some t → w_getmtime w p = Returns t.

(** The chapter of [nested_world] after its notes were made unreadable;
    the time of a file is the length of its path. *)
Definition watched_world : World := {|
  w_tree := w_tree nested_world;
  w_getsize := w_getsize nested_world;
  w_getmtime := λ p,
    if String.eqb p "Comics/A/1/notes.txt" then Raises (MkExc PermissionError p)
    else Returns (Z.of_nat (String.length p) # 1);
  w_zip_create := w_zip_create quiet_world;
  w_zip_write := w_zip_write quiet_world;
  w_zip_close := w_zip_close quiet_world;
  w_exists := w_exists quiet_world;
  w_remove := w_remove quiet_world;
  w_rename := w_rename quiet_world;
  w_utime := w_utime quiet_world;
  w_md5 := w_md5 quiet_world;
  w_rmtree := w_rmtree quiet_world;
  w_decimal := w_decimal quiet_world
|}.

Definition watched_snapshot : gmap string Q :=
  Eval vm_compute in
    match snapshot_directory watched_world "Comics/A/1" with
    | Returns snapshot => snapshot
    | Raises _ => ∅
    end.

Definition watched_changes : gset string :=
  Eval vm_compute in
    match (get_changed_files watched_world new_watcher "Comics/A/1").1 with
    | Returns changed => changed
    | Raises _ => ∅
    end.

(** ** More about the archiver *)

(** A computation that leaves [f] of the state as it is, whether it returns
    or raises. *)
Definition preserves {X A} (f : CdState → X) (m : M CdState A) : Prop :=
  ∀ s o s', m s = (o, s') → f s' = f s.

(** The fields of a task that say what is to be done. *)
Definition task_config (s : CdState) : string * bool * Z * bool * option Q :=
  (source_path (cd_task s), preserve_timestamp (cd_task s), compression_level (cd_task s),
   rename_pattern (cd_task s), start_time (cd_task s)).

(** A computation that removes the directory [src] exactly when it
    returns, and nothing else. *)
Definition removes_on_return {A} (src : string) (m : M CdState A) : Prop :=
  ∀ s o s', m s = (o, s') → cd_removed s = [] →
    match o with
    | Returns _ => cd_removed s' = [src]
    | Raises _ => cd_removed s' = []
    end.

(** The chapter of [nested_world] when the size of the image in its
    sub-directory cannot be read. *)
Definition unreadable_world : World := {|
  w_tree := w_tree nested_world;
  w_getsize := λ p,
    if String.eqb p "Comics/A/1/extra/001.jpg" then Raises (MkExc PermissionError p)
    else Returns (String.length p);
  w_getmtime := w_getmtime quiet_world;
  w_zip_create := w_zip_create quiet_world;
  w_zip_write := w_zip_write quiet_world;
  w_zip_close := w_zip_close quiet_world;
  w_exists := w_exists quiet_world;
  w_remove := w_remove quiet_world;
  w_rename := w_rename quiet_world;
  w_utime := w_utime quiet_world;
  w_md5 := w_md5 quiet_world;
  w_rmtree := w_rmtree quiet_world;
  w_decimal := w_decimal quiet_world
|}.

(** ** More about the report *)

(** The report after the tasks [ts] were added, in order. *)
Definition report_of (ts : list CompressionTask) (self : ReportGenerator) : ReportGenerator :=
  foldl (λ r t, add_task_result t r) self ts.

(** The pool after both chapters of [steady_trace] ended, as a report. *)
Definition steady_report : ReportGenerator :=
  Eval vm_compute in report_of (tasks steady_pool) new_report.

(** The update of a time of the summary: the new time replaces one that
    is not set, and one it is [better] than. *)
Definition pick_time (better : Q → Q → bool) (current new : option Q) : option Q :=
  if negb (truthy current)
     || (truthy new && match new, current with
                       | Some x, Some y => better x y
                       | _, _ => false
                       end)
  then new else current.

Definition Qlt_bool (x y : Q) : bool := negb (Qle_bool y x).

(** ** More about the callbacks *)

(** What holds of the calls of [update_callback] in a run that is neither
    paused nor cancelled. *)
Record updates_inv (m : Manager) : Prop := {
  upd_idle : running m = false → updates m = [];
  upd_count : length (updates m) = if update_callback m then completed_tasks m else 0;
  upd_progress : map fst (updates m) =
    map (λ j, py_div j (total_tasks m)) (seq 1 (length (updates m)));
  upd_tasks : ∀ u, u ∈ updates m →
    ∃ f fu, pool_futures m !! f = Some fu ∧ fut_state fu = FFinished ∧ fut_task fu = u.2
}.

(** ** More about the helpers *)

(** Every character of the string passes the test. *)
Fixpoint all_chars (test : ascii → bool) (s : string) : bool :=
  match s with
  | EmptyString => true
  | String c rest => test c && all_chars test rest
  end.

(** The last character of a string, if it has one. *)
Fixpoint last_char (s : string) : option ascii :=
  match s with
  | EmptyString => None
  | String c EmptyString => Some c
  | String _ rest => last_char rest
  end.

(** * Properties *)

(** ** The manager's methods and the fields they leave alone *)

Lemma same_frame_refl m : same_frame m m.
Proof. by repeat split. Qed.

Lemma same_frame_trans m1 m2 m3 :
  same_frame m1 m2 → same_frame m2 m3 → same_frame m1 m3.
Proof.
  unfold same_frame. intros (?&?&?&?&?&?&?&?&?) (?&?&?&?&?&?&?&?&?).
  repeat split; congruence.
Qed.

Lemma task_completed_frame f m : same_frame m (task_completed f m).
Proof.
  unfold task_completed; simpl.
  repeat case_match; by repeat split.
Qed.

Lemma task_completed_pool_futures f m :
  pool_futures (task_completed f m) = pool_futures m.
Proof. unfold task_completed; simpl. by repeat case_match. Qed.

Lemma task_completed_counter f m :
  completed_tasks (task_completed f m) = completed_tasks m + 1.
Proof. unfold task_completed; simpl. by repeat case_match. Qed.

Lemma future_cancel_frame f m : same_frame m (future_cancel f m).
Proof.
  unfold future_cancel.
  eapply same_frame_trans; [|apply task_completed_frame]. by repeat split.
Qed.

Lemma future_cancel_pool_futures f m :
  pool_futures (future_cancel f m) = alter (set_fut_state FCancelled) f (pool_futures m).
Proof. unfold future_cancel. by rewrite task_completed_pool_futures. Qed.

Section shutdown.
Variable e : nat.

Lemma shutdown_body_frame m f : same_frame m (shutdown_body e m f).
Proof.
  unfold shutdown_body. case_match; [apply future_cancel_frame|apply same_frame_refl].
Qed.

Lemma shutdown_body_pool_futures m f :
  pool_futures (shutdown_body e m f) = alter (cancel_queued e) f (pool_futures m).
Proof.
  unfold shutdown_body, is_queued.
  destruct (pool_futures m !! f) as [fu|] eqn:Hfu.
  - destruct (bool_decide (fut_state fu = FPending) && bool_decide (fut_executor fu = e))
      eqn:Hq.
    + rewrite future_cancel_pool_futures.
      apply list_eq; intros j. rewrite !list_lookup_alter.
      destruct (decide (f = j)) as [->|]; [|done].
      rewrite Hfu; simpl. unfold cancel_queued. by rewrite Hq.
    + apply list_eq; intros j. rewrite list_lookup_alter.
      destruct (decide (f = j)) as [->|]; [|done].
      rewrite Hfu; simpl. unfold cancel_queued. by rewrite Hq.
  - apply list_eq; intros j. rewrite list_lookup_alter.
    destruct (decide (f = j)) as [->|]; [|done]. by rewrite Hfu.
Qed.

Lemma shutdown_fold_frame ids m : same_frame m (foldl (shutdown_body e) m ids).
Proof.
  revert m. induction ids as [|f ids IH]; intros m; simpl.
  - apply same_frame_refl.
  - eapply same_frame_trans; [apply shutdown_body_frame|apply IH].
Qed.

Lemma shutdown_fold_lookup ids m j :
  NoDup ids →
  pool_futures (foldl (shutdown_body e) m ids) !! j =
    if bool_decide (j ∈ ids) then cancel_queued e <$> pool_futures m !! j
    else pool_futures m !! j.
Proof.
  revert m. induction ids as [|f ids IH]; intros m Hnd; simpl.
  - done.
  - inversion Hnd as [|?? Hf Hnd']; subst.
    rewrite IH by done. rewrite shutdown_body_pool_futures, list_lookup_alter.
    destruct (decide (f = j)) as [->|Hne].
    + rewrite (bool_decide_eq_false_2 (j ∈ ids)) by done.
      rewrite bool_decide_eq_true_2 by set_solver. done.
    + destruct (bool_decide (j ∈ ids)) eqn:Hj.
      * rewrite bool_decide_eq_true_2; [done|].
        apply bool_decide_eq_true_1 in Hj. set_solver.
      * rewrite bool_decide_eq_false_2; [done|].
        apply bool_decide_eq_false_1 in Hj. rewrite elem_of_cons. by intros [?|?].
Qed.

Lemma shutdown_fold_counter ids m :
  (completed_tasks m ≤ completed_tasks (foldl (shutdown_body e) m ids))%nat.
Proof.
  revert m. induction ids as [|f ids IH]; intros m; simpl; [done|].
  etrans; [|apply IH]. unfold shutdown_body. case_match; [|done].
  unfold future_cancel. rewrite task_completed_counter. simpl. lia.
Qed.
End shutdown.

Lemma executor_shutdown_frame e m : same_frame m (executor_shutdown e m).
Proof. apply shutdown_fold_frame. Qed.

Lemma executor_shutdown_pool_futures e m :
  pool_futures (executor_shutdown e m) = cancel_queued e <$> pool_futures m.
Proof.
  apply list_eq; intros j. unfold executor_shutdown.
  change (foldl _ m ?l) with (foldl (shutdown_body e) m l).
  rewrite shutdown_fold_lookup by apply NoDup_seq.
  rewrite list_lookup_fmap.
  destruct (bool_decide _) eqn:Hj; [done|].
  apply bool_decide_eq_false_1 in Hj.
  rewrite lookup_ge_None_2; [done|].
  destruct (decide (length (pool_futures m) ≤ j)%nat); [done|].
  exfalso; apply Hj. apply elem_of_seq. lia.
Qed.

Lemma drop_executor_frame m :
  max_workers (drop_executor m) = max_workers m ∧
  update_callback (drop_executor m) = update_callback m ∧
  tasks (drop_executor m) = tasks m ∧ total_tasks (drop_executor m) = total_tasks m ∧
  running (drop_executor m) = running m ∧ paused (drop_executor m) = paused m ∧
  executor (drop_executor m) = None ∧ futures (drop_executor m) = futures m ∧
  pool_executors (drop_executor m) = pool_executors m.
Proof.
  unfold drop_executor. destruct (executor m) as [e|] eqn:He.
  - destruct (executor_shutdown_frame e m) as (?&?&?&?&?&?&?&?&?). by repeat split.
  - by repeat split.
Qed.

Lemma drop_executor_pool_futures m :
  pool_futures (drop_executor m) =
    match executor m with
    | Some e => cancel_queued e <$> pool_futures m
    | None => pool_futures m
    end.
Proof.
  unfold drop_executor. destruct (executor m); [|done].
  simpl. apply executor_shutdown_pool_futures.
Qed.

Section submit.
Variable e : nat.

Lemma submit_fold ids m :
  let m' := foldl (submit_body e) m ids in
  let new := filter (λ i, is_pending (tasks m) i) ids in
  max_workers m' = max_workers m ∧ update_callback m' = update_callback m ∧
  tasks m' = tasks m ∧ completed_tasks m' = completed_tasks m ∧
  total_tasks m' = total_tasks m ∧ running m' = running m ∧ paused m' = paused m ∧
  executor m' = executor m ∧ pool_executors m' = pool_executors m ∧
  updates m' = updates m ∧
  pool_futures m' = pool_futures m ++ map (λ i, MkFuture i e FPending) new ∧
  futures m' = futures m ++ seq (length (pool_futures m)) (length new).
Proof.
  revert m. induction ids as [|i ids IH]; intros m; simpl.
  - rewrite !app_nil_r. by repeat split.
  - specialize (IH (submit_body e m i)). simpl in IH.
    destruct IH as (?&?&Ht&?&?&?&?&?&?&?&Hpf&Hf).
    assert (tasks (submit_body e m i) = tasks m) as Hts
      by (unfold submit_body; by case_match).
    rewrite Hts in Hpf, Hf.
    unfold submit_body in *.
    destruct (is_pending (tasks m) i) eqn:Hi; simpl in *.
    + rewrite filter_cons_True by (by rewrite Hi). simpl.
      rewrite Hpf, Hf, length_app; simpl. rewrite <- !app_assoc; simpl.
      replace (length (pool_futures m) + 1) with (S (length (pool_futures m))) by lia.
      by repeat split.
    + rewrite filter_cons_False by (rewrite Hi; simpl; tauto). by repeat split.
Qed.
End submit.

Lemma submit_pending_spec e m :
  let m' := submit_pending e m in
  let new := pending_indices (tasks m) in
  max_workers m' = max_workers m ∧ update_callback m' = update_callback m ∧
  tasks m' = tasks m ∧ completed_tasks m' = completed_tasks m ∧
  total_tasks m' = total_tasks m ∧ running m' = running m ∧ paused m' = paused m ∧
  executor m' = executor m ∧ pool_executors m' = pool_executors m ∧
  updates m' = updates m ∧
  pool_futures m' = pool_futures m ++ map (λ i, MkFuture i e FPending) new ∧
  futures m' = seq (length (pool_futures m)) (length new).
Proof.
  unfold submit_pending, pending_indices.
  change (foldl _ ?m0 ?l) with (foldl (submit_body e) m0 l).
  match goal with |- context [foldl _ ?m0 ?l] => pose proof (submit_fold e l m0) as H end.
  simpl in H. exact H.
Qed.

(** ** [start], [cancel] and the counter *)


Lemma start_idle (self : Manager) :
  running self = false →
  let m0 := MkManager (max_workers self) (update_callback self) (tasks self) 0
              (length (tasks self)) true false (executor self) (futures self)
              (pool_futures self) (pool_executors self) (updates self) in
  start self =
    if bool_decide (tasks self = []) then m0
    else submit_pending (pool_executors self) (new_executor m0).
Proof.
  intros Hr m0. unfold start. rewrite Hr.
  change (MkManager _ _ _ _ _ _ _ _ _ _ _ _) with m0.
  change (total_tasks m0) with (length (tasks self)).
  change (pool_executors m0) with (pool_executors self).
  destruct (tasks self); simpl; done.
Qed.

Lemma filter_all {A} (P : A → Prop) `{!∀ x, Decision (P x)} (l : list A) :
  (∀ x, x ∈ l → P x) → filter P l = l.
Proof.
  induction l as [|x l IH]; intros Hall; [done|].
  rewrite filter_cons_True by (apply Hall; left).
  f_equal. apply IH. intros y Hy. apply Hall. by right.
Qed.

Lemma pending_indices_all (ts : list CompressionTask) :
  Forall (λ t, status t = Pending) ts → pending_indices ts = seq 0 (length ts).
Proof.
  intros Hall. unfold pending_indices. apply filter_all.
  intros i Hi%elem_of_seq. unfold is_pending.
  destruct (ts !! i) as [t|] eqn:Hl.
  - rewrite Forall_forall in Hall.
    rewrite bool_decide_eq_true_2; [done|].
    apply Hall. by eapply list_elem_of_lookup_2.
  - apply lookup_ge_None in Hl. lia.
Qed.

(** C2, as the code has it: [start()] does nothing on a running pool.
    Otherwise it sets [running], clears [paused], resets the counter and
    takes the length of the whole task list as the total. With an empty
    list it returns there and leaves the executor and the futures as they
    were; with a non-empty one it creates an executor and submits one
    future per pending task. The total is the number of pending tasks when
    every task is pending. *)
Theorem start_snapshots_task_list (self : Manager) :
  if running self then start self = self
  else
    running (start self) = true ∧ paused (start self) = false ∧
    completed_tasks (start self) = 0 ∧
    total_tasks (start self) = length (tasks self) ∧
    tasks (start self) = tasks self ∧
    (if bool_decide (tasks self = [])
     then executor (start self) = executor self ∧
          pool_futures (start self) = pool_futures self ∧
          futures (start self) = futures self ∧
          pool_executors (start self) = pool_executors self
     else executor (start self) = Some (pool_executors self) ∧
          pool_futures (start self) =
            pool_futures self ++
            map (λ i, MkFuture i (pool_executors self) FPending)
                (pending_indices (tasks self))) ∧
    (Forall (λ t, status t = Pending) (tasks self) →
     total_tasks (start self) = length (pending_indices (tasks self))).
Proof.
  destruct (running self) eqn:Hr; [unfold start; by rewrite Hr|].
  rewrite (start_idle self Hr).
  assert (∀ m, total_tasks m = length (tasks self) →
    Forall (λ t, status t = Pending) (tasks self) →
    total_tasks m = length (pending_indices (tasks self))) as Hpend.
  { intros m -> Hall. by rewrite pending_indices_all, length_seq. }
  case_bool_decide as Hts.
  - repeat split; try done. by apply Hpend.
  - match goal with |- context [submit_pending ?e ?m] =>
      pose proof (submit_pending_spec e m) as H end.
    cbv zeta in H. destruct H as (?&?&Ht&Hc&Htot&Hrun&Hp&He&?&?&Hpf&?).
    repeat split; try done.
    by apply Hpend.
Qed.

(** C4: [cancel()] clears [running] and turns the status of the running
    tasks, and of no other, into cancelled: a pending, completed, failed or
    cancelled task keeps its status, and no other field of a task
    changes. *)
Theorem cancel_marks_running_tasks (self : Manager) :
  running (cancel self) = false ∧
  tasks (cancel self) =
    map (λ t, if bool_decide (status t = Running) then set_status Cancelled t else t)
        (tasks self) ∧
  ∀ i, status <$> tasks (cancel self) !! i =
       (λ t, match status t with Running => Cancelled | s => s end) <$> tasks self !! i.
Proof.
  unfold cancel.
  destruct (drop_executor_frame (with_running false self)) as (?&?&Ht&?&Hr&?&?&?&?).
  simpl in *. rewrite Ht. repeat split; [done|].
  intros i. rewrite list_lookup_fmap.
  destruct (tasks self !! i) as [t|]; [|done]. simpl. f_equal.
  unfold cancel_if_running. case_bool_decide as Hs; simpl.
  - by rewrite Hs.
  - by destruct (status t).
Qed.

(** C2, as the claim has it, fails: after a cancelled run that completed
    one task of two, the pool is not running, one task is pending, and
    [start()] takes 2 as the total. *)
Lemma start_total_exceeds_pending :
  (λ m, (running m, map status (tasks m),
         total_tasks (start m), length (pending_indices (tasks m)))) <$>
    run (two_chapters ++
         [WorkerTake 0; WorkerBegin 0 1; WorkerFinish 0 quiet_world 2; WorkerDone 0; Cancel])
        (new_manager 1 false)
  = Some (false, [Completed; Pending], 2, 1).
Proof. vm_compute. reflexivity. Qed.

(** C1, which the code does not meet. Two tasks on a pool of one worker:
    [pause()] while the first runs cancels the queued future of the second,
    whose callback adds one to [completed_tasks] although nothing has
    finished; [resume()] submits the second task again and its completion
    adds one more. At the end the counter is 3 for 2 tasks, the progress is
    3/2, and the callbacks of two futures were called for the second
    task. *)
Theorem pause_resume_counts_task_twice :
  (λ m, (map status (tasks m), completed_tasks m, total_tasks m)) <$>
    run (two_chapters ++ [WorkerTake 0; WorkerBegin 0 1; Pause]) (new_manager 1 true)
  = Some ([Running; Pending], 1, 2) ∧
  (λ m, (map status (tasks m), completed_tasks m, total_tasks m,
         callbacks_of 0 m, callbacks_of 1 m, get_progress m)) <$>
    run (two_chapters ++
         [WorkerTake 0; WorkerBegin 0 1; Pause; Resume;
          WorkerFinish 0 quiet_world 2; WorkerDone 0;
          WorkerTake 2; WorkerBegin 2 3; WorkerFinish 2 quiet_world 4; WorkerDone 2])
        (new_manager 1 true)
  = Some ([Completed; Completed], 3, 2, 1, 2, (3 # 2)%Q).
Proof. split; vm_compute; reflexivity. Qed.

(** C10, which the code does not meet: [pause()] on a pool with one future
    in the queue leaves [running] true and the statuses as they were, and
    moves [completed_tasks] from 0 to 1. The counter is not in the frame
    the claim gives; what [pause()] leaves alone is stated after the
    invariant of the pool. *)
Theorem pause_moves_the_counter :
  (λ m, (completed_tasks m, completed_tasks (pause m),
         running (pause m), map status (tasks (pause m)))) <$>
    run (two_chapters ++ [WorkerTake 0; WorkerBegin 0 1]) (new_manager 1 false)
  = Some (0, 1, true, [Running; Pending]).
Proof. vm_compute. reflexivity. Qed.

(** C3, as the claim has it, fails: a task that [cancel()] marked cancelled
    while its worker was running is completed by that worker afterwards,
    a move between two states the specification takes as final. *)
Lemma cancelled_task_completes :
  (λ m, (map status (tasks m),
         (λ m', map status (tasks m')) <$> step (WorkerFinish 0 quiet_world 2) m)) <$>
    life_cycle_run
      [AddTask "Comics/A/1" "Comics/A/1.zip" true 8 false; Start; WorkerTake 0; WorkerBegin 0 1; Cancel]
      (new_manager 1 false)
  = Some ([Cancelled], Some [Completed]) ∧
  spec_status_edge Cancelled Completed = false.
Proof. split; vm_compute; reflexivity. Qed.

Lemma pos_of_nat_Z (n : nat) : n ≠ 0 → Z.pos (Pos.of_nat n) = Z.of_nat n.
Proof. intros Hn. rewrite <- (Nat2Pos.id n) at 2 by done. by rewrite positive_nat_Z. Qed.

Lemma size_ratio_reciprocal (a b : nat) :
  a ≠ 0 → b ≠ 0 → (size_ratio a b * size_ratio b a == 1)%Q.
Proof.
  intros Ha Hb. unfold size_ratio, Qeq, Qmult; simpl.
  rewrite Pos2Z.inj_mul, !pos_of_nat_Z by done. lia.
Qed.

(** C9: [to_dict] reports original size over compressed size (0 when the
    compressed size is 0), [get_stats] reports the compressed total over
    the original total of the completed tasks (0 when the latter is 0), and
    the two are reciprocal: for a pool of one task their product is 1 when
    the task is completed and neither size is 0, and 0 otherwise. *)
Theorem compression_ratio_orientations (task : CompressionTask) (self : Manager) :
  d_compression_ratio (to_dict task) =
    (if bool_decide (compressed_size task = 0) then 0%Q
     else size_ratio (original_size task) (compressed_size task)) ∧
  (let completed := filter (λ t, status t = Completed) (tasks self) in
   s_compression_ratio (get_stats self) =
     if bool_decide (sum_of original_size completed = 0) then 0%Q
     else size_ratio (sum_of compressed_size completed) (sum_of original_size completed)) ∧
  Qeq (d_compression_ratio (to_dict task) *
       s_compression_ratio (get_stats (with_tasks [task] self)))
      (if bool_decide (status task = Completed ∧ original_size task ≠ 0 ∧
                       compressed_size task ≠ 0)
       then 1%Q else 0%Q).
Proof.
  split; [|split].
  - unfold to_dict; simpl. by repeat case_bool_decide.
  - unfold get_stats; simpl. by repeat case_bool_decide.
  - unfold to_dict, get_stats; simpl.
    destruct (decide (status task = Completed)) as [Hs|Hs].
    + rewrite filter_cons_True by done. rewrite filter_nil. unfold sum_of; simpl.
      rewrite !Nat.add_0_r.
      repeat case_bool_decide; try (exfalso; tauto); try ring.
      * by apply size_ratio_reciprocal.
   + rewrite filter_cons_False by done. rewrite filter_nil. unfold sum_of; simpl.
      repeat case_bool_decide; try (exfalso; tauto); try ring.
Qed.

(** ** [is_chapter_directory] *)









(** ** [compress_directory] *)

Lemma bind_returns {S A B} (m : M S A) (k : A → M S B) s b s' :
  (m ≫= k) s = (Returns b, s') →
  ∃ a s1, m s = (Returns a, s1) ∧ k a s1 = (Returns b, s').
Proof.
  unfold mbind, M_bind, bind. destruct (m s) as [[a|e] s1]; [eauto|done].
Qed.

Lemma ends_completed_bind {A} (m : M CdState A) (k : A → M CdState unit) :
  (∀ a, ends_completed (k a)) → ends_completed (m ≫= k).
Proof.
  intros Hk s s' (a & s1 & _ & Hr)%bind_returns. by eapply Hk.
Qed.

Lemma compress_try_ends_completed w : ends_completed (compress_try w).
Proof.
  unfold compress_try.
  apply ends_completed_bind; intros task.
  destruct (count_images_in_directory w (source_path task)) as [n size].
  repeat (apply ends_completed_bind; intros ?).
  intros s s'. unfold modify. by intros [= <-].
Qed.

Lemma compress_directory_unfold w t0 t1 task :
  compress_directory w t0 t1 task =
    match compress_try w (MkCd (compress_begin t0 task) [] ∅ []) with
    | (Returns _, s) =>
        (Returns (set_end_time t1 (cd_task s)), on_task (set_end_time t1) s)
    | (Raises e, s) =>
        let s := on_task (set_error e) (on_task (set_status Failed) s) in
        (Returns (set_end_time t1 (cd_task s)), on_task (set_end_time t1) s)
    end.
Proof.
  unfold compress_directory, compress_rest, the_task, try_except, compress_except.
  unfold mbind, M_bind, bind, modify, get, mret, M_ret, ret.
  change (on_task (compress_begin t0) (MkCd task [] ∅ []))
    with (MkCd (compress_begin t0 task) [] ∅ []).
  by destruct (compress_try w _) as [[[]|e] s].
Qed.

(** C7: [compress_directory] always returns, and returns the task object
    it worked on, with [end_time] set. When the [try] block raises [e] the
    task is failed and [e] is stored in [error]; when it does not the task
    is completed. *)
Theorem compress_directory_contains_exceptions
    (w : World) (t0 t1 : Q) (task : CompressionTask) :
  ∃ result,
    (compress_directory w t0 t1 task).1 = Returns result ∧
    cd_task (compress_directory w t0 t1 task).2 = result ∧
    end_time result = Some t1 ∧
    match (compress_try w (MkCd (compress_begin t0 task) [] ∅ [])).1 with
    | Raises e => status result = Failed ∧ error result = Some e
    | Returns _ => status result = Completed
    end.
Proof.
  rewrite compress_directory_unfold.
  pose proof (compress_try_ends_completed w
                (MkCd (compress_begin t0 task) [] ∅ [])) as Hok.
  destruct (compress_try w (MkCd (compress_begin t0 task) [] ∅ []))
    as [[[]|e] s2] eqn:Htry; simpl.
  - eexists. repeat split; try done. simpl. by apply Hok.
  - eexists. repeat split; done.
Qed.

Example compress_directory_rename_fails :
  (λ r, (status <$> match r.1 with Returns t => Some t | Raises _ => None end,
         error (cd_task r.2), end_time (cd_task r.2),
         map_to_list (cd_archives r.2), cd_removed r.2))
    (compress_directory rename_fails 1 2 (new_task "Comics/A/1" "Comics/A/1.zip" true 8 false))
  = (Some Failed, Some (MkExc OSError "rename"), Some 2%Q,
     [("Comics/A/1.zip.temp", [MkZipEntry "001.jpg" 10])], []).
Proof. vm_compute. reflexivity. Qed.

(** ** [scan_for_comic_directories] *)

Lemma log_entries_app total p xs ys :
  log_entries total p (xs ++ ys) =
    log_entries total p xs ++ log_entries total (p + length xs) ys.
Proof.
  revert p. induction xs as [|x xs IH]; intros p; simpl.
  - by rewrite Nat.add_0_r.
  - rewrite IH. do 3 f_equal. lia.
Qed.

Lemma log_entries_messages total p paths :
  map snd (log_entries total p paths) = map (String.append scan_label) paths.
Proof. revert p. induction paths as [|x xs IH]; intros p; simpl; [done|]. by rewrite IH. Qed.

Lemma log_entries_fractions total p paths :
  map fst (log_entries total p paths) =
    map (λ j, py_div j total) (seq (p + 1) (length paths)).
Proof.
  revert p. induction paths as [|x xs IH]; intros p; simpl; [done|].
  rewrite IH. do 3 f_equal. lia.
Qed.

Lemma py_div_bounds (a b : nat) : (a ≤ b)%nat → (0 < b)%nat → (0 <= py_div a b <= 1)%Q.
Proof.
  intros Hab Hb. unfold py_div, Qle; simpl. rewrite pos_of_nat_Z by lia. lia.
Qed.

Lemma py_div_mono (a a' b : nat) : (a ≤ a')%nat → (py_div a b <= py_div a' b)%Q.
Proof. intros Haa. unfold py_div, Qle; simpl. nia. Qed.

Lemma fractions_sorted total a k :
  Sorted Qle (map (λ j, py_div j total) (seq a k)).
Proof.
  revert a. induction k as [|k IH]; intros a; simpl; [constructor|].
  constructor; [apply IH|].
  destruct k; simpl; constructor. apply py_div_mono. lia.
Qed.

Lemma is_chapter_directory_max_depth scandir self p :
  max_depth (is_chapter_directory scandir self p).2 = max_depth self.
Proof.
  unfold is_chapter_directory. repeat case_match; done.
Qed.

Section scan.
Variable scandir : string -> outcome (list DirEntry).
Variable total_dirs : nat.

Lemma guarded_app xs ys : guarded total_dirs (xs ++ ys) = guarded total_dirs xs ++ guarded total_dirs ys.
Proof. unfold guarded. by case_bool_decide. Qed.

Lemma handled_nil st : handled total_dirs [] st (st, None).
Proof.
  exists 0. simpl. unfold guarded. rewrite Nat.add_0_r.
  repeat split; try done. case_bool_decide; by rewrite app_nil_r.
Qed.

Lemma handled_app xs ys st r1 r2 :
  handled total_dirs xs st r1 → r1.2 = None → handled total_dirs ys r1.1 r2 → handled total_dirs (xs ++ ys) st r2.
Proof.
  intros (k1 & Hk1 & Hall1 & Hp1 & Hl1 & Hd1) Hn (k2 & Hk2 & Hall2 & Hp2 & Hl2 & Hd2).
  specialize (Hall1 Hn). subst k1.
  exists (length xs + k2). rewrite length_app.
  repeat split.
  - lia.
  - intros Hr. rewrite (Hall2 Hr). lia.
  - lia.
  - rewrite Hl2, Hl1, Hp1. rewrite firstn_all in *.
    rewrite take_app_add'; [|done]. rewrite log_entries_app, guarded_app.
    by rewrite app_assoc.
  - congruence.
Qed.

Lemma handled_stop xs ys st r :
  handled total_dirs xs st r → is_Some r.2 → handled total_dirs (xs ++ ys) st r.
Proof.
  intros (k & Hk & Hall & Hp & Hl & Hd) [e He].
  exists k. rewrite length_app. repeat split; try done.
  - lia.
  - rewrite He. done.
  - rewrite take_app_le by done. done.
Qed.

Lemma scan_dir_handled root dir_name st :
  handled total_dirs [path_join root dir_name] st
    (scan_dir scandir true total_dirs root dir_name st).
Proof.
  exists 1. unfold scan_dir. simpl.
  pose proof (is_chapter_directory_max_depth scandir (scan_self st)
                (path_join root dir_name)) as Hd.
  destruct (is_chapter_directory scandir (scan_self st) (path_join root dir_name))
    as [[is_chapter|e] self'] eqn:Hc; simpl in *;
    repeat split; try done; try lia; unfold guarded;
    (case_bool_decide; [done|by rewrite app_nil_r]).
Qed.

Lemma scan_dirs_handled root dirs st :
  handled total_dirs (map (path_join root) dirs) st
    (scan_dirs scandir true total_dirs root dirs st).
Proof.
  revert st. induction dirs as [|d rest IH]; intros st; simpl.
  - apply handled_nil.
  - pose proof (scan_dir_handled root d st) as H1.
    destruct (scan_dir scandir true total_dirs root d st) as [st' [e|]] eqn:Hd.
    + by apply (handled_stop [_]).
    + by apply (handled_app [_] _ st (st', None)).
Qed.

Lemma scan_walk_handled self root_path walk st :
  max_depth (scan_self st) = max_depth self →
  handled total_dirs (visited_dirs self root_path walk) st
    (scan_walk scandir true total_dirs root_path walk st).
Proof.
  revert st. induction walk as [|[[root dirs] files] rest IH]; intros st Hst; simpl.
  - apply handled_nil.
  - assert (depth_reached (scan_self st) root_path root = depth_reached self root_path root)
      as -> by (unfold depth_reached; by rewrite Hst).
    destruct (depth_reached self root_path root); simpl.
    + by apply IH.
    + pose proof (scan_dirs_handled root (filter (λ d, d ∉ excluded_dirs) dirs) st) as H1.
      destruct (scan_dirs _ _ _ _ _ st) as [st' [e|]] eqn:Hd.
      * by apply handled_stop.
      * eapply handled_app; [exact H1|done|].
        apply IH. destruct H1 as (?&?&?&?&?&Hm). simpl in Hm. congruence.
Qed.
End scan.

Lemma count_total_dirs_from (walk : list walk_item) (n : nat) :
  foldl (λ total_dirs '(_, dirs, _), total_dirs + length dirs) n walk =
    n + count_total_dirs walk.
Proof.
  unfold count_total_dirs. revert n.
  induction walk as [|[[root dirs] files] rest IH]; intros n; simpl; [lia|].
  rewrite (IH (n + length dirs)), (IH (length dirs)). lia.
Qed.

Lemma visited_dirs_counted self root_path walk :
  (length (visited_dirs self root_path walk) ≤ count_total_dirs walk)%nat.
Proof.
  induction walk as [|[[root dirs] files] rest IH]; simpl; [done|].
  unfold count_total_dirs in *. simpl. rewrite count_total_dirs_from.
  rewrite length_app. unfold count_total_dirs.
  destruct (depth_reached self root_path root); simpl; [lia|].
  rewrite length_map. pose proof (length_filter (λ d, d ∉ excluded_dirs) dirs). lia.
Qed.

(** C8: in a scan with a callback, the calls are those for the first
    [processed_dirs] directories of the second loop, in order, all of them
    when no exception stopped the scan: call number [j] gets
    [j / total_dirs] and the label followed by the path. The directories the
    second loop visits are at most [total_dirs], so every fraction is
    between 0 and 1, and the fractions do not decrease. *)
Theorem scan_progress_fractions
    (fs : FsTree) (scandir : string -> outcome (list DirEntry))
    (self : Scanner) (root_path : string) :
  let walk := os_walk (scan_edit self root_path) root_path fs in
  let total_dirs := count_total_dirs walk in
  let visited := visited_dirs self root_path walk in
  let r := scan_for_comic_directories fs scandir self root_path true in
  let log := progress_log r.1 in
  (length visited ≤ total_dirs)%nat ∧
  (processed_dirs r.1 ≤ length visited)%nat ∧
  (r.2 = None → processed_dirs r.1 = length visited) ∧
  map snd log = map (String.append scan_label) (take (processed_dirs r.1) visited) ∧
  map fst log = map (λ j, py_div j total_dirs) (seq 1 (processed_dirs r.1)) ∧
  Forall (λ q, 0 <= q <= 1)%Q (map fst log) ∧
  Sorted Qle (map fst log).
Proof.
  intros walk total_dirs visited r log.
  pose proof (visited_dirs_counted self root_path walk) as Hcount.
  fold visited total_dirs in Hcount.
  destruct (scan_walk_handled scandir total_dirs self root_path walk
              (MkScanState self 0 [] []) eq_refl)
    as (k & Hk & Hall & Hp & Hl & _).
  fold visited in Hk, Hall, Hl.
  change (scan_walk _ _ _ _ _ _) with r in Hall, Hp, Hl.
  simpl in Hp, Hl. fold log in Hl. rewrite Hp.
  assert (log = log_entries total_dirs 0 (take k visited)) as Hlog.
  { rewrite Hl. unfold guarded. case_bool_decide as Ht; [done|].
    assert (k = 0) as -> by lia. by rewrite take_0. }
  assert (map fst log = map (λ j, py_div j total_dirs) (seq 1 k)) as Hfst.
  { rewrite Hlog, log_entries_fractions. simpl. rewrite length_take. do 2 f_equal. lia. }
  repeat split; try done.
  - by rewrite Hlog, log_entries_messages.
  - rewrite Hfst. apply Forall_forall. intros q (j & -> & Hj%elem_of_seq)%list_elem_of_fmap.
    apply py_div_bounds; lia.
  - rewrite Hfst. apply fractions_sorted.
Qed.

(** ** The archive written by [compress_directory] *)

Lemma mret_returns {S A} (a b : A) (s s' : S) :
  (mret a : M S A) s = (Returns b, s') → b = a ∧ s' = s.
Proof. unfold mret, M_ret, ret. by intros [= <- <-]. Qed.

Lemma modify_returns {S} (f : S → S) u s s' :
  modify f s = (Returns u, s') → s' = f s.
Proof. unfold modify. by intros [= <-]. Qed.

Lemma call_returns {S A} (r : outcome A) (a : A) (s s' : S) :
  call r s = (Returns a, s') → r = Returns a ∧ s' = s.
Proof. unfold call. by intros [= -> <-]. Qed.

Lemma attempt_returns {S} (o : option Exc) u (s s' : S) :
  attempt o s = (Returns u, s') → o = None ∧ s' = s.
Proof. unfold attempt. destruct o; [done|]. unfold ret. by intros [= <-]. Qed.

Lemma with_exit_returns {S A} (body : M S A) (exit : M S unit) a s s' :
  with_exit body exit s = (Returns a, s') →
  ∃ s1 u, body s = (Returns a, s1) ∧ exit s1 = (Returns u, s').
Proof.
  unfold with_exit. destruct (body s) as [[b|e] s1].
  - destruct (exit s1) as [[u|e] s2] eqn:He; [|done]. intros [= <- <-]. eauto.
  - by destruct (exit s1) as [[u|e'] s2].
Qed.

Lemma for_each_app {S A} (xs ys : list A) (f : A → M S unit) s :
  for_each (xs ++ ys) f s = (for_each xs f;; for_each ys f) s.
Proof.
  revert s. induction xs as [|x xs IH]; intros s; simpl.
  - done.
  - unfold mbind, M_bind, bind in *. destruct (f x s) as [[[]|e] s1]; [|done]. apply IH.
Qed.

Lemma for_each_images {S} (body : string → string → M S unit) walk s :
  for_each walk (λ '(root, _, files),
    for_each files (λ file,
      if is_image_file file then body (path_join root file) file else mret tt)) s
  = for_each (image_files walk) (λ '(file_path, file), body file_path file) s.
Proof.
  revert s. induction walk as [|[[root dirs] files] rest IH]; intros s; simpl; [done|].
  rewrite for_each_app. unfold mbind, M_bind, bind.
  assert (∀ s, for_each files (λ file,
             if is_image_file file then body (path_join root file) file else mret tt) s
           = for_each (map (λ file, (path_join root file, file))
                           (filter (λ file, is_image_file file) files))
               (λ '(file_path, file), body file_path file) s) as ->.
  { clear. induction files as [|file files IH]; intros s; simpl; [done|].
    rewrite filter_cons. destruct (is_image_file file) eqn:Hi; simpl.
    - unfold mbind, M_bind, bind. destruct (body _ _ s) as [[[]|e] s1]; [|done]. apply IH.
    - apply IH. }
  destruct (for_each _ _ s) as [[[]|e] s1]; [|done]. apply IH.
Qed.

Lemma zip_loop_returns w (images : list (string * string)) s s' :
  for_each images (λ '(file_path, file), zipf_write w file_path file) s = (Returns tt, s') →
  ∃ sizes,
    Forall2 (λ '(file_path, _) size, w_getsize w file_path = Returns size) images sizes ∧
    s' = MkCd (cd_task s) (cd_zipf s ++ entries_of images sizes) (cd_archives s) (cd_removed s).
Proof.
  revert s. induction images as [|[file_path file] rest IH]; intros s; simpl.
  - intros [_ ->]%mret_returns. exists []. split; [constructor|].
    destruct s; simpl. by rewrite app_nil_r.
  - intros (u & s1 & Hw & Hrest)%bind_returns.
    unfold zipf_write in Hw.
    apply bind_returns in Hw as (size & s2 & [Hsize ->]%call_returns & Hw).
    apply bind_returns in Hw as (u2 & s3 & [_ ->]%attempt_returns & ->%modify_returns).
    apply IH in Hrest as (sizes & Hall & ->). simpl.
    exists (size :: sizes). split; [by constructor|].
    simpl. by rewrite <- app_assoc.
Qed.

Lemma count_loop_returns w (images : list (string * string)) (sizes : list nat)
    (count total_size : nat) :
  Forall2 (λ '(file_path, _) size, w_getsize w file_path = Returns size) images sizes →
  for_each images (λ '(file_path, _),
      modify (λ '(count, total_size), (count + 1, total_size));;
      size ← call (w_getsize w file_path);
      modify (λ '(count, total_size), (count, total_size + size)))
    (count, total_size)
  = (Returns tt, (count + length images, total_size + sum_list sizes)).
Proof.
  intros Hall. revert count total_size.
  induction Hall as [|[file_path file] size images sizes Hsize _ IH];
    intros count total_size; simpl.
  - by rewrite !Nat.add_0_r.
  - unfold mbind, M_bind, bind, modify, call in *. rewrite Hsize. simpl.
    rewrite IH. f_equal. f_equal; lia.
Qed.

Lemma count_images_all w directory (sizes : list nat) :
  Forall2 (λ '(file_path, _) size, w_getsize w file_path = Returns size)
    (image_files (walk_of w directory)) sizes →
  count_images_in_directory w directory =
    (length (image_files (walk_of w directory)), sum_list sizes).
Proof.
  intros Hall. unfold count_images_in_directory, try_except, count_images_loop.
  rewrite (for_each_images (λ file_path file,
             modify (λ '(count, total_size), (count + 1, total_size));;
             size ← call (w_getsize w file_path);
             modify (λ '(count, total_size), (count, total_size + size)))).
  erewrite (count_loop_returns w _ sizes 0 0); [done|].
  eapply Forall2_impl; [exact Hall|]. by intros [].
Qed.

Lemma append_cons (c : ascii) (a b : string) : String c a +:+ b = String c (a +:+ b).
Proof. reflexivity. Qed.

Lemma length_append (a b : string) :
  String.length (a +:+ b) = String.length a + String.length b.
Proof. induction a as [|c a IH]; [done|]. rewrite append_cons. simpl. by rewrite IH. Qed.

Lemma drop_str_append (a b : string) : drop_str (String.length a) (a +:+ b) = b.
Proof.
  induction a as [|c a IH]; [by destruct b|]. rewrite append_cons. simpl. apply IH.
Qed.

Lemma append_assoc (a b c : string) : (a +:+ b) +:+ c = a +:+ (b +:+ c).
Proof. induction a as [|x a IH]; [done|]. rewrite !append_cons. by f_equal. Qed.

Lemma last_four_append (a b : string) : String.length b = 4 → last_four (a +:+ b) = b.
Proof.
  intros Hb. unfold last_four. rewrite length_append, Hb.
  replace (String.length a + 4 - 4) with (String.length a) by lia.
  apply drop_str_append.
Qed.

Lemma temp_path_last_four (p : string) : last_four (p +:+ ".temp") = "temp".
Proof.
  change ".temp" with ("." +:+ "temp"). rewrite <- append_assoc.
  by apply last_four_append.
Qed.

Lemma temp_path_fresh (p : string) : p +:+ ".temp" ≠ p.
Proof.
  intros H%(f_equal String.length). rewrite length_append in H. simpl in H. lia.
Qed.

Lemma chapter_path_last_four (d number : string) :
  last_four (path_join d (chapter_name number)) = ".zip".
Proof.
  unfold path_join, chapter_name. simpl starts_with_sep. cbv iota.
  destruct (_ || _).
  - rewrite <- !append_assoc. by apply last_four_append.
  - rewrite <- !append_assoc. by apply last_four_append.
Qed.

Lemma temp_is_not_final (w : World) (task : CompressionTask) :
  target_path task +:+ ".temp" ≠ final_target_path w task.
Proof.
  unfold final_target_path.
  destruct (rename_pattern task); [|apply temp_path_fresh].
  destruct (number_only_match _) as [number|]; [|apply temp_path_fresh].
  intros H%(f_equal last_four).
  by rewrite temp_path_last_four, chapter_path_last_four in H.
Qed.

Lemma entries_of_spec (images : list (string * string)) (sizes : list nat) :
  length images = length sizes →
  length (entries_of images sizes) = length images ∧
  map arcname (entries_of images sizes) = images.*2 ∧
  map file_size (entries_of images sizes) = sizes.
Proof.
  unfold entries_of. revert sizes.
  induction images as [|[file_path file] images IH]; intros [|size sizes] Hlen;
    simplify_eq/=; [done|].
  destruct (IH sizes) as (-> & -> & ->); done.
Qed.

Lemma the_task_returns t s s' :
  the_task s = (Returns t, s') → t = cd_task s ∧ s' = s.
Proof. unfold the_task, mbind, M_bind, bind, get, mret, M_ret, ret. by intros [= <- <-]. Qed.

(** C6: when [compress_directory] completes a task, each image file below
    the source directory has a size, the archive at the task's final target
    path holds one entry per image file, in order, named by the file's base
    name and of the file's size, and the task records the number of files
    and the sum of their sizes. Two files of the same base name give two
    entries. *)
Theorem archive_round_trip (w : World) (t0 t1 : Q) (task : CompressionTask) :
  let r := compress_directory w t0 t1 task in
  let result := cd_task r.2 in
  let images := image_files (walk_of w (source_path task)) in
  status result = Completed →
  ∃ sizes entries,
    Forall2 (λ '(file_path, _) size, w_getsize w file_path = Returns size) images sizes ∧
    cd_archives r.2 !! target_path result = Some entries ∧
    length entries = length images ∧
    map arcname entries = images.*2 ∧
    map file_size entries = sizes ∧
    image_count result = length images ∧
    original_size result = sum_list sizes ∧
    length entries = image_count result ∧
    sum_list (map file_size entries) = original_size result.
Proof.
  intros r result images. subst r result.
  rewrite compress_directory_unfold.
  destruct (compress_try w (MkCd (compress_begin t0 task) [] ∅ []))
    as [[[]|e] s'] eqn:Htry; simpl; [|done].
  intros _. unfold compress_try in Htry.
  apply bind_returns in Htry as (task0 & s1 & [-> ->]%the_task_returns & Htry).
  cbn [cd_task] in Htry.
  change (source_path (compress_begin t0 task)) with (source_path task) in Htry.
  change (target_path (compress_begin t0 task)) with (target_path task) in Htry.
  change (final_target_path w (compress_begin t0 task)) with (final_target_path w task) in Htry.
  change (preserve_timestamp (compress_begin t0 task)) with (preserve_timestamp task) in Htry.
  fold images in Htry.
  destruct (count_images_in_directory w (source_path task)) as [n size] eqn:Hcount.
  cbv zeta in Htry.
  apply bind_returns in Htry as (u1 & s1 & ->%modify_returns & Htry).
  apply bind_returns in Htry as (src_mtime & s2 & [_ ->]%call_returns & Htry).
  apply bind_returns in Htry as (u3 & s3 & Hopen & Htry).
  unfold zipf_open in Hopen.
  apply bind_returns in Hopen as (u4 & s4 & [_ ->]%attempt_returns & ->%modify_returns).
  apply bind_returns in Htry as (u5 & s5 & Hwith & Htry).
  apply with_exit_returns in Hwith as (s6 & u6 & Hloop & Hclose).
  rewrite (for_each_images (zipf_write w)) in Hloop.
  destruct u5. apply zip_loop_returns in Hloop as (sizes & Hsizes & ->).
  unfold zipf_close in Hclose.
  apply bind_returns in Hclose as (u7 & s7 & [_ ->]%attempt_returns & ->%modify_returns).
  cbn [cd_task cd_zipf cd_archives cd_removed on_task app] in Htry.
  apply bind_returns in Htry as (u8 & s8 & Hremove & Htry).
  apply bind_returns in Htry as (u9 & s9 & Hrename & Htry).
  unfold os_rename in Hrename.
  apply bind_returns in Hrename as (u10 & s10 & [_ ->]%attempt_returns & ->%modify_returns).
  apply bind_returns in Htry as (u11 & s11 & ->%modify_returns & Htry).
  apply bind_returns in Htry as (u12 & s12 & Hutime & Htry).
  apply bind_returns in Htry as (h & s13 & [_ ->]%call_returns & Htry).
  apply bind_returns in Htry as (u14 & s14 & ->%modify_returns & Htry).
  apply bind_returns in Htry as (csize & s15 & [_ ->]%call_returns & Htry).
  apply bind_returns in Htry as (u16 & s16 & ->%modify_returns & Htry).
  apply bind_returns in Htry as (u17 & s17 & Hrm & ->%modify_returns).
  unfold shutil_rmtree in Hrm.
  apply bind_returns in Hrm as (u18 & s18 & [_ ->]%attempt_returns & ->%modify_returns).
  assert (cd_task s8 = set_counts n size (compress_begin t0 task) ∧
          cd_archives s8 !! (target_path task +:+ ".temp") =
            Some (entries_of images sizes)) as [Ht8 Ha8].
  { destruct (w_exists w (final_target_path w task)).
    - unfold os_remove in Hremove.
      apply bind_returns in Hremove as (? & ? & [_ ->]%attempt_returns & ->%modify_returns).
      split; [done|]. cbn [cd_archives].
      rewrite lookup_delete_ne by (intros Heq; by apply (temp_is_not_final w task)).
      by rewrite lookup_insert_eq.
    - apply mret_returns in Hremove as [_ ->]. split; [done|].
      cbn [cd_archives]. by rewrite lookup_insert_eq. }
  rewrite Ha8 in Hutime.
  assert (s12 = on_task (set_target_path (final_target_path w task))
            (MkCd (cd_task s8) (cd_zipf s8)
               (<[final_target_path w task := entries_of images sizes]>
                  (delete (target_path task +:+ ".temp") (cd_archives s8)))
               (cd_removed s8))) as ->.
  { destruct (preserve_timestamp task).
    - by apply attempt_returns in Hutime as [_ ->].
    - by apply mret_returns in Hutime as [_ ->]. }
  cbn [cd_task cd_zipf cd_archives cd_removed on_task]. rewrite Ht8.
  exists sizes, (entries_of images sizes).
  pose proof (count_images_all w (source_path task) sizes Hsizes) as Hn.
  rewrite Hcount in Hn. injection Hn as -> ->.
  destruct (entries_of_spec images sizes (Forall2_length _ _ _ Hsizes)) as (Hlen & ? & Hfs).
  repeat split; try done.
  - simpl. by rewrite lookup_insert_eq.
  - by rewrite Hfs.
Qed.

Example archive_keeps_duplicate_names :
  (λ r, (status (cd_task r.2), image_count (cd_task r.2), original_size (cd_task r.2),
         cd_archives r.2 !! target_path (cd_task r.2)))
    (compress_directory nested_world 1 2
       (new_task "Comics/A/1" "Comics/A/1.zip" true 8 false))
  = (Completed, 3, 66,
     Some [MkZipEntry "001.jpg" 18; MkZipEntry "001.jpg" 24; MkZipEntry "002.PNG" 24]).
Proof. vm_compute. reflexivity. Qed.

(** C6 at a chapter with two images of the same base name. *)
Lemma archive_round_trip_witness :
  let task := new_task "Comics/A/1" "Comics/A/1.zip" true 8 false in
  let r := compress_directory nested_world 1 2 task in
  let result := cd_task r.2 in
  let images := image_files (walk_of nested_world (source_path task)) in
  ∃ sizes entries,
    Forall2 (λ '(file_path, _) size, w_getsize nested_world file_path = Returns size)
      images sizes ∧
    cd_archives r.2 !! target_path result = Some entries ∧
    length entries = length images ∧
    map arcname entries = images.*2 ∧
    map file_size entries = sizes ∧
    image_count result = length images ∧
    original_size result = sum_list sizes ∧
    length entries = image_count result ∧
    sum_list (map file_size entries) = original_size result.
Proof.
  apply (archive_round_trip nested_world 1 2
           (new_task "Comics/A/1" "Comics/A/1.zip" true 8 false)).
  vm_compute. reflexivity.
Defined.

(** ** What [pause] changes *)

Lemma filter_ext_in {A} (P1 P2 : A → Prop)
    `{!∀ x, Decision (P1 x), !∀ x, Decision (P2 x)} (l : list A) :
  (∀ x, x ∈ l → (P1 x ↔ P2 x)) → filter P1 l = filter P2 l.
Proof.
  induction l as [|x l IH]; intros Hiff; [done|].
  rewrite !filter_cons, IH by (intros y Hy; apply Hiff; by right).
  destruct (decide (P1 x)) as [Hp|Hp].
  - rewrite decide_True; [done|]. apply Hiff; [by left|done].
  - rewrite decide_False; [done|]. intros Hq. apply Hp, Hiff; [by left|done].
Qed.

Lemma shutdown_fold_count e ids m :
  NoDup ids →
  completed_tasks (foldl (shutdown_body e) m ids) =
    completed_tasks m + length (filter (λ f, is_queued e (pool_futures m) f) ids).
Proof.
  revert m. induction ids as [|f ids IH]; intros m Hnd; simpl; [lia|].
  inversion Hnd as [|?? Hf Hnd']; subst.
  rewrite IH by done.
  assert (filter (λ g, is_queued e (pool_futures (shutdown_body e m f)) g) ids =
          filter (λ g, is_queued e (pool_futures m) g) ids) as ->.
  { apply filter_ext_in. intros g Hg. unfold is_queued.
    rewrite shutdown_body_pool_futures, list_lookup_alter.
    rewrite decide_False; [done|]. by intros ->. }
  unfold shutdown_body at 1. rewrite filter_cons.
  destruct (is_queued e (pool_futures m) f) eqn:Hq; simpl.
  - unfold future_cancel. rewrite task_completed_counter. simpl. lia.
  - lia.
Qed.

(** [pause()] touches the flag, the executor, the queued futures and,
    through their callbacks, the counter: it adds one for each future it
    finds in the queue. *)
Lemma pause_frame (m : Manager) :
  max_workers (pause m) = max_workers m ∧ update_callback (pause m) = update_callback m ∧
  tasks (pause m) = tasks m ∧ total_tasks (pause m) = total_tasks m ∧
  running (pause m) = running m ∧ futures (pause m) = futures m ∧
  paused (pause m) = true ∧ executor (pause m) = None ∧
  completed_tasks (pause m) = completed_tasks m + length (queued_futures m).
Proof.
  unfold pause.
  destruct (drop_executor_frame (with_paused true m)) as (?&?&?&?&?&?&?&?&?).
  repeat split; try done.
  unfold drop_executor, queued_futures. simpl.
  destruct (executor m) as [e|]; simpl; [|lia].
  unfold executor_shutdown.
  change (foldl _ ?m0 ?l) with (foldl (shutdown_body e) m0 l).
  by rewrite shutdown_fold_count by apply NoDup_seq.
Qed.

(** After [pause()] on a running pool, [start()] does nothing. *)
Lemma start_after_pause (m : Manager) : running m = true → start (pause m) = pause m.
Proof.
  intros Hr. unfold start.
  destruct (pause_frame m) as (_ & _ & _ & _ & -> & _). by rewrite Hr.
Qed.

(** The callback of a finished future adds exactly one. *)
Lemma worker_done_counts_once (f : nat) (m m' : Manager) :
  worker_done f m = Some m' → completed_tasks m' = completed_tasks m + 1.
Proof.
  unfold worker_done. destruct (pool_futures m !! f) as [fu|]; [|done]. simpl.
  case_bool_decide; [|done]. intros [= <-]. by rewrite task_completed_counter.
Qed.

(** ** The status of a task along a run *)

Lemma compress_rest_unfold w now s :
  compress_rest w now s =
    match compress_try w s with
    | (Returns _, s') =>
        (Returns (set_end_time now (cd_task s')), on_task (set_end_time now) s')
    | (Raises e, s') =>
        let s' := on_task (set_error e) (on_task (set_status Failed) s') in
        (Returns (set_end_time now (cd_task s')), on_task (set_end_time now) s')
    end.
Proof.
  unfold compress_rest, the_task, try_except, compress_except.
  unfold mbind, M_bind, bind, modify, get, mret, M_ret, ret.
  by destruct (compress_try w s) as [[[]|e] s'].
Qed.

Lemma compress_rest_status w now s :
  status (cd_task (compress_rest w now s).2) = Completed ∨
  status (cd_task (compress_rest w now s).2) = Failed.
Proof.
  rewrite compress_rest_unfold.
  pose proof (compress_try_ends_completed w s) as Hok.
  destruct (compress_try w s) as [[[]|e] s'] eqn:Htry; simpl.
  - left. by apply Hok.
  - by right.
Qed.

Lemma status_edge_refl s : status_edge s s = true.
Proof. by destruct s. Qed.

Lemma elem_of_pending_indices ts i :
  i ∈ pending_indices ts ↔ ∃ t, ts !! i = Some t ∧ status t = Pending.
Proof.
  unfold pending_indices, is_pending. split.
  - intros [Hp _]%list_elem_of_filter. destruct (ts !! i) as [t|]; [|done].
    exists t. split; [done|]. by apply bool_decide_unpack in Hp.
  - intros (t & Hi & Hs). apply list_elem_of_filter. rewrite Hi. split.
    + by apply bool_decide_pack.
    + apply elem_of_seq. apply lookup_lt_Some in Hi. lia.
Qed.

Lemma pending_indices_NoDup ts : NoDup (pending_indices ts).
Proof. apply NoDup_filter, NoDup_seq. Qed.

Lemma task_completed_flags f m :
  paused (task_completed f m) = paused m ∧ running (task_completed f m) = running m ∧
  tasks (task_completed f m) = tasks m ∧ total_tasks (task_completed f m) = total_tasks m.
Proof.
  destruct (task_completed_frame f m) as (_ & _ & Ht & Htot & Hr & Hp & _). done.
Qed.

Lemma start_tasks m : tasks (start m) = tasks m.
Proof.
  destruct (running m) eqn:Hr; [unfold start; by rewrite Hr|].
  rewrite (start_idle m Hr). cbv zeta. case_bool_decide; [done|].
  match goal with |- tasks (submit_pending ?e ?m0) = _ =>
    pose proof (submit_pending_spec e m0) as Hs end.
  cbv zeta in Hs. by destruct Hs as (_ & _ & -> & _).
Qed.

Lemma resume_tasks m : tasks (resume m) = tasks m.
Proof.
  unfold resume. destruct (paused m); simpl; [|done].
  match goal with |- tasks (submit_pending ?e ?m0) = _ =>
    pose proof (submit_pending_spec e m0) as Hs end.
  cbv zeta in Hs. by destruct Hs as (_ & _ & -> & _).
Qed.

Lemma pause_tasks m : tasks (pause m) = tasks m.
Proof.
  unfold pause. by destruct (drop_executor_frame (with_paused true m)) as (_ & _ & -> & _).
Qed.

Lemma cancel_tasks m : tasks (cancel m) = map cancel_if_running (tasks m).
Proof.
  unfold cancel. simpl.
  by destruct (drop_executor_frame (with_running false m)) as (_ & _ & -> & _).
Qed.

(** What [start()] and [resume()] do to the futures: those there are kept
    and pending futures are added. *)
Lemma start_pool_futures m :
  ∃ new, pool_futures (start m) = pool_futures m ++ new ∧
         Forall (λ fu, fut_state fu = FPending) new.
Proof.
  destruct (running m) eqn:Hr.
  { exists []. unfold start. rewrite Hr, app_nil_r. done. }
  rewrite (start_idle m Hr). cbv zeta. case_bool_decide.
  { exists []. simpl. by rewrite app_nil_r. }
  match goal with |- context [submit_pending ?e ?m0] =>
    pose proof (submit_pending_spec e m0) as Hs end.
  cbv zeta in Hs. destruct Hs as (_ & _ & _ & _ & _ & _ & _ & _ & _ & _ & -> & _).
  eexists. split; [done|]. apply Forall_forall. by intros fu (i & -> & _)%list_elem_of_fmap.
Qed.

Lemma resume_pool_futures m :
  ∃ new, pool_futures (resume m) = pool_futures m ++ new ∧
         Forall (λ fu, fut_state fu = FPending) new.
Proof.
  unfold resume. destruct (paused m); simpl.
  2:{ exists []. by rewrite app_nil_r. }
  match goal with |- context [submit_pending ?e ?m0] =>
    pose proof (submit_pending_spec e m0) as Hs end.
  cbv zeta in Hs. destruct Hs as (_ & _ & _ & _ & _ & _ & _ & _ & _ & _ & -> & _).
  eexists. split; [done|]. apply Forall_forall. by intros fu (i & -> & _)%list_elem_of_fmap.
Qed.

Lemma cancel_queued_state e fu :
  fut_state fu ≠ FPending → cancel_queued e fu = fu.
Proof.
  intros Hp. unfold cancel_queued. by rewrite bool_decide_eq_false_2.
Qed.

Lemma cancel_queued_cancels e fu :
  cancel_queued e fu = fu ∨
  (fut_state fu = FPending ∧ fut_state (cancel_queued e fu) = FCancelled).
Proof.
  unfold cancel_queued.
  destruct (bool_decide (fut_state fu = FPending)) eqn:Hp; [|by left].
  apply bool_decide_eq_true_1 in Hp. destruct (bool_decide _); [by right|by left].
Qed.

(** What [pause()] and [cancel()] do to the futures: those in the queue of
    the executor are cancelled, the others are kept. *)
Lemma drop_executor_lookup m f :
  pool_futures (drop_executor m) !! f =
    match executor m with
    | Some e => cancel_queued e <$> pool_futures m !! f
    | None => pool_futures m !! f
    end.
Proof.
  rewrite drop_executor_pool_futures. destruct (executor m); [|done].
  by rewrite list_lookup_fmap.
Qed.

Lemma drop_executor_keeps m f fu :
  pool_futures m !! f = Some fu → fut_state fu ≠ FPending →
  pool_futures (drop_executor m) !! f = Some fu.
Proof.
  intros Hf Hp. rewrite drop_executor_lookup, Hf. destruct (executor m); [|done].
  simpl. by rewrite cancel_queued_state.
Qed.

Lemma drop_executor_kept m f fu' :
  pool_futures (drop_executor m) !! f = Some fu' → fut_state fu' ≠ FCancelled →
  pool_futures m !! f = Some fu'.
Proof.
  rewrite drop_executor_lookup. destruct (executor m) as [e|]; [|done].
  destruct (pool_futures m !! f) as [fu|]; [|done]. simpl. intros [= <-] Hc.
  destruct (cancel_queued_cancels e fu) as [->|[_ ?]]; done.
Qed.

Lemma filter_none {A} (P : A → Prop) `{!∀ x, Decision (P x)} (l : list A) :
  (∀ x, x ∈ l → ¬ P x) → filter P l = [].
Proof.
  induction l as [|a l IH]; intros Hl; [done|].
  rewrite filter_cons, decide_False by (apply Hl; by left).
  apply IH. intros x Hx. apply Hl. by right.
Qed.

Lemma filter_length_one {A} (P : A → Prop) `{!∀ x, Decision (P x)} (l : list A) f x :
  l !! f = Some x → P x → 1 ≤ length (filter P l).
Proof.
  revert f. induction l as [|a l IH]; intros [|f] Hf Hx; simplify_eq/=.
  - rewrite filter_cons, decide_True by done. simpl. lia.
  - rewrite filter_cons. specialize (IH f Hf Hx). destruct (decide (P a)); simpl; lia.
Qed.

Lemma filter_length_two {A} (P : A → Prop) `{!∀ x, Decision (P x)} (l : list A) f g x y :
  l !! f = Some x → l !! g = Some y → f ≠ g → P x → P y → 2 ≤ length (filter P l).
Proof.
  revert f g. induction l as [|a l IH]; intros [|f] [|g] Hf Hg Hne Hx Hy; simplify_eq/=.
  - rewrite filter_cons, decide_True by done. simpl.
    pose proof (filter_length_one P l g y Hg Hy). lia.
  - rewrite filter_cons, decide_True by done. simpl.
    pose proof (filter_length_one P l f x Hf Hx). lia.
  - rewrite filter_cons. assert (f ≠ g) as Hne' by congruence.
    specialize (IH f g Hf Hg Hne' Hx Hy). destruct (decide (P a)); simpl; lia.
Qed.


Lemma begun_dequeued fu : begun fu → dequeued fu.
Proof. unfold begun, dequeued. tauto. Qed.

Lemma returned_begun fu : returned fu → begun fu.
Proof. unfold returned, begun. tauto. Qed.

Lemma new_manager_track workers callback : track_inv (new_manager workers callback).
Proof. split; simpl; intros *; by rewrite ?lookup_nil. Qed.

(** A step that neither starts nor ends a call of [compress_directory]:
    the statuses stay or go from running to cancelled, new tasks are
    pending, the futures keep their tasks and what they have done, and no
    future becomes running. *)
Lemma track_inv_transfer m m' :
  (∀ i t', tasks m' !! i = Some t' →
     status t' = Pending ∨
     ∃ t, tasks m !! i = Some t ∧
          (status t' = status t ∨ (status t = Running ∧ status t' = Cancelled))) →
  (∀ i t, tasks m !! i = Some t →
     ∃ t', tasks m' !! i = Some t' ∧
           (status t' = status t ∨ (status t = Running ∧ status t' = Cancelled))) →
  (∀ f fu, pool_futures m !! f = Some fu → begun fu →
     ∃ fu', pool_futures m' !! f = Some fu' ∧ fut_task fu' = fut_task fu ∧
            begun fu' ∧ (returned fu → returned fu')) →
  (∀ f fu', pool_futures m' !! f = Some fu' → fut_state fu' = FRunning →
     pool_futures m !! f = Some fu') →
  track_inv m → track_inv m'.
Proof.
  intros Hnew Hold Hfut Hrun [Hb Hr Hd]. split.
  - intros i t' Hi Hs. destruct (Hnew i t' Hi) as [?|(t & Ht & Hst)]; [done|].
    destruct (Hb i t Ht) as (f & fu & Hf & Hfi & Hfb).
    { destruct Hst as [<-|[-> _]]; done. }
    destruct (Hfut f fu Hf Hfb) as (fu' & Hf' & Hft & Hfb' & _).
    exists f, fu'. split; [done|]. split; [congruence|done].
  - intros f fu' Hf' Hfr. pose proof (Hrun f fu' Hf' Hfr) as Hf.
    destruct (Hr f fu' Hf Hfr) as (t & Ht & Hs).
    destruct (Hold _ t Ht) as (t' & Ht' & Hst). exists t'. split; [done|].
    destruct Hst as [->|[_ ->]]; done.
  - intros i t' Hi Hs. destruct (Hnew i t' Hi) as [Hp|(t & Ht & Hst)].
    { rewrite Hp in Hs. by destruct Hs. }
    destruct (Hd i t Ht) as (f & fu & Hf & Hfi & Hfr).
    { destruct Hst as [<-|[_ Hc]]; [done|]. rewrite Hc in Hs. by destruct Hs. }
    destruct (Hfut f fu Hf (returned_begun fu Hfr)) as (fu' & Hf' & Hft & _ & Hfr').
    exists f, fu'. split; [done|]. split; [congruence|by apply Hfr'].
Qed.

Lemma track_inv_same_tasks m m' :
  tasks m' = tasks m →
  (∀ f fu, pool_futures m !! f = Some fu → begun fu →
     ∃ fu', pool_futures m' !! f = Some fu' ∧ fut_task fu' = fut_task fu ∧
            begun fu' ∧ (returned fu → returned fu')) →
  (∀ f fu', pool_futures m' !! f = Some fu' → fut_state fu' = FRunning →
     pool_futures m !! f = Some fu') →
  track_inv m → track_inv m'.
Proof.
  intros Ht. apply track_inv_transfer; rewrite Ht; eauto.
Qed.

Lemma app_pending_running (fs new : list Future) f fu :
  Forall (λ fu, fut_state fu = FPending) new →
  (fs ++ new) !! f = Some fu → fut_state fu = FRunning → fs !! f = Some fu.
Proof.
  intros Hnew [?|[_ Hf]]%lookup_app_Some Hr; [done|].
  rewrite Forall_forall in Hnew. apply list_elem_of_lookup_2, Hnew in Hf. congruence.
Qed.

Lemma step_track_inv l m m' : track_inv m → step l m = Some m' → track_inv m'.
Proof.
  intros Hinv Hstep. destruct l; simpl in Hstep.
  - (* add_task *)
    injection Hstep as <-. eapply (track_inv_transfer m); [| | | |exact Hinv]; simpl.
    + intros i t' [Hi|[_ Hi]]%lookup_app_Some; [right; eauto|left].
      apply list_lookup_singleton_Some in Hi as [_ <-]. done.
    + intros i t Hi. exists t. split; [|by left].
      apply lookup_app_l_Some. done.
    + eauto.
    + done.
  - (* start *)
    injection Hstep as <-. destruct (start_pool_futures m) as (new & Hpf & Hnew).
    eapply (track_inv_same_tasks m); [apply start_tasks| | |exact Hinv]; rewrite Hpf.
    + intros f fu Hf Hb. exists fu. split; [by apply lookup_app_l_Some|done].
    + intros f fu. by apply app_pending_running.
  - (* pause *)
    injection Hstep as <-.
    eapply (track_inv_same_tasks m); [apply pause_tasks| | |exact Hinv]; unfold pause.
    + intros f fu Hf Hb. exists fu. split; [|done].
      apply drop_executor_keeps; [done|]. by destruct Hb as [->|[->| ->]].
    + intros f fu Hf Hr. apply drop_executor_kept in Hf; [done|congruence].
  - (* resume *)
    injection Hstep as <-. destruct (resume_pool_futures m) as (new & Hpf & Hnew).
    eapply (track_inv_same_tasks m); [apply resume_tasks| | |exact Hinv]; rewrite Hpf.
    + intros f fu Hf Hb. exists fu. split; [by apply lookup_app_l_Some|done].
    + intros f fu. by apply app_pending_running.
  - (* cancel *)
    injection Hstep as <-.
    eapply (track_inv_transfer m); [| | | |exact Hinv]; rewrite ?cancel_tasks.
    + intros i t' (t & -> & Hi)%list_lookup_fmap_Some. right. exists t. split; [done|].
      unfold cancel_if_running. case_bool_decide; [by right|by left].
    + intros i t Hi. exists (cancel_if_running t).
      split; [by apply list_lookup_fmap_Some_2|].
      unfold cancel_if_running. case_bool_decide; [by right|by left].
    + intros f fu Hf Hb. exists fu. split; [|done]. unfold cancel. simpl.
      apply (drop_executor_keeps (with_running false m)); [done|].
      by destruct Hb as [->|[->| ->]].
    + intros f fu Hf Hr. unfold cancel in Hf. simpl in Hf.
      apply (drop_executor_kept (with_running false m)) in Hf; [done|congruence].
  - (* a worker takes a future *)
    unfold worker_take in Hstep.
    destruct (pool_futures m !! f) as [fu|] eqn:Hf; [|done]. simpl in Hstep.
    destruct (_ && _) eqn:Hguard; [|done].
    apply andb_prop in Hguard as [[Hfp%bool_decide_eq_true_1 _]%andb_prop _].
    injection Hstep as <-.
    eapply (track_inv_same_tasks m); [done| | |exact Hinv]; simpl.
    + intros g gu Hg Hb. exists gu. split; [|done].
      rewrite list_lookup_insert_ne; [done|]. intros ->. simplify_eq.
      by destruct Hb as [?|[?|?]]; congruence.
    + intros g gu [(-> & <- & _)|[_ Hg]]%list_lookup_insert_Some; done.
  - (* line 106 *)
    destruct Hinv as [Hb Hr Hd]. unfold worker_begin in Hstep.
    destruct (pool_futures m !! f) as [fu|] eqn:Hf; [|done]. simpl in Hstep.
    destruct (tasks m !! fut_task fu) as [t|] eqn:Ht; [|done]. simpl in Hstep.
    case_bool_decide as Hft; [|done]. injection Hstep as <-.
    assert (f < length (pool_futures m)) as Hlen by (by eapply lookup_lt_Some).
    assert (fut_task fu < length (tasks m)) as Hlent by (by eapply lookup_lt_Some).
    assert (∀ g gu, pool_futures m !! g = Some gu → begun gu →
              <[f:=set_fut_state FRunning fu]> (pool_futures m) !! g = Some gu) as Hkeep.
    { intros g gu Hg Hgb. rewrite list_lookup_insert_ne; [done|]. intros ->. simplify_eq.
      by destruct Hgb as [?|[?|?]]; congruence. }
    split; simpl.
    + intros i t' [(<- & <- & _)|[Hne Hi]]%list_lookup_insert_Some Hs.
      * exists f, (set_fut_state FRunning fu). split; [by apply list_lookup_insert_eq|].
        split; [done|by left].
      * destruct (Hb i t' Hi Hs) as (g & gu & Hg & Hgi & Hgb).
        exists g, gu. split; [by apply Hkeep|done].
    + intros g gu [(-> & <- & _)|[Hne Hg]]%list_lookup_insert_Some Hgr; simpl.
      * exists (compress_begin now t). split; [by apply list_lookup_insert_eq|done].
      * destruct (Hr g gu Hg Hgr) as (t' & Ht' & Hs).
        destruct (decide (fut_task gu = fut_task fu)) as [Heq|Hne'].
        -- rewrite Heq. exists (compress_begin now t).
           split; [by apply list_lookup_insert_eq|done].
        -- exists t'. split; [by rewrite list_lookup_insert_ne|done].
    + intros i t' [(<- & <- & _)|[Hne Hi]]%list_lookup_insert_Some Hs.
      * by destruct Hs.
      * destruct (Hd i t' Hi Hs) as (g & gu & Hg & Hgi & Hgr).
        exists g, gu. split; [|done]. apply Hkeep; [done|by apply returned_begun].
  - (* the worker returns *)
    destruct Hinv as [Hb Hr Hd]. unfold worker_finish in Hstep.
    destruct (pool_futures m !! f) as [fu|] eqn:Hf; [|done]. simpl in Hstep.
    destruct (tasks m !! fut_task fu) as [t|] eqn:Ht; [|done]. simpl in Hstep.
    case_bool_decide as Hfr; [|done]. injection Hstep as <-.
    assert (f < length (pool_futures m)) as Hlen by (by eapply lookup_lt_Some).
    assert (fut_task fu < length (tasks m)) as Hlent by (by eapply lookup_lt_Some).
    set (t1 := cd_task (compress_rest w now (MkCd t [] ∅ [])).2).
    assert (status t1 = Completed ∨ status t1 = Failed) as Hs1
      by apply compress_rest_status.
    assert (∀ g gu, pool_futures m !! g = Some gu → fut_task gu ≠ fut_task fu →
              <[f:=set_fut_state FReturned fu]> (pool_futures m) !! g = Some gu) as Hkeep.
    { intros g gu Hg Hne. rewrite list_lookup_insert_ne; [done|]. intros ->. by simplify_eq. }
    split; simpl.
    + intros i t' [(<- & <- & _)|[Hne Hi]]%list_lookup_insert_Some Hs.
      * exists f, (set_fut_state FReturned fu). split; [by apply list_lookup_insert_eq|].
        split; [done|by right; left].
      * destruct (Hb i t' Hi Hs) as (g & gu & Hg & Hgi & Hgb).
        exists g, gu. split; [|done]. apply Hkeep; [done|congruence].
    + intros g gu [(-> & <- & _)|[Hne Hg]]%list_lookup_insert_Some Hgr; [done|].
      destruct (Hr g gu Hg Hgr) as (t' & Ht' & Hs).
      destruct (decide (fut_task gu = fut_task fu)) as [Heq|Hne'].
      * rewrite Heq. exists t1. split; [by apply list_lookup_insert_eq|].
        by destruct Hs1 as [->| ->].
      * exists t'. split; [by rewrite list_lookup_insert_ne|done].
    + intros i t' [(<- & <- & _)|[Hne Hi]]%list_lookup_insert_Some Hs.
      * exists f, (set_fut_state FReturned fu). split; [by apply list_lookup_insert_eq|].
        split; [done|by left].
      * destruct (Hd i t' Hi Hs) as (g & gu & Hg & Hgi & Hgr).
        exists g, gu. split; [|done]. apply Hkeep; [done|congruence].
  - (* the result is set *)
    unfold worker_done in Hstep.
    destruct (pool_futures m !! f) as [fu|] eqn:Hf; [|done]. simpl in Hstep.
    case_bool_decide as Hfr; [|done]. injection Hstep as <-.
    assert (f < length (pool_futures m)) as Hlen by (by eapply lookup_lt_Some).
    match goal with |- track_inv (task_completed f ?m0) =>
      destruct (task_completed_flags f m0) as (_ & _ & Htasks & _);
      pose proof (task_completed_pool_futures f m0) as Hpf end.
    simpl in Htasks, Hpf.
    eapply (track_inv_same_tasks m); [exact Htasks| | |exact Hinv]; rewrite Hpf.
    + intros g gu Hg Hgb. destruct (decide (g = f)) as [->|Hne].
      * simplify_eq. exists (set_fut_state FFinished fu).
        split; [by apply list_lookup_insert_eq|]. split; [done|].
        split; [by right; right|by right].
      * exists gu. by rewrite list_lookup_insert_ne.
    + intros g gu [(-> & <- & _)|[_ Hg]]%list_lookup_insert_Some; done.
Qed.

Lemma run_track_inv ls m m' : track_inv m → run ls m = Some m' → track_inv m'.
Proof.
  revert m. induction ls as [|l ls IH]; intros m Hinv Hrun; simpl in *; [by simplify_eq|].
  destruct (step l m) as [m1|] eqn:Hstep; [|done]. simpl in Hrun.
  eapply IH; [|exact Hrun]. by eapply step_track_inv.
Qed.

Lemma taken_once_unique i m f g fu gu :
  taken_once i m →
  pool_futures m !! f = Some fu → pool_futures m !! g = Some gu →
  fut_task fu = i → fut_task gu = i → dequeued fu → dequeued gu → f = g.
Proof.
  intros Honce Hf Hg Hfi Hgi Hfd Hgd. destruct (decide (f = g)) as [|Hne]; [done|].
  pose proof (filter_length_two (λ fu, fut_task fu = i ∧ dequeued fu)
                (pool_futures m) f g fu gu Hf Hg Hne (conj Hfi Hfd) (conj Hgi Hgd)).
  unfold taken_once, taken_futures in Honce. lia.
Qed.

Lemma cancel_pool_futures m :
  pool_futures (cancel m) = pool_futures (drop_executor (with_running false m)).
Proof. done. Qed.

Lemma submitted_are_pending (e : nat) (ts : list CompressionTask)
    (old : list Future) (f : nat) (fu : Future) :
  (old ++ map (λ i, MkFuture i e FPending) (pending_indices ts)) !! f = Some fu →
  old !! f = None →
  fut_state fu = FPending ∧ ∃ t, ts !! fut_task fu = Some t ∧ status t = Pending.
Proof.
  intros [Hf|[_ Hf]]%lookup_app_Some Hold; [congruence|].
  apply list_lookup_fmap_Some in Hf as (i & -> & Hi). split; [done|]. simpl.
  apply elem_of_pending_indices. by eapply list_elem_of_lookup_2.
Qed.

Lemma same_length_no_new (old new : list Future) (f : nat) (fu : Future) :
  length new = length old → new !! f = Some fu → old !! f = None → False.
Proof.
  intros Hlen Hf%lookup_lt_Some Hold%lookup_ge_None. lia.
Qed.

Lemma drop_executor_length m :
  length (pool_futures (drop_executor m)) = length (pool_futures m).
Proof.
  rewrite drop_executor_pool_futures. destruct (executor m); by rewrite ?length_fmap.
Qed.

(** The futures a step adds are pending and are for tasks that are
    pending. *)
Lemma step_new_future l m m' f fu :
  step l m = Some m' →
  pool_futures m' !! f = Some fu → pool_futures m !! f = None →
  fut_state fu = FPending ∧ ∃ t, tasks m !! fut_task fu = Some t ∧ status t = Pending.
Proof.
  intros Hstep Hf Hold.
  assert (length (pool_futures m') = length (pool_futures m) →
          fut_state fu = FPending ∧
          ∃ t, tasks m !! fut_task fu = Some t ∧ status t = Pending) as Hsame.
  { intros Hlen. by destruct (same_length_no_new _ _ f fu Hlen Hf Hold). }
  destruct l; simpl in Hstep.
  - injection Hstep as <-. by apply Hsame.
  - injection Hstep as <-. destruct (decide (running m = true)) as [Hr|Hr].
    { apply Hsame. unfold start. by rewrite Hr. }
    apply not_true_is_false in Hr. rewrite (start_idle m Hr) in Hf, Hsame.
    cbv zeta in Hf, Hsame. case_bool_decide; [by apply Hsame|].
    match type of Hf with context [submit_pending ?e ?m0] =>
      pose proof (submit_pending_spec e m0) as Hs end.
    cbv zeta in Hs. simpl in Hs.
    destruct Hs as (_ & _ & _ & _ & _ & _ & _ & _ & _ & _ & Hpf & _).
    rewrite Hpf in Hf. by eapply submitted_are_pending.
  - injection Hstep as <-. apply Hsame.
    apply (drop_executor_length (with_paused true m)).
  - injection Hstep as <-. unfold resume in Hf, Hsame.
    destruct (paused m); simpl in Hf, Hsame; [|by apply Hsame].
    match type of Hf with context [submit_pending ?e ?m0] =>
      pose proof (submit_pending_spec e m0) as Hs end.
    cbv zeta in Hs. simpl in Hs.
    destruct Hs as (_ & _ & _ & _ & _ & _ & _ & _ & _ & _ & Hpf & _).
    rewrite Hpf in Hf. by eapply submitted_are_pending.
  - injection Hstep as <-. apply Hsame. rewrite cancel_pool_futures.
    apply (drop_executor_length (with_running false m)).
  - unfold worker_take in Hstep.
    destruct (pool_futures m !! f0) as [gu|]; [|done]. simpl in Hstep.
    destruct (_ && _); [|done]. injection Hstep as <-. apply Hsame. simpl.
    by rewrite length_insert.
  - unfold worker_begin in Hstep.
    destruct (pool_futures m !! f0) as [gu|]; [|done]. simpl in Hstep.
    destruct (tasks m !! fut_task gu); [|done]. simpl in Hstep.
    case_bool_decide; [|done]. injection Hstep as <-. apply Hsame. simpl.
    by rewrite length_insert.
  - unfold worker_finish in Hstep.
    destruct (pool_futures m !! f0) as [gu|]; [|done]. simpl in Hstep.
    destruct (tasks m !! fut_task gu); [|done]. simpl in Hstep.
    case_bool_decide; [|done]. injection Hstep as <-. apply Hsame. simpl.
    by rewrite length_insert.
  - unfold worker_done in Hstep.
    destruct (pool_futures m !! f0) as [gu|]; [|done]. simpl in Hstep.
    case_bool_decide; [|done]. injection Hstep as <-. apply Hsame.
    rewrite task_completed_pool_futures. simpl. by rewrite length_insert.
Qed.

(** C3, as the code has it. In every run of the pool from a new manager,
    whatever comes between the steps of the workers, a step keeps every
    task, its status never returns to pending and becomes cancelled only
    from running; as long as the task has been taken from a work queue
    once at most, the step moves the status along
    pending -> running -> completed, failed or cancelled, or from cancelled
    to completed or failed (the worker of a task that [cancel()] marked
    finishes it), or not at all; and the futures the step submits are for
    tasks that are pending. *)
Theorem status_moves_along_edges
    (workers : nat) (callback : bool) (ls : list Label) (l : Label)
    (m m' : Manager) (i : nat) (t : CompressionTask) :
  run ls (new_manager workers callback) = Some m →
  step l m = Some m' →
  tasks m !! i = Some t →
  (∃ t', tasks m' !! i = Some t' ∧
         (status t' = Pending → status t = Pending) ∧
         (status t' = Cancelled → status t = Running ∨ status t = Cancelled) ∧
         (taken_once i m → status_edge (status t) (status t') = true)) ∧
  (∀ f fu, pool_futures m' !! f = Some fu → pool_futures m !! f = None →
           fut_state fu = FPending ∧
           ∃ t0, tasks m !! fut_task fu = Some t0 ∧ status t0 = Pending).
Proof.
  intros Hrun Hstep Hi.
  split; [|intros f fu; by apply (step_new_future l)].
  pose proof (run_track_inv _ _ _ (new_manager_track workers callback) Hrun) as [Hb Hr Hd].
  assert (∀ m1, tasks m1 = tasks m →
            ∃ t', tasks m1 !! i = Some t' ∧
                  (status t' = Pending → status t = Pending) ∧
                  (status t' = Cancelled → status t = Running ∨ status t = Cancelled) ∧
                  (taken_once i m → status_edge (status t) (status t') = true)) as Hsame.
  { intros m1 ->. exists t. split; [done|]. split; [done|]. split; [by right|].
    intros _. apply status_edge_refl. }
  destruct l; simpl in Hstep.
  - injection Hstep as <-. exists t. simpl. split; [by apply lookup_app_l_Some|].
    split; [done|]. split; [by right|]. intros _. apply status_edge_refl.
  - injection Hstep as <-. apply Hsame, start_tasks.
  - injection Hstep as <-. apply Hsame, pause_tasks.
  - injection Hstep as <-. apply Hsame, resume_tasks.
  - injection Hstep as <-. exists (cancel_if_running t).
    rewrite cancel_tasks. split; [by apply list_lookup_fmap_Some_2|].
    unfold cancel_if_running. case_bool_decide as Hs; simpl.
    + rewrite Hs. split; [done|]. split; [by left|done].
    + split; [done|]. split; [by right|]. intros _. apply status_edge_refl.
  - unfold worker_take in Hstep.
    destruct (pool_futures m !! f) as [fu|] eqn:Hf; [|done]. simpl in Hstep.
    destruct (_ && _); [|done]. injection Hstep as <-. by apply Hsame.
  - unfold worker_begin in Hstep.
    destruct (pool_futures m !! f) as [fu|] eqn:Hf; [|done]. simpl in Hstep.
    destruct (tasks m !! fut_task fu) as [t0|] eqn:Ht; [|done]. simpl in Hstep.
    case_bool_decide as Hft; [|done]. injection Hstep as <-. simpl.
    destruct (decide (fut_task fu = i)) as [Heq|Hne].
    + subst i. rewrite Hi in Ht. injection Ht as <-. exists (compress_begin now t).
      split; [apply list_lookup_insert_eq; by eapply lookup_lt_Some|].
      split; [done|]. split; [done|]. intros Honce.
      assert (status t = Pending) as ->; [|done].
      destruct (decide (status t = Pending)) as [|Hs]; [done|].
      destruct (Hb _ t Hi Hs) as (g & gu & Hg & Hgi & Hgb).
      assert (f = g) as ->.
      { eapply (taken_once_unique _ m f g fu gu); eauto;
          [unfold dequeued; tauto|by apply begun_dequeued]. }
      simplify_eq. by destruct Hgb as [?|[?|?]]; congruence.
    + exists t. rewrite list_lookup_insert_ne by done. split; [done|].
      split; [done|]. split; [by right|]. intros _. apply status_edge_refl.
  - unfold worker_finish in Hstep.
    destruct (pool_futures m !! f) as [fu|] eqn:Hf; [|done]. simpl in Hstep.
    destruct (tasks m !! fut_task fu) as [t0|] eqn:Ht; [|done]. simpl in Hstep.
    case_bool_decide as Hfr; [|done]. injection Hstep as <-. simpl.
    destruct (decide (fut_task fu = i)) as [Heq|Hne].
    + subst i. rewrite Hi in Ht. injection Ht as <-.
      set (t1 := cd_task (compress_rest w now (MkCd t [] ∅ [])).2).
      assert (status t1 = Completed ∨ status t1 = Failed) as Hs1
        by apply compress_rest_status.
      exists t1. split; [apply list_lookup_insert_eq; by eapply lookup_lt_Some|].
      split; [by destruct Hs1 as [->| ->]|]. split; [by destruct Hs1 as [->| ->]|].
      intros Honce.
      destruct (Hr f fu Hf Hfr) as (t' & Ht' & Hnp).
      rewrite Hi in Ht'. injection Ht' as <-.
      assert (¬ (status t = Completed ∨ status t = Failed)) as Hnd.
      { intros Hs. destruct (Hd _ t Hi Hs) as (g & gu & Hg & Hgi & Hgr).
        assert (f = g) as ->.
        { eapply (taken_once_unique _ m f g fu gu); eauto;
            [unfold dequeued; tauto|by apply begun_dequeued, returned_begun]. }
        simplify_eq. by destruct Hgr; congruence. }
      destruct (status t), Hs1 as [->| ->]; try done; exfalso; apply Hnd; tauto.
    + exists t. rewrite list_lookup_insert_ne by done. split; [done|].
      split; [done|]. split; [by right|]. intros _. apply status_edge_refl.
  - unfold worker_done in Hstep.
    destruct (pool_futures m !! f) as [fu|] eqn:Hf; [|done]. simpl in Hstep.
    case_bool_decide as Hfr; [|done]. injection Hstep as <-.
    apply Hsame. match goal with |- tasks (task_completed f ?m0) = _ =>
      by destruct (task_completed_flags f m0) as (_ & _ & -> & _) end.
Qed.

(** C3 at the step that completes a cancelled task. *)
Lemma status_moves_along_edges_witness :
  (∃ t', tasks finished_pool !! 0 = Some t' ∧
         (status t' = Pending → status cancelled_task = Pending) ∧
         (status t' = Cancelled →
          status cancelled_task = Running ∨ status cancelled_task = Cancelled) ∧
         (taken_once 0 cancelled_pool →
          status_edge (status cancelled_task) (status t') = true)) ∧
  (∀ f fu, pool_futures finished_pool !! f = Some fu →
           pool_futures cancelled_pool !! f = None →
           fut_state fu = FPending ∧
           ∃ t0, tasks cancelled_pool !! fut_task fu = Some t0 ∧ status t0 = Pending).
Proof.
  apply (status_moves_along_edges 1 false cancel_trace (WorkerFinish 0 quiet_world 2)
           cancelled_pool finished_pool 0 cancelled_task);
    vm_compute; reflexivity.
Defined.

(** A task is taken twice when it was submitted twice. [resume()] on a
    pool that was paused before it was started submits the tasks and
    [start()] submits them again: the second execution moves a completed
    task back to running. *)
Example resume_before_start_runs_task_twice :
  (λ m, map status (tasks m)) <$>
    run [AddTask "Comics/A/1" "Comics/A/1.zip" true 8 false; Pause; Resume; Start;
         WorkerTake 0; WorkerBegin 0 1; WorkerFinish 0 quiet_world 2]
        (new_manager 1 false)
  = Some [Completed] ∧
  (λ m, map status (tasks m)) <$>
    run [AddTask "Comics/A/1" "Comics/A/1.zip" true 8 false; Pause; Resume; Start;
         WorkerTake 0; WorkerBegin 0 1; WorkerFinish 0 quiet_world 2;
         WorkerTake 1; WorkerBegin 1 3]
        (new_manager 1 false)
  = Some [Running].
Proof. split; vm_compute; reflexivity. Qed.

(** Within the life cycle, [cancel()] followed by [start()] submits a
    task twice when a worker has taken the task from the queue and line 106
    has not run: the task is still pending and is submitted again. *)
Example cancel_after_take_runs_task_twice :
  (λ m, map status (tasks m)) <$>
    life_cycle_run
      [AddTask "Comics/A/1" "Comics/A/1.zip" true 8 false; Start; WorkerTake 0;
       Cancel; Start;
       WorkerBegin 0 1; WorkerFinish 0 quiet_world 2; WorkerDone 0]
      (new_manager 1 false)
  = Some [Completed] ∧
  (λ m, map status (tasks m)) <$>
    life_cycle_run
      [AddTask "Comics/A/1" "Comics/A/1.zip" true 8 false; Start; WorkerTake 0;
       Cancel; Start;
       WorkerBegin 0 1; WorkerFinish 0 quiet_world 2; WorkerDone 0;
       WorkerTake 1; WorkerBegin 1 3]
      (new_manager 1 false)
  = Some [Running].
Proof. split; vm_compute; reflexivity. Qed.

(** So do [pause()] and [resume()] when they are called after a worker
    took the task from the queue and before line 106 has run: [shutdown]
    finds the queue empty, the task is still pending and [resume()]
    submits it again. Both futures run
    [compress_directory]: the task is completed by the first, goes back to
    running with the second and fails in it. *)
Example pause_after_take_runs_task_twice :
  (λ m, (map status (tasks m), pool_futures m, length (taken_futures 0 m))) <$>
    life_cycle_run paused_take_trace (new_manager 1 false)
  = Some ([Completed], [MkFuture 0 0 FFinished; MkFuture 0 1 FTaken], 2) ∧
  (λ m, map status (tasks m)) <$>
    life_cycle_run (paused_take_trace ++ [WorkerBegin 1 3]) (new_manager 1 false)
  = Some [Running] ∧
  (λ m, map status (tasks m)) <$>
    life_cycle_run (paused_take_trace ++ [WorkerBegin 1 3; WorkerFinish 1 rename_fails 4])
      (new_manager 1 false)
  = Some [Failed] ∧
  status_edge Completed Running = false.
Proof. repeat split; vm_compute; reflexivity. Qed.








(** ** The pool within its life cycle *)

Lemma new_manager_inv workers callback : pool_inv (new_manager workers callback).
Proof. split; simpl; [done|done|]. intros f fu Hf. by rewrite lookup_nil in Hf. Qed.

Lemma drop_executor_no_pending m f fu :
  (∀ g gu, pool_futures m !! g = Some gu → fut_state gu = FPending →
           executor m = Some (fut_executor gu)) →
  pool_futures (drop_executor m) !! f = Some fu → fut_state fu ≠ FPending.
Proof.
  intros Hq. rewrite drop_executor_lookup. destruct (executor m) as [e|] eqn:He.
  - intros (fu0 & Hf & ->)%fmap_Some. unfold cancel_queued.
    destruct (bool_decide (fut_state fu0 = FPending)) eqn:Hp; simpl.
    + apply bool_decide_eq_true_1 in Hp. pose proof (Hq _ _ Hf Hp) as [= ->].
      by rewrite bool_decide_eq_true_2.
    + by apply bool_decide_eq_false_1 in Hp.
  - intros Hf Hp. by pose proof (Hq _ _ Hf Hp).
Qed.

Lemma pause_inv m : pool_inv m → pool_inv (pause m).
Proof.
  intros [_ _ Hq]. destruct (pause_frame m) as (_ & _ & _ & _ & _ & _ & _ & He & _).
  split; [done|done|]. intros f fu Hf Hp. exfalso. revert Hp.
  by eapply (drop_executor_no_pending (with_paused true m)).
Qed.

Lemma cancel_inv m : pool_inv m → pool_inv (cancel m).
Proof.
  intros [_ _ Hq].
  assert (executor (cancel m) = None) as He.
  { unfold cancel. simpl.
    by destruct (drop_executor_frame (with_running false m)) as (_ & _ & _ & _ & _ & _ & -> & _). }
  split; [done|done|]. intros f fu Hf Hp. exfalso. revert Hp.
  unfold cancel in Hf. simpl in Hf.
  by eapply (drop_executor_no_pending (with_running false m)).
Qed.

Lemma start_inv m : pool_inv m → pool_inv (start m).
Proof.
  intros [Hidle Hpau Hq]. destruct (decide (running m = true)) as [Hr|Hr].
  { replace (start m) with m; [done|]. unfold start. by rewrite Hr. }
  apply not_true_is_false in Hr. rewrite (start_idle m Hr). cbv zeta.
  case_bool_decide as Hts.
  { split; simpl; [done|done|exact Hq]. }
  match goal with |- pool_inv (submit_pending ?e ?m0) =>
    pose proof (submit_pending_spec e m0) as Hs end.
  cbv zeta in Hs. simpl in Hs.
  destruct Hs as (_ & _ & _ & _ & _ & Hrun & Hp & He & _ & _ & Hpf & _).
  split; rewrite ?Hrun, ?Hp, ?He, ?Hpf; [done|done|].
  intros f fu [Hf|[_ Hf]]%lookup_app_Some Hfp.
  - pose proof (Hq _ _ Hf Hfp) as He'. by rewrite (Hidle Hr) in He'.
  - by apply list_lookup_fmap_Some in Hf as (i & -> & _).
Qed.

Lemma resume_inv m : running m = true → pool_inv m → pool_inv (resume m).
Proof.
  intros Hr Hinv. destruct (decide (paused m = true)) as [Hp|Hp].
  2:{ replace (resume m) with m; [done|]. unfold resume.
      by rewrite (not_true_is_false _ Hp). }
  destruct Hinv as [Hidle Hpau Hq]. unfold resume. rewrite Hp. simpl.
  match goal with |- pool_inv (with_paused false (submit_pending ?e ?m0)) =>
    pose proof (submit_pending_spec e m0) as Hs end.
  cbv zeta in Hs. simpl in Hs.
  destruct Hs as (_ & _ & _ & _ & _ & Hrun & _ & He & _ & _ & Hpf & _).
  split; simpl; rewrite ?Hrun, ?He, ?Hpf; [by rewrite Hr|done|].
  intros f fu [Hf|[_ Hf]]%lookup_app_Some Hfp.
  - pose proof (Hq _ _ Hf Hfp) as He'. by rewrite (Hpau Hp) in He'.
  - by apply list_lookup_fmap_Some in Hf as (i & -> & _).
Qed.

Lemma worker_step_inv m m' :
  running m' = running m → paused m' = paused m → executor m' = executor m →
  (∀ f fu, pool_futures m' !! f = Some fu → fut_state fu = FPending →
           pool_futures m !! f = Some fu) →
  pool_inv m → pool_inv m'.
Proof.
  intros Hr Hp He Hpf [Hidle Hpau Hq].
  split; rewrite ?Hr, ?Hp, ?He; [done|done|]. intros f fu Hf Hfp. eauto.
Qed.

Lemma step_inv l m m' :
  pool_inv m → in_life_cycle l m = true → step l m = Some m' → pool_inv m'.
Proof.
  intros Hinv Hlife Hstep. destruct l; simpl in Hstep, Hlife.
  - injection Hstep as <-. by destruct Hinv.
  - injection Hstep as <-. by apply start_inv.
  - injection Hstep as <-. by apply pause_inv.
  - injection Hstep as <-. by apply resume_inv.
  - injection Hstep as <-. by apply cancel_inv.
  - unfold worker_take in Hstep.
    destruct (pool_futures m !! f) as [fu|]; [|done]. simpl in Hstep.
    destruct (_ && _); [|done]. injection Hstep as <-.
    eapply (worker_step_inv m); [done..| |done]. simpl.
    by intros g gu [(-> & <- & _)|[_ Hg]]%list_lookup_insert_Some.
  - unfold worker_begin in Hstep.
    destruct (pool_futures m !! f) as [fu|]; [|done]. simpl in Hstep.
    destruct (tasks m !! fut_task fu); [|done]. simpl in Hstep.
    case_bool_decide; [|done]. injection Hstep as <-.
    eapply (worker_step_inv m); [done..| |done]. simpl.
    by intros g gu [(-> & <- & _)|[_ Hg]]%list_lookup_insert_Some.
  - unfold worker_finish in Hstep.
    destruct (pool_futures m !! f) as [fu|]; [|done]. simpl in Hstep.
    destruct (tasks m !! fut_task fu); [|done]. simpl in Hstep.
    case_bool_decide; [|done]. injection Hstep as <-.
    eapply (worker_step_inv m); [done..| |done]. simpl.
    by intros g gu [(-> & <- & _)|[_ Hg]]%list_lookup_insert_Some.
  - unfold worker_done in Hstep.
    destruct (pool_futures m !! f) as [fu|]; [|done]. simpl in Hstep.
    case_bool_decide; [|done]. injection Hstep as <-.
    match goal with |- pool_inv (task_completed f ?m0) =>
      destruct (task_completed_frame f m0) as (_ & _ & _ & _ & Hr & Hp & He & _);
      pose proof (task_completed_pool_futures f m0) as Hpf end.
    eapply (worker_step_inv m); [exact Hr|exact Hp|exact He| |done].
    rewrite Hpf. simpl.
    by intros g gu [(-> & <- & _)|[_ Hg]]%list_lookup_insert_Some.
Qed.

Lemma life_cycle_run_inv ls m m' :
  pool_inv m → life_cycle_run ls m = Some m' → pool_inv m'.
Proof.
  revert m. induction ls as [|l ls IH]; intros m Hinv Hrun; simpl in *; [by simplify_eq|].
  destruct (in_life_cycle l m) eqn:Hlife; [|done].
  destruct (step l m) as [m1|] eqn:Hstep; [|done]. simpl in Hrun.
  eapply IH; [|exact Hrun]. by eapply step_inv.
Qed.

Lemma worker_take_not_queued f m :
  (∀ fu, pool_futures m !! f = Some fu → fut_state fu ≠ FPending) →
  worker_take f m = None.
Proof.
  intros Hq. unfold worker_take.
  destruct (pool_futures m !! f) as [fu|] eqn:Hf; [|done]. simpl.
  by rewrite bool_decide_eq_false_2 by (by apply Hq).
Qed.

Lemma worker_begin_is_Some f now m :
  is_Some (worker_begin f now m) ↔
  ∃ fu, pool_futures m !! f = Some fu ∧ (fut_state fu = FTaken ∧
        is_Some (tasks m !! fut_task fu)).
Proof.
  unfold worker_begin. split.
  - destruct (pool_futures m !! f) as [fu|]; simpl; [|by intros [? ?]].
    destruct (tasks m !! fut_task fu) as [t|] eqn:Ht; simpl; [|by intros [? ?]].
    case_bool_decide; [|by intros [? ?]]. intros _. exists fu. by rewrite Ht.
  - intros (fu & Hf & Hfr & [t Ht]). rewrite Hf. simpl. rewrite Ht. simpl.
    by rewrite bool_decide_eq_true_2.
Qed.

Lemma worker_finish_is_Some f w now m :
  is_Some (worker_finish f w now m) ↔
  ∃ fu, pool_futures m !! f = Some fu ∧ (fut_state fu = FRunning ∧
        is_Some (tasks m !! fut_task fu)).
Proof.
  unfold worker_finish. split.
  - destruct (pool_futures m !! f) as [fu|]; simpl; [|by intros [? ?]].
    destruct (tasks m !! fut_task fu) as [t|] eqn:Ht; simpl; [|by intros [? ?]].
    case_bool_decide; [|by intros [? ?]]. intros _. exists fu. by rewrite Ht.
  - intros (fu & Hf & Hfr & [t Ht]). rewrite Hf. simpl. rewrite Ht. simpl.
    by rewrite bool_decide_eq_true_2.
Qed.

Lemma drop_executor_state m f s (T : nat → Prop) :
  s ≠ FPending → s ≠ FCancelled →
  (∃ fu, pool_futures (drop_executor m) !! f = Some fu ∧ (fut_state fu = s ∧
         T (fut_task fu))) ↔
  (∃ fu, pool_futures m !! f = Some fu ∧ (fut_state fu = s ∧ T (fut_task fu))).
Proof.
  intros Hnp Hnc. split; intros (fu & Hf & Hs & Ht); exists fu; (split; [|done]).
  - apply drop_executor_kept; [done|congruence].
  - apply drop_executor_keeps; [done|congruence].
Qed.

Lemma cancel_task_is_Some m i : is_Some (tasks (cancel m) !! i) ↔ is_Some (tasks m !! i).
Proof. by rewrite cancel_tasks, list_lookup_fmap, fmap_is_Some. Qed.

(** X4 ([pause], [cancel], with the workers): in a state reached from a new
    manager within the life cycle, [pause()] and [cancel()] leave nothing in
    a queue, so that no worker can take a work item afterwards; and they
    interrupt no worker: a worker that has taken a work item begins its
    task, and a worker that runs a task finishes it, after the call exactly
    when it could before. *)
Theorem pause_and_cancel_empty_the_queue
    (workers : nat) (callback : bool) (ls : list Label) (m : Manager)
    (f g : nat) (now : Q) (w : World) :
  life_cycle_run ls (new_manager workers callback) = Some m →
  worker_take f (pause m) = None ∧
  worker_take f (cancel m) = None ∧
  (is_Some (worker_begin g now (pause m)) ↔ is_Some (worker_begin g now m)) ∧
  (is_Some (worker_begin g now (cancel m)) ↔ is_Some (worker_begin g now m)) ∧
  (is_Some (worker_finish g w now (pause m)) ↔ is_Some (worker_finish g w now m)) ∧
  (is_Some (worker_finish g w now (cancel m)) ↔ is_Some (worker_finish g w now m)).
Proof.
  intros Hrun.
  assert (pool_inv m) as [_ _ Hq].
  { eapply life_cycle_run_inv; [apply new_manager_inv|exact Hrun]. }
  split; [|split; [|split; [|split; [|split]]]].
  - apply worker_take_not_queued. intros fu.
    by apply (drop_executor_no_pending (with_paused true m)).
  - apply worker_take_not_queued. intros fu. rewrite cancel_pool_futures.
    by apply (drop_executor_no_pending (with_running false m)).
  - rewrite !worker_begin_is_Some. rewrite pause_tasks.
    by apply (drop_executor_state (with_paused true m) g _
                (λ i, is_Some (tasks m !! i))).
  - rewrite !worker_begin_is_Some. rewrite cancel_pool_futures.
    setoid_rewrite cancel_task_is_Some.
    by apply (drop_executor_state (with_running false m) g _
                (λ i, is_Some (tasks m !! i))).
  - rewrite !worker_finish_is_Some. rewrite pause_tasks.
    by apply (drop_executor_state (with_paused true m) g _
                (λ i, is_Some (tasks m !! i))).
  - rewrite !worker_finish_is_Some. rewrite cancel_pool_futures.
    setoid_rewrite cancel_task_is_Some.
    by apply (drop_executor_state (with_running false m) g _
                (λ i, is_Some (tasks m !! i))).
Qed.

Lemma pause_and_cancel_empty_the_queue_witness :
  worker_take 1 (pause busy_pool) = None ∧
  worker_take 1 (cancel busy_pool) = None ∧
  (is_Some (worker_begin 0 2 (pause busy_pool)) ↔ is_Some (worker_begin 0 2 busy_pool)) ∧
  (is_Some (worker_begin 0 2 (cancel busy_pool)) ↔ is_Some (worker_begin 0 2 busy_pool)) ∧
  (is_Some (worker_finish 0 quiet_world 2 (pause busy_pool)) ↔
   is_Some (worker_finish 0 quiet_world 2 busy_pool)) ∧
  (is_Some (worker_finish 0 quiet_world 2 (cancel busy_pool)) ↔
   is_Some (worker_finish 0 quiet_world 2 busy_pool)).
Proof.
  apply (pause_and_cancel_empty_the_queue 1 true (two_chapters ++ [WorkerTake 0; WorkerBegin 0 1])).
  vm_compute. reflexivity.
Defined.

(** X5 ([pause] followed by [resume]): a task that is pending is submitted
    again. In a state reached from a new manager within the life cycle,
    take a future whose task is still pending. If it waits in the queue,
    [pause()] cancels it; if a worker has taken it, it is left as it is. In
    both cases [resume()] then submits a new future for the task to the new
    executor and lists it in [self.futures]. *)
Theorem pause_resume_requeues
    (workers : nat) (callback : bool) (ls : list Label) (m : Manager)
    (f : nat) (fu : Future) (t : CompressionTask) :
  life_cycle_run ls (new_manager workers callback) = Some m →
  pool_futures m !! f = Some fu →
  tasks m !! fut_task fu = Some t →
  status t = Pending →
  paused (resume (pause m)) = false ∧
  executor (resume (pause m)) = Some (pool_executors m) ∧
  tasks (resume (pause m)) = tasks m ∧
  pool_futures (resume (pause m)) !! f =
    Some (if bool_decide (fut_state fu = FPending)
          then set_fut_state FCancelled fu else fu) ∧
  ∃ g, g ∈ futures (resume (pause m)) ∧
       pool_futures (resume (pause m)) !! g =
         Some (MkFuture (fut_task fu) (pool_executors m) FPending).
Proof.
  intros Hrun Hf Ht Hst.
  assert (pool_inv m) as [_ _ Hqueue].
  { eapply life_cycle_run_inv; [apply new_manager_inv|exact Hrun]. }
  destruct (pause_frame m) as (_ & _ & Htasks & _ & _ & _ & Hpau & Hexe & _).
  assert (pool_executors (pause m) = pool_executors m) as Hpe.
  { unfold pause.
    by destruct (drop_executor_frame (with_paused true m)) as (_&_&_&_&_&_&_&_& ->). }
  assert (length (pool_futures (pause m)) = length (pool_futures m)) as Hlen.
  { unfold pause. rewrite drop_executor_pool_futures. simpl.
    destruct (executor m); by rewrite ?length_fmap. }
  assert (pool_futures (pause m) !! f =
            Some (if bool_decide (fut_state fu = FPending)
                  then set_fut_state FCancelled fu else fu)) as Hf'.
  { unfold pause. rewrite drop_executor_lookup. simpl. case_bool_decide as Hp.
    - rewrite (Hqueue _ _ Hf Hp), Hf. simpl. unfold cancel_queued.
      by rewrite !bool_decide_eq_true_2.
    - destruct (executor m); [|done]. rewrite Hf. simpl. by rewrite cancel_queued_state. }
  unfold resume. rewrite Hpau. simpl.
  pose proof (submit_pending_spec (pool_executors (pause m)) (new_executor (pause m))) as Hs.
  cbv zeta in Hs. simpl in Hs.
  destruct Hs as (_ & _ & Hts & _ & _ & _ & _ & Hex & _ & _ & Hfs & Hfl).
  rewrite Hex, Hts, Hfs, Hfl, Htasks, Hpe.
  split; [done|]. split; [done|]. split; [done|]. split.
  - rewrite lookup_app_l by (rewrite Hlen; by eapply lookup_lt_Some). exact Hf'.
  - assert (fut_task fu ∈ pending_indices (tasks m)) as Hin.
    { apply elem_of_pending_indices. eauto. }
    apply list_elem_of_lookup in Hin as [k Hk].
    exists (length (pool_futures m) + k). split.
    + apply list_elem_of_lookup. exists k. rewrite Hlen.
      apply lookup_seq. split; [done|]. by eapply lookup_lt_Some.
    + rewrite lookup_app_r by (rewrite Hlen; lia).
      rewrite Hlen.
      replace (length (pool_futures m) + k - length (pool_futures m)) with k by lia.
      by rewrite list_lookup_fmap, Hk.
Qed.

Lemma pause_resume_requeues_witness :
  paused (resume (pause busy_pool)) = false ∧
  executor (resume (pause busy_pool)) = Some (pool_executors busy_pool) ∧
  tasks (resume (pause busy_pool)) = tasks busy_pool ∧
  pool_futures (resume (pause busy_pool)) !! 1 =
    Some (if bool_decide (fut_state (MkFuture 1 0 FPending) = FPending)
          then set_fut_state FCancelled (MkFuture 1 0 FPending)
          else MkFuture 1 0 FPending) ∧
  ∃ g, g ∈ futures (resume (pause busy_pool)) ∧
       pool_futures (resume (pause busy_pool)) !! g =
         Some (MkFuture (fut_task (MkFuture 1 0 FPending)) (pool_executors busy_pool) FPending).
Proof.
  apply (pause_resume_requeues 1 true (two_chapters ++ [WorkerTake 0; WorkerBegin 0 1])
           busy_pool 1 (MkFuture 1 0 FPending)
           (new_task "Comics/A/2" "Comics/A/2.zip" true 8 false)).
  - vm_compute. reflexivity.
  - reflexivity.
  - reflexivity.
  - reflexivity.
Defined.

(** ** The counter of a pool that is never stopped *)

Lemma filter_insert_length {A} (P : A → Prop) `{!∀ x, Decision (P x)}
    (l : list A) (i : nat) (x y : A) :
  l !! i = Some x →
  length (filter P (<[i:=y]> l)) + (if decide (P x) then 1 else 0) =
  length (filter P l) + (if decide (P y) then 1 else 0).
Proof.
  revert i. induction l as [|a l IH]; intros [|i] Hi; simplify_eq/=.
  - rewrite !filter_cons. destruct (decide (P x)), (decide (P y)); simpl; lia.
  - specialize (IH i Hi). rewrite !filter_cons. destruct (decide (P a)); simpl; lia.
Qed.

Lemma filter_length_all {A} (P : A → Prop) `{!∀ x, Decision (P x)} (l : list A) :
  length (filter P l) = length l ↔ Forall P l.
Proof.
  split.
  - induction l as [|a l IH]; [by constructor|].
    rewrite filter_cons. pose proof (length_filter P l) as Hle.
    destruct (decide (P a)); simpl; intros Hlen.
    + constructor; [done|]. apply IH. lia.
    + lia.
  - intros Hall. f_equal. apply filter_all. by apply Forall_forall.
Qed.

Lemma new_manager_counter_inv workers callback : counter_inv (new_manager workers callback).
Proof. by split. Qed.

Lemma step_counter_inv l m m' :
  counter_inv m → never_stopped l = true → step l m = Some m' → counter_inv m'.
Proof.
  intros [Hp Hidle Hpend Hc Ht] Hl Hstep. destruct l; try done; simpl in Hstep.
  - (* add_task *)
    injection Hstep as <-. split; simpl; try done.
    intros Hr. apply Forall_app. split; [by apply Hpend|]. by repeat constructor.
  - (* start *)
    injection Hstep as <-. destruct (decide (running m = true)) as [Hr|Hr].
    { replace (start m) with m by (unfold start; by rewrite Hr). by split. }
    apply not_true_is_false in Hr.
    rewrite start_idle by done. cbv zeta.
    specialize (Hidle Hr). specialize (Hpend Hr).
    case_bool_decide as Hts.
    + split; simpl; try done.
      * unfold finished_futures. simpl. by rewrite Hidle.
      * by rewrite Hidle, Hts.
    + match goal with |- counter_inv (submit_pending ?e ?m0) =>
        pose proof (submit_pending_spec e m0) as Hs end.
      cbv zeta in Hs. simpl in Hs.
      destruct Hs as (_ & _ & Htasks & Hcomp & Htot & Hrun & Hpau & _ & _ & _ & Hpf & _).
      split.
      * by rewrite Hpau.
      * by rewrite Hrun.
      * by rewrite Hrun.
      * rewrite Hcomp. unfold finished_futures. rewrite Hpf, Hidle. simpl.
        rewrite filter_none; [done|].
        by intros fu (i & -> & _)%list_elem_of_fmap.
      * rewrite Hpf, Htot, Hidle. simpl.
        rewrite length_map, pending_indices_all by done. by rewrite length_seq.
  - (* resume *)
    injection Hstep as <-.
    replace (resume m) with m by (unfold resume; by rewrite Hp). by split.
  - (* a worker takes a future *)
    unfold worker_take in Hstep.
    destruct (pool_futures m !! f) as [fu|] eqn:Hf; [|done]. simpl in Hstep.
    destruct (_ && _) eqn:Hguard; [|done].
    apply andb_prop in Hguard as [[Hfp%bool_decide_eq_true_1 _]%andb_prop _].
    injection Hstep as <-.
    split; simpl; try done.
    + intros Hr. rewrite (Hidle Hr) in Hf. by rewrite lookup_nil in Hf.
    + unfold finished_futures in *. simpl.
      pose proof (filter_insert_length (λ fu, fut_state fu = FFinished) _ f fu
                    (set_fut_state FTaken fu) Hf) as Hlen.
      rewrite decide_False in Hlen by (by rewrite Hfp).
      rewrite decide_False in Hlen by done. lia.
    + by rewrite length_insert.
  - (* line 106 *)
    unfold worker_begin in Hstep.
    destruct (pool_futures m !! f) as [fu|] eqn:Hf; [|done]. simpl in Hstep.
    destruct (tasks m !! fut_task fu) as [t|] eqn:Htk; [|done]. simpl in Hstep.
    case_bool_decide as Hft; [|done]. injection Hstep as <-.
    split; simpl; try done.
    + intros Hr. rewrite (Hidle Hr) in Hf. by rewrite lookup_nil in Hf.
    + intros Hr. rewrite (Hidle Hr) in Hf. by rewrite lookup_nil in Hf.
    + unfold finished_futures in *. simpl.
      pose proof (filter_insert_length (λ fu, fut_state fu = FFinished) _ f fu
                    (set_fut_state FRunning fu) Hf) as Hlen.
      rewrite decide_False in Hlen by (by rewrite Hft).
      rewrite decide_False in Hlen by done. lia.
    + by rewrite length_insert.
  - (* the worker returns *)
    unfold worker_finish in Hstep.
    destruct (pool_futures m !! f) as [fu|] eqn:Hf; [|done]. simpl in Hstep.
    destruct (tasks m !! fut_task fu) as [t|] eqn:Htk; [|done]. simpl in Hstep.
    case_bool_decide as Hfr; [|done]. injection Hstep as <-.
    split; simpl; try done.
    + intros Hr. rewrite (Hidle Hr) in Hf. by rewrite lookup_nil in Hf.
    + intros Hr. rewrite (Hidle Hr) in Hf. by rewrite lookup_nil in Hf.
    + unfold finished_futures in *. simpl.
      pose proof (filter_insert_length (λ fu, fut_state fu = FFinished) _ f fu
                    (set_fut_state FReturned fu) Hf) as Hlen.
      rewrite decide_False in Hlen by (by rewrite Hfr).
      rewrite decide_False in Hlen by done. lia.
    + by rewrite length_insert.
  - (* the result is set *)
    unfold worker_done in Hstep.
    destruct (pool_futures m !! f) as [fu|] eqn:Hf; [|done]. simpl in Hstep.
    case_bool_decide as Hfr; [|done]. injection Hstep as <-.
    match goal with |- counter_inv (task_completed f ?m0) =>
      destruct (task_completed_flags f m0) as (Hpau & Hrun & Htasks & Htot);
      pose proof (task_completed_pool_futures f m0) as Hpf;
      pose proof (task_completed_counter f m0) as Hcnt end.
    simpl in *.
    split.
    + by rewrite Hpau.
    + rewrite Hrun. intros Hr. rewrite (Hidle Hr) in Hf. by rewrite lookup_nil in Hf.
    + rewrite Hrun, Htasks. done.
    + rewrite Hcnt. unfold finished_futures in *. rewrite Hpf.
      pose proof (filter_insert_length (λ fu, fut_state fu = FFinished) _ f fu
                    (set_fut_state FFinished fu) Hf) as Hlen.
      rewrite decide_False in Hlen by (by rewrite Hfr).
      rewrite decide_True in Hlen by done. lia.
    + by rewrite Hpf, Htot, length_insert.
Qed.

Lemma run_counter_inv ls m m' :
  counter_inv m → forallb never_stopped ls = true → run ls m = Some m' → counter_inv m'.
Proof.
  revert m. induction ls as [|l ls IH]; intros m Hinv Hls Hrun; simpl in *;
    [by simplify_eq|].
  apply andb_prop in Hls as [Hl Hls].
  destruct (step l m) as [m1|] eqn:Hstep; [|done]. simpl in Hrun.
  eapply (IH m1); [by eapply step_counter_inv|done|exact Hrun].
Qed.

Lemma py_div_one (a b : nat) : b ≠ 0 → (py_div a b == 1)%Q ↔ a = b.
Proof.
  intros Hb. unfold py_div, Qeq. simpl. rewrite pos_of_nat_Z by done. lia.
Qed.

(** X2 ([_task_completed], [get_progress], [start]): in a run from a new
    manager that is neither paused nor cancelled, the counter is the number
    of futures that finished, one future was submitted for each task counted
    in the total, the progress stays between 0 and 1, and it is 1 exactly
    when there is a future and every future has finished. *)
Theorem progress_without_pause
    (workers : nat) (callback : bool) (ls : list Label) (m : Manager) :
  run ls (new_manager workers callback) = Some m →
  forallb never_stopped ls = true →
  completed_tasks m = length (finished_futures m) ∧
  length (pool_futures m) = total_tasks m ∧
  completed_tasks m ≤ total_tasks m ∧
  (0 <= get_progress m <= 1)%Q ∧
  ((get_progress m == 1)%Q ↔
   pool_futures m ≠ [] ∧ Forall (λ fu, fut_state fu = FFinished) (pool_futures m)).
Proof.
  intros Hrun Hls.
  destruct (run_counter_inv ls _ m (new_manager_counter_inv workers callback) Hls Hrun)
    as [_ _ _ Hc Ht].
  assert (completed_tasks m ≤ total_tasks m) as Hle.
  { rewrite Hc, <- Ht. apply length_filter. }
  split; [done|]. split; [done|]. split; [done|].
  unfold get_progress. case_bool_decide as Hz.
  - split; [done|]. split; [done|].
    intros [Hne _]. destruct (pool_futures m); [done|]. simpl in Ht. lia.
  - split; [apply py_div_bounds; lia|].
    rewrite py_div_one by done. rewrite Hc, <- Ht. unfold finished_futures.
    rewrite filter_length_all. split; [|by intros [_ ?]].
    intros Hall. split; [|done]. intros Hnil. rewrite Hnil in Ht. simpl in Ht. lia.
Qed.

Lemma progress_without_pause_witness :
  completed_tasks steady_pool = length (finished_futures steady_pool) ∧
  length (pool_futures steady_pool) = total_tasks steady_pool ∧
  completed_tasks steady_pool ≤ total_tasks steady_pool ∧
  (0 <= get_progress steady_pool <= 1)%Q ∧
  ((get_progress steady_pool == 1)%Q ↔
   pool_futures steady_pool ≠ [] ∧
   Forall (λ fu, fut_state fu = FFinished) (pool_futures steady_pool)).
Proof.
  apply (progress_without_pause 1 true steady_trace steady_pool).
  - vm_compute. reflexivity.
  - reflexivity.
Defined.

Lemma insert_keeps_tasks (l : list Future) f fu s :
  l !! f = Some fu → fut_task <$> <[f:=set_fut_state s fu]> l = fut_task <$> l.
Proof.
  intros Hf. rewrite list_fmap_insert. simpl. apply list_insert_id.
  by rewrite list_lookup_fmap, Hf.
Qed.

Lemma submitted_tasks e (ids : list nat) :
  fut_task <$> map (λ i, MkFuture i e FPending) ids = ids.
Proof. induction ids as [|i ids IH]; simpl; [done|]. by f_equal. Qed.

Lemma step_one_future l m m' :
  counter_inv m → NoDup (fut_task <$> pool_futures m) → never_stopped l = true →
  step l m = Some m' → NoDup (fut_task <$> pool_futures m').
Proof.
  intros [Hp Hidle _ _ _] Hnd Hl Hstep. destruct l; try done; simpl in Hstep.
  - by injection Hstep as <-.
  - injection Hstep as <-. destruct (decide (running m = true)) as [Hr|Hr].
    { replace (start m) with m by (unfold start; by rewrite Hr). done. }
    apply not_true_is_false in Hr. rewrite start_idle by done. cbv zeta.
    case_bool_decide; [done|].
    match goal with |- context [submit_pending ?e ?m0] =>
      pose proof (submit_pending_spec e m0) as Hs end.
    cbv zeta in Hs. simpl in Hs.
    destruct Hs as (_ & _ & _ & _ & _ & _ & _ & _ & _ & _ & -> & _).
    rewrite (Hidle Hr). simpl. rewrite submitted_tasks. apply pending_indices_NoDup.
  - injection Hstep as <-.
    replace (resume m) with m by (unfold resume; by rewrite Hp). done.
  - unfold worker_take in Hstep.
    destruct (pool_futures m !! f) as [fu|] eqn:Hf; [|done]. simpl in Hstep.
    destruct (_ && _); [|done]. injection Hstep as <-. simpl.
    by rewrite insert_keeps_tasks.
  - unfold worker_begin in Hstep.
    destruct (pool_futures m !! f) as [fu|] eqn:Hf; [|done]. simpl in Hstep.
    destruct (tasks m !! fut_task fu); [|done]. simpl in Hstep.
    case_bool_decide; [|done]. injection Hstep as <-. simpl.
    by rewrite insert_keeps_tasks.
  - unfold worker_finish in Hstep.
    destruct (pool_futures m !! f) as [fu|] eqn:Hf; [|done]. simpl in Hstep.
    destruct (tasks m !! fut_task fu); [|done]. simpl in Hstep.
    case_bool_decide; [|done]. injection Hstep as <-. simpl.
    by rewrite insert_keeps_tasks.
  - unfold worker_done in Hstep.
    destruct (pool_futures m !! f) as [fu|] eqn:Hf; [|done]. simpl in Hstep.
    case_bool_decide; [|done]. injection Hstep as <-.
    rewrite task_completed_pool_futures. simpl. by rewrite insert_keeps_tasks.
Qed.

Lemma run_one_future ls m m' :
  counter_inv m → NoDup (fut_task <$> pool_futures m) →
  forallb never_stopped ls = true → run ls m = Some m' →
  NoDup (fut_task <$> pool_futures m').
Proof.
  revert m. induction ls as [|l ls IH]; intros m Hinv Hnd Hls Hrun; simpl in *;
    [by simplify_eq|].
  apply andb_prop in Hls as [Hl Hls].
  destruct (step l m) as [m1|] eqn:Hstep; [|done]. simpl in Hrun.
  eapply (IH m1); [by eapply step_counter_inv|by eapply step_one_future|done|exact Hrun].
Qed.

Lemma one_future_taken_once (l : list Future) (i : nat) :
  NoDup (fut_task <$> l) →
  length (filter (λ fu, fut_task fu = i ∧ dequeued fu) l) ≤ 1.
Proof.
  induction l as [|a l IH]; simpl; [lia|].
  intros [Ha Hnd]%NoDup_cons. rewrite filter_cons.
  destruct (decide (fut_task a = i ∧ dequeued a)) as [[Hai _]|_]; [|by apply IH].
  rewrite filter_none; [done|].
  intros x Hx [Hxi _]. apply Ha. rewrite Hai, <- Hxi.
  apply list_elem_of_fmap. eauto.
Qed.

(** X1 ([start], [resume] and the workers): in a run from a new manager
    that is neither paused nor cancelled, no task is handed to
    [compress_directory] twice: no two futures are for the same task, so
    that every task is taken from the work queue once at most. *)
Theorem never_stopped_runs_each_task_once
    (workers : nat) (callback : bool) (ls : list Label) (m : Manager) :
  run ls (new_manager workers callback) = Some m →
  forallb never_stopped ls = true →
  NoDup (fut_task <$> pool_futures m) ∧ ∀ i, taken_once i m.
Proof.
  intros Hrun Hls.
  assert (NoDup (fut_task <$> pool_futures m)) as Hnd.
  { eapply run_one_future; [apply new_manager_counter_inv| |exact Hls|exact Hrun].
    simpl. constructor. }
  split; [done|]. intros i. by apply one_future_taken_once.
Qed.

Lemma never_stopped_runs_each_task_once_witness :
  NoDup (fut_task <$> pool_futures steady_pool) ∧ ∀ i, taken_once i steady_pool.
Proof.
  apply (never_stopped_runs_each_task_once 1 true steady_trace steady_pool).
  - vm_compute. reflexivity.
  - reflexivity.
Defined.

(** ** The cache of [is_chapter_directory] *)

Lemma is_chapter_directory_answer scandir self p b self' :
  is_chapter_directory scandir self p = (Returns b, self') →
  chapter_cache self' !! p = Some b ∧ max_depth self' = max_depth self ∧
  ∀ q, q ≠ p ∨ is_Some (chapter_cache self !! q) →
       chapter_cache self' !! q = chapter_cache self !! q.
Proof.
  unfold is_chapter_directory.
  destruct (chapter_cache self !! p) as [c|] eqn:Hc.
  { intros [= <- <-]. done. }
  assert (∀ v q, q ≠ p ∨ is_Some (chapter_cache self !! q) →
            <[p:=v]> (chapter_cache self) !! q = chapter_cache self !! q) as Hother.
  { intros v q [Hq|[c Hq]]; [by rewrite lookup_insert_ne|].
    rewrite lookup_insert_ne; [done|]. intros ->. by rewrite Hc in Hq. }
  destruct (scandir p) as [items|e].
  - intros [= <- <-]. simpl. rewrite lookup_insert_eq. eauto.
  - destruct (scandir_error_caught e); [|done].
    intros [= <- <-]. simpl. rewrite lookup_insert_eq. eauto.
Qed.

Lemma is_chapter_directory_raises scandir self p e self' :
  is_chapter_directory scandir self p = (Raises e, self') → self' = self.
Proof.
  unfold is_chapter_directory.
  destruct (chapter_cache self !! p); [done|].
  destruct (scandir p) as [items|e']; [done|].
  destruct (scandir_error_caught e'); [done|]. by intros [= _ <-].
Qed.

(** X6 ([is_chapter_directory]): an answer is never computed twice. Once a
    call has returned for a directory, every later call for it returns the
    same value and leaves the scanner as it is, whatever the directory holds
    by then (the listing is not read again); the call changed the cache at
    that directory only. *)
Theorem is_chapter_directory_memoizes
    (scandir scandir' : string -> outcome (list DirEntry))
    (self self' : Scanner) (dir_path : string) (b : bool) :
  is_chapter_directory scandir self dir_path = (Returns b, self') →
  is_chapter_directory scandir' self' dir_path = (Returns b, self') ∧
  chapter_cache self' !! dir_path = Some b ∧
  ∀ q, q ≠ dir_path → chapter_cache self' !! q = chapter_cache self !! q.
Proof.
  intros Hcall. destruct (is_chapter_directory_answer _ _ _ _ _ Hcall) as (Hb & _ & Hq).
  split; [|split; [done|]].
  - unfold is_chapter_directory. by rewrite Hb.
  - intros q Hne. apply Hq. by left.
Qed.

Lemma is_chapter_directory_memoizes_witness :
  let self' := MkScanner 10 {["Comics/A/1" := true]} in
  is_chapter_directory gone_scandir self' "Comics/A/1" = (Returns true, self') ∧
  chapter_cache self' !! "Comics/A/1" = Some true ∧
  ∀ q, q ≠ "Comics/A/1" → chapter_cache self' !! q = (∅ : gmap string bool) !! q.
Proof.
  apply (is_chapter_directory_memoizes mixed_scandir gone_scandir (MkScanner 10 ∅)).
  reflexivity.
Defined.

(** ** The chapters [scan_for_comic_directories] returns *)

Lemma cached_chapters_app self xs ys :
  cached_chapters self (xs ++ ys) = cached_chapters self xs ++ cached_chapters self ys.
Proof. unfold cached_chapters. by rewrite filter_app, map_app. Qed.

Lemma cached_chapters_ext self self' entries :
  Forall (λ entry, chapter_cache self' !! entry.1 = chapter_cache self !! entry.1) entries →
  cached_chapters self' entries = cached_chapters self entries.
Proof.
  intros Hall. unfold cached_chapters. f_equal. apply filter_ext_in.
  intros x Hx. rewrite Forall_forall in Hall. by rewrite (Hall x Hx).
Qed.

Section chapters.
Variable scandir : string -> outcome (list DirEntry).
Variable progress_callback : bool.
Variable total_dirs : nat.

Lemma collected_nil done st : chapters_inv st done → collected done [] (st, None).
Proof. intros Hinv. exists 0. simpl. by rewrite app_nil_r. Qed.

Lemma collected_app done xs ys r1 r2 :
  collected done xs r1 → r1.2 = None →
  (∀ done', chapters_inv r1.1 done' → collected done' ys r2) →
  collected done (xs ++ ys) r2.
Proof.
  intros (k & Hk & Hall & Hinv) Hnone Hnext. specialize (Hall Hnone). subst k.
  rewrite firstn_all in Hinv.
  destruct (Hnext _ Hinv) as (j & Hj & Hall' & Hinv').
  exists (length xs + j). rewrite length_app. split; [lia|]. split.
  - intros Hr. rewrite (Hall' Hr). done.
  - rewrite take_app_add'; [|done]. by rewrite app_assoc.
Qed.

Lemma collected_stop done xs ys r :
  collected done xs r → is_Some r.2 → collected done (xs ++ ys) r.
Proof.
  intros (k & Hk & _ & Hinv) [e He]. exists k. rewrite length_app.
  split; [lia|]. split; [by rewrite He|].
  by rewrite take_app_le.
Qed.

Lemma scan_dir_collected done root dir_name st :
  chapters_inv st done →
  collected done [(path_join root dir_name, dir_name)]
    (scan_dir scandir progress_callback total_dirs root dir_name st).
Proof.
  intros [Hch Hdom]. unfold scan_dir.
  destruct (is_chapter_directory scandir (scan_self st) (path_join root dir_name))
    as [[b|e] self'] eqn:Hcall.
  - destruct (is_chapter_directory_answer _ _ _ _ _ Hcall) as (Hb & _ & Hq).
    exists 1. simpl. split; [done|]. split; [done|].
    assert (Forall (λ entry, chapter_cache self' !! entry.1 =
                             chapter_cache (scan_self st) !! entry.1) done) as Hsame.
    { eapply Forall_impl; [exact Hdom|]. intros x Hx. apply Hq. by right. }
    split; simpl.
    + rewrite cached_chapters_app, (cached_chapters_ext _ _ _ Hsame), <- Hch.
      unfold cached_chapters. rewrite filter_cons, filter_nil. simpl.
      destruct b.
      * by rewrite decide_True.
      * rewrite decide_False by (by rewrite Hb). simpl. by rewrite app_nil_r.
    + apply Forall_app. split.
      * rewrite Forall_forall in Hsame, Hdom. apply Forall_forall. intros x Hx.
        rewrite (Hsame x Hx). by apply Hdom.
      * repeat constructor. simpl. by rewrite Hb.
  - apply is_chapter_directory_raises in Hcall as ->.
    exists 0. simpl. split; [lia|]. split; [done|]. by rewrite app_nil_r.
Qed.

Lemma scan_dirs_collected done root dirs st :
  chapters_inv st done →
  collected done (map (λ d, (path_join root d, d)) dirs)
    (scan_dirs scandir progress_callback total_dirs root dirs st).
Proof.
  revert done st. induction dirs as [|d dirs IH]; intros done st Hinv; simpl.
  { by apply collected_nil. }
  pose proof (scan_dir_collected done root d st Hinv) as Hd.
  destruct (scan_dir scandir progress_callback total_dirs root d st) as [st' [e|]] eqn:Hsd.
  - by apply (collected_stop done [_]).
  - apply (collected_app done [_] _ (st', None)); [done|done|].
    intros done' Hinv'. by apply IH.
Qed.

Lemma scan_dirs_max_depth root dirs st :
  max_depth (scan_self (scan_dirs scandir progress_callback total_dirs root dirs st).1) =
  max_depth (scan_self st).
Proof.
  revert st. induction dirs as [|d dirs IH]; intros st; simpl; [done|].
  destruct (scan_dir scandir progress_callback total_dirs root d st) as [st' [e|]] eqn:Hsd.
  - unfold scan_dir in Hsd.
    pose proof (is_chapter_directory_max_depth scandir (scan_self st) (path_join root d)) as Hm.
    destruct (is_chapter_directory scandir (scan_self st) (path_join root d)) as [[b|e'] self'];
      by simplify_eq.
  - rewrite IH. unfold scan_dir in Hsd.
    pose proof (is_chapter_directory_max_depth scandir (scan_self st) (path_join root d)) as Hm.
    destruct (is_chapter_directory scandir (scan_self st) (path_join root d)) as [[b|e'] self'];
      by simplify_eq.
Qed.

Lemma scan_walk_collected self root_path walk done st :
  max_depth (scan_self st) = max_depth self →
  chapters_inv st done →
  collected done (visited_entries self root_path walk)
    (scan_walk scandir progress_callback total_dirs root_path walk st).
Proof.
  revert done st. induction walk as [|[[root dirs] files] walk IH]; intros done st Hmax Hinv.
  { by apply collected_nil. }
  simpl. unfold depth_reached at 1 2. rewrite Hmax.
  fold (depth_reached self root_path root).
  destruct (depth_reached self root_path root); simpl.
  { by apply IH. }
  pose proof (scan_dirs_collected done root (filter (λ d, d ∉ excluded_dirs) dirs) st Hinv)
    as Hd.
  pose proof (scan_dirs_max_depth root (filter (λ d, d ∉ excluded_dirs) dirs) st) as Hm.
  destruct (scan_dirs scandir progress_callback total_dirs root _ st) as [st' [e|]] eqn:Hsd.
  - by apply collected_stop.
  - eapply collected_app; [exact Hd|done|].
    intros done' Hinv'. apply IH; [|done]. simpl in Hm. congruence.
Qed.
End chapters.

Lemma visited_entries_paths self root_path walk :
  map fst (visited_entries self root_path walk) = visited_dirs self root_path walk.
Proof.
  unfold visited_entries, visited_dirs.
  induction walk as [|[[root dirs] files] walk IH]; [done|].
  simpl. rewrite map_app, IH. f_equal.
  destruct (depth_reached self root_path root); [done|].
  by rewrite map_map.
Qed.

Lemma visited_entries_names self root_path walk :
  Forall (λ entry, (snd entry ∉ excluded_dirs) ∧
                   (∃ root dirs files, (root, dirs, files) ∈ walk ∧ snd entry ∈ dirs ∧
                                       fst entry = path_join root (snd entry)))
    (visited_entries self root_path walk).
Proof.
  unfold visited_entries. apply Forall_forall. intros [p n] Hin.
  apply list_elem_of_In, in_flat_map in Hin as ([[root dirs] files] & Hw & Hin).
  apply list_elem_of_In in Hw.
  destruct (depth_reached self root_path root); [by apply in_nil in Hin|].
  apply list_elem_of_In, list_elem_of_fmap in Hin as (d & [= -> ->] & Hd).
  apply list_elem_of_filter in Hd as [Hex Hd]. simpl. split; [done|].
  exists root, dirs, files. done.
Qed.

(** X7 ([scan_for_comic_directories]): what the scan returns. The list
    returned holds, in the order of the walk, the triple
    [(dirname path, path, name)] of every directory the second loop
    classified for which the cache of the scanner answers true, and nothing
    else; the loop classifies the first [k] directories it reaches, all of
    them when no exception escapes. Each directory reached is listed under
    its parent in the walk and its name is not an excluded one. *)
Theorem scan_returns_cached_chapters
    (fs : FsTree) (scandir : string -> outcome (list DirEntry))
    (self : Scanner) (root_path : string) (progress_callback : bool) :
  let walk := os_walk (scan_edit self root_path) root_path fs in
  let entries := visited_entries self root_path walk in
  let r := scan_for_comic_directories fs scandir self root_path progress_callback in
  map fst entries = visited_dirs self root_path walk ∧
  Forall (λ entry, (snd entry ∉ excluded_dirs) ∧
                   (∃ root dirs files, (root, dirs, files) ∈ walk ∧ snd entry ∈ dirs ∧
                                       fst entry = path_join root (snd entry))) entries ∧
  ∃ k, k ≤ length entries ∧ (r.2 = None → k = length entries) ∧
       comic_chapters r.1 = cached_chapters (scan_self r.1) (take k entries) ∧
       Forall (λ entry, is_Some (chapter_cache (scan_self r.1) !! entry.1)) (take k entries).
Proof.
  intros walk entries r.
  split; [apply visited_entries_paths|]. split; [apply visited_entries_names|].
  destruct (scan_walk_collected scandir progress_callback (count_total_dirs walk)
              self root_path walk [] (MkScanState self 0 [] []))
    as (k & Hk & Hall & Hch & Hdom); [done|by split|].
  exists k. done.
Qed.

(** ** The depth limit *)

Lemma os_walk_pruned edit top name files subdirs :
  edit top (map tree_name subdirs) = [] →
  os_walk edit top (FsDir name files subdirs) = [(top, map tree_name subdirs, files)].
Proof.
  intros Hedit. simpl. rewrite Hedit. f_equal. clear Hedit.
  induction subdirs as [|sub l IH]; [done|].
  by rewrite bool_decide_eq_false_2 by apply not_elem_of_nil.
Qed.

(** X8 ([scan_for_comic_directories]): with a depth limit of zero or less
    the scan classifies nothing. It returns the empty list, calls neither
    [is_chapter_directory] nor the progress callback, and leaves the cache
    of the scanner as it is, whatever the tree holds. *)
Theorem scan_at_depth_limit
    (fs : FsTree) (scandir : string -> outcome (list DirEntry))
    (self : Scanner) (root_path : string) (progress_callback : bool) :
  (max_depth self ≤ 0)%Z →
  scan_for_comic_directories fs scandir self root_path progress_callback =
    (MkScanState self 0 [] [], None).
Proof.
  intros Hmax. unfold scan_for_comic_directories.
  assert (depth_reached self root_path root_path = true) as Hd.
  { unfold depth_reached. apply Z.leb_le. lia. }
  destruct fs as [name files subdirs].
  rewrite os_walk_pruned by (unfold scan_edit; by rewrite Hd).
  simpl. by rewrite Hd.
Qed.

Lemma scan_at_depth_limit_witness :
  scan_for_comic_directories
    (FsDir "Comics" [] [FsDir "A" [] [FsDir "1" ["001.jpg"] []]])
    mixed_scandir (MkScanner 0 ∅) "Comics" true =
    (MkScanState (MkScanner 0 ∅) 0 [] [], None).
Proof.
  apply (scan_at_depth_limit _ mixed_scandir (MkScanner 0 ∅) "Comics" true).
  simpl. lia.
Defined.

(** ** The names [is_image_file] accepts *)

Lemma rfind_from_append c a b i found :
  rfind_from c (a +:+ b) i found =
    rfind_from c b (i + Z.of_nat (String.length a)) (rfind_from c a i found).
Proof.
  revert i found. induction a as [|d a IH]; intros i found.
  - change ("" +:+ b) with b. simpl. f_equal. lia.
  - rewrite append_cons. simpl rfind_from. rewrite IH. f_equal.
    change (String.length (String d a)) with (S (String.length a)). lia.
Qed.

Lemma rfind_from_bound c s i found :
  (found < i)%Z → (rfind_from c s i found < i + Z.of_nat (String.length s))%Z.
Proof.
  revert i found. induction s as [|d s IH]; intros i found Hlt; simpl rfind_from.
  - simpl. lia.
  - change (String.length (String d s)) with (S (String.length s)).
    specialize (IH (i + 1)%Z (if Ascii.eqb c d then i else found)).
    destruct (Ascii.eqb c d); lia.
Qed.

Lemma rfind_lower_bound c s i found :
  (-1 ≤ found)%Z → (0 ≤ i)%Z → (-1 ≤ rfind_from c s i found)%Z.
Proof.
  revert i found. induction s as [|d s IH]; intros i found Hf Hi; simpl; [done|].
  apply IH; [destruct (Ascii.eqb c d)|]; lia.
Qed.

Lemma lower_append a b : lower (a +:+ b) = lower a +:+ lower b.
Proof.
  induction a as [|c a IH]; [done|]. rewrite append_cons. simpl.
  by rewrite IH, append_cons.
Qed.

Lemma lower_ascii_sep c : Ascii.eqb sep (lower_ascii c) = Ascii.eqb sep c.
Proof. by destruct c as [[] [] [] [] [] [] [] []]. Qed.

Lemma lower_ascii_extsep c : Ascii.eqb (lower_ascii c) extsep = Ascii.eqb c extsep.
Proof. by destruct c as [[] [] [] [] [] [] [] []]. Qed.

Lemma rfind_sep_lower s i found :
  rfind_from sep (lower s) i found = rfind_from sep s i found.
Proof.
  revert i found. induction s as [|c s IH]; intros i found; [done|].
  cbn [lower rfind_from]. by rewrite lower_ascii_sep, IH.
Qed.

Lemma drop_str_lower n s : drop_str n (lower s) = lower (drop_str n s).
Proof. revert s. induction n as [|n IH]; intros [|c s]; simpl; auto. Qed.

Lemma all_extsep_lower s : all_extsep (lower s) = all_extsep s.
Proof.
  induction s as [|c s IH]; [done|].
  cbn [lower all_extsep]. by rewrite lower_ascii_extsep, IH.
Qed.

Lemma basename_lower_dots s : all_extsep (basename (lower s)) = all_extsep (basename s).
Proof.
  unfold basename, rfind. by rewrite rfind_sep_lower, drop_str_lower, all_extsep_lower.
Qed.

Lemma drop_str_append_le n a b :
  n ≤ String.length a → drop_str n (a +:+ b) = drop_str n a +:+ b.
Proof.
  revert a. induction n as [|n IH]; intros [|c a] Hn; simpl in *; try done; try lia.
  apply IH. lia.
Qed.

Lemma take_str_append a b : take_str (String.length a) (a +:+ b) = a.
Proof.
  induction a as [|c a IH].
  - simpl. by destruct ("" +:+ b).
  - rewrite append_cons. simpl. by rewrite IH.
Qed.

Lemma length_drop_str n s : String.length (drop_str n s) = String.length s - n.
Proof. revert s. induction n as [|n IH]; intros [|c s]; simpl; auto. Qed.

Lemma take_drop_str n s : take_str n s +:+ drop_str n s = s.
Proof.
  revert s. induction n as [|n IH]; intros [|c s]; try done.
  cbn [take_str drop_str]. by rewrite append_cons, IH.
Qed.

Lemma extension_rfind e i found :
  e ∈ image_extensions →
  rfind_from extsep e i found = i ∧ rfind_from sep e i found = found.
Proof.
  unfold image_extensions. intros He.
  repeat (apply elem_of_cons in He as [->|He]; [by split|]).
  by apply elem_of_nil in He.
Qed.

Lemma empty_is_no_extension : "" ∉ image_extensions.
Proof.
  unfold image_extensions. intros He.
  repeat (apply elem_of_cons in He as [He|He]; [done|]).
  by apply elem_of_nil in He.
Qed.

Lemma splitext_extension s e :
  e ∈ image_extensions →
  (splitext (s +:+ e)).2 = if all_extsep (basename s) then "" else e.
Proof.
  intros He. unfold splitext, rfind.
  rewrite !rfind_from_append.
  destruct (extension_rfind e (0 + Z.of_nat (String.length s))
              (rfind_from extsep s 0 (-1)) He) as [-> _].
  destruct (extension_rfind e (0 + Z.of_nat (String.length s))
              (rfind_from sep s 0 (-1)) He) as [_ ->].
  pose proof (rfind_from_bound sep s 0 (-1) eq_refl) as Hub.
  pose proof (rfind_lower_bound sep s 0 (-1)) as Hlb.
  rewrite (proj2 (Z.ltb_lt _ _)) by lia.
  set (fi := Z.to_nat (rfind_from sep s 0 (-1) + 1)).
  assert (fi ≤ String.length s) as Hfi by (unfold fi; lia).
  replace (Z.to_nat (0 + Z.of_nat (String.length s))) with (String.length s) by lia.
  rewrite drop_str_append_le by done.
  replace (String.length s - fi) with (String.length (drop_str fi s))
    by (by rewrite length_drop_str).
  rewrite take_str_append. fold (rfind sep s). fold (basename s).
  unfold basename, rfind. fold fi.
  destruct (all_extsep (drop_str fi s)); [done|]. simpl. apply drop_str_append.
Qed.

Lemma is_image_file_append stem ext :
  lower ext ∈ image_extensions →
  is_image_file (stem +:+ ext) = negb (all_extsep (basename stem)).
Proof.
  intros He. unfold is_image_file.
  rewrite lower_append, splitext_extension, basename_lower_dots by done.
  destruct (all_extsep (basename stem)).
  - apply bool_decide_eq_false_2, empty_is_no_extension.
  - by apply bool_decide_eq_true_2.
Qed.

(** X9 ([is_image_file] of both classes): the names accepted. A path is an
    image file exactly when it is [stem + ext] where [ext], in lower case,
    is one of the eleven image extensions and the last component of [stem]
    is not empty and not made of dots only: the case of the letters does
    not matter, and a name such as [.jpg] or [..png] is not an image. *)
Theorem is_image_file_by_extension (file_path : string) :
  is_image_file file_path = true ↔
  ∃ stem ext, file_path = stem +:+ ext ∧ lower ext ∈ image_extensions ∧
              all_extsep (basename stem) = false.
Proof.
  split.
  - intros Himg.
    assert (∃ n, drop_str n (lower file_path) ∈ image_extensions) as [n Hn].
    { unfold is_image_file in Himg. apply bool_decide_eq_true_1 in Himg.
      unfold splitext in Himg.
      destruct (_ <? _)%Z; [|by apply empty_is_no_extension in Himg].
      destruct (all_extsep _); [by apply empty_is_no_extension in Himg|].
      eauto. }
    rewrite drop_str_lower in Hn.
    exists (take_str n file_path), (drop_str n file_path).
    assert (file_path = take_str n file_path +:+ drop_str n file_path) as Heq
      by (by rewrite take_drop_str).
    split; [done|]. split; [done|].
    rewrite Heq, is_image_file_append in Himg by done.
    by apply negb_true_iff in Himg.
  - intros (stem & ext & -> & He & Hdots).
    by rewrite is_image_file_append, Hdots.
Qed.

(** ** The snapshots of [FileSystemWatcher] *)

Lemma for_each_walked {S} (body : string → M S unit) walk s :
  for_each walk (λ '(root, _, files),
    for_each files (λ file, body (path_join root file))) s
  = for_each (walked_files walk) body s.
Proof.
  revert s. induction walk as [|[[root dirs] files] walk IH]; intros s; [done|].
  unfold walked_files. simpl. rewrite for_each_app.
  unfold mbind, M_bind, bind.
  assert (∀ s0, for_each files (λ file, body (path_join root file)) s0 =
                for_each (map (path_join root) files) body s0) as ->.
  { induction files as [|file files IHf]; intros s0; [done|].
    simpl. unfold mbind, M_bind, bind.
    destruct (body (path_join root file) s0) as [[[]|e] s1]; [apply IHf|done]. }
  destruct (for_each (map (path_join root) files) body s) as [[[]|e] s1]; [apply IH|done].
Qed.

Lemma snapshot_file_spec w p snapshot :
  snapshot_file w p snapshot =
    match w_getmtime w p with
    | Returns t => (Returns tt, <[p := t]> snapshot)
    | Raises e => if getmtime_error_caught e then (Returns tt, snapshot)
                  else (Raises e, snapshot)
    end.
Proof.
  unfold snapshot_file, try_except_if, call, modify, mbind, M_bind, bind.
  by destruct (w_getmtime w p).
Qed.

Lemma snapshot_paths_returns w paths snapshot :
  Forall (mtime_readable w) paths →
  ∃ snapshot', for_each paths (snapshot_file w) snapshot = (Returns tt, snapshot').
Proof.
  revert snapshot. induction paths as [|p paths IH]; intros snapshot Hall; [by eexists|].
  apply Forall_cons in Hall as [Hp Hall]. simpl. unfold mbind, M_bind, bind.
  rewrite snapshot_file_spec. unfold mtime_readable in Hp.
  destruct (w_getmtime w p) as [t|e]; [by apply IH|].
  rewrite Hp. by apply IH.
Qed.

Lemma snapshot_paths_spec w paths snapshot snapshot' u :
  snapshot_sound w snapshot →
  for_each paths (snapshot_file w) snapshot = (Returns u, snapshot') →
  Forall (mtime_readable w) paths ∧
  ∀ p t, snapshot' !! p = Some t ↔
         snapshot !! p = Some t ∨ (p ∈ paths ∧ w_getmtime w p = Returns t).
Proof.
  revert snapshot. induction paths as [|p0 paths IH]; intros snapshot Hsound Hloop.
  { simpl in Hloop. injection Hloop as _ <-. split; [done|].
    intros p t. split; [by left|]. intros [?|[[]%elem_of_nil _]]. done. }
  simpl in Hloop. unfold mbind, M_bind, bind in Hloop.
  rewrite snapshot_file_spec in Hloop.
  destruct (w_getmtime w p0) as [t0|e] eqn:Hp0.
  - apply IH in Hloop as [Hall Hspec].
    2:{ intros p t [[-> ->]|[_ Hp]]%lookup_insert_Some; [done|by apply Hsound]. }
    split; [constructor; [by unfold mtime_readable; rewrite Hp0|done]|].
    intros p t. rewrite Hspec, lookup_insert_Some, elem_of_cons. split.
    + intros [[[-> ->]|[Hne Hp]]|[Hin Hp]]; [right|by left|right]; eauto.
    + intros [Hp|[[->|Hin] Hp]].
      * destruct (decide (p0 = p)) as [->|Hne]; [|by left; right].
        apply Hsound in Hp. left. left. split; [done|]. congruence.
      * left. left. split; [done|]. congruence.
      * by right.
  - destruct (getmtime_error_caught e) eqn:He; [|done].
    apply IH in Hloop as [Hall Hspec]; [|done].
    split; [constructor; [by unfold mtime_readable; rewrite Hp0|done]|].
    intros p t. rewrite Hspec, elem_of_cons. split.
    + intros [Hp|[Hin Hp]]; [by left|right; eauto].
    + intros [Hp|[[->|Hin] Hp]]; [by left|congruence|by right].
Qed.

Lemma snapshot_directory_unfold (w : World) (directory : string) :
  snapshot_directory w directory =
    match for_each (walked_files (walk_of w directory)) (snapshot_file w) ∅ with
    | (Returns _, snapshot) => Returns snapshot
    | (Raises e, _) => Raises e
    end.
Proof.
  unfold snapshot_directory, snapshot_loop. cbv zeta.
  by rewrite (for_each_walked (snapshot_file w)).
Qed.

Lemma snapshot_directory_lookup (w : World) (directory : string) snapshot p t :
  snapshot_directory w directory = Returns snapshot →
  snapshot !! p = Some t ↔
  p ∈ walked_files (walk_of w directory) ∧ w_getmtime w p = Returns t.
Proof.
  rewrite snapshot_directory_unfold. intros Hs.
  destruct (for_each _ (snapshot_file w) ∅) as [[[]|e] s] eqn:Hloop; [|done].
  injection Hs as ->.
  apply snapshot_paths_spec in Hloop as [_ Hspec]; [|done].
  rewrite Hspec, lookup_empty. split; [by intros [?|?]|by right].
Qed.

(** X10 ([snapshot_directory]): the dictionary returned. The call returns
    exactly when no [os.path.getmtime] fails with an exception other than
    [FileNotFoundError] and [PermissionError]; the dictionary then maps a
    path to a time exactly when the path is that of a file below the
    directory and [os.path.getmtime] answers that time for it: a file whose
    time cannot be read is left out. *)
Theorem snapshot_directory_records_readable_files (w : World) (directory : string) :
  let files := walked_files (walk_of w directory) in
  (Forall (mtime_readable w) files ↔
   ∃ snapshot, snapshot_directory w directory = Returns snapshot) ∧
  ∀ snapshot, snapshot_directory w directory = Returns snapshot →
    ∀ p t, snapshot !! p = Some t ↔ p ∈ files ∧ w_getmtime w p = Returns t.
Proof.
  intros files. split; [|intros snapshot Hs p t; by apply snapshot_directory_lookup].
  rewrite snapshot_directory_unfold. fold files. split.
  - intros Hall. destruct (snapshot_paths_returns w files ∅ Hall) as [snapshot ->]. eauto.
  - intros [snapshot Hs].
    destruct (for_each files (snapshot_file w) ∅) as [[[]|e] s] eqn:Hloop; [|done].
    by apply snapshot_paths_spec in Hloop as [Hall _].
Qed.

Lemma is_changed_same (snapshot : gmap string Q) p t :
  snapshot !! p = Some t → is_changed snapshot p t = false.
Proof.
  intros Hp. unfold is_changed. rewrite Hp.
  apply negb_false_iff, Qle_bool_iff, Qle_refl.
Qed.

(** X11 ([get_changed_files]): what is reported, and that a second look
    finds nothing. When the call returns, the set holds exactly the files
    below the directory whose time can be read and that are new to the
    watcher or have a later time than the one it remembered (a file that
    was removed is never reported); and a call repeated on the same file
    system returns the empty set and leaves the watcher as it is. *)
Theorem get_changed_files_then_unchanged
    (w : World) (self self' : Watcher) (directory : string) (changed : gset string) :
  get_changed_files w self directory = (Returns changed, self') →
  (∀ p, p ∈ changed ↔
        ∃ t, p ∈ walked_files (walk_of w directory) ∧ w_getmtime w p = Returns t ∧
             is_changed (last_modified_times self) p t = true) ∧
  get_changed_files w self' directory = (Returns ∅, self').
Proof.
  unfold get_changed_files.
  destruct (snapshot_directory w directory) as [snapshot|e] eqn:Hsnap; [|done].
  intros [= <- <-].
  split.
  - intros p. rewrite elem_of_dom. unfold is_Some.
    setoid_rewrite map_lookup_filter_Some. simpl.
    setoid_rewrite (snapshot_directory_lookup w directory snapshot p _ Hsnap).
    split; intros (t & Hin & Hc); exists t; tauto.
  - simpl. rewrite map_empty_filter_2; [by rewrite dom_empty_L|].
    intros p t Hp. simpl. by rewrite (is_changed_same snapshot p t Hp).
Qed.

Lemma get_changed_files_then_unchanged_witness :
  (∀ p, p ∈ watched_changes ↔
        ∃ t, p ∈ walked_files (walk_of watched_world "Comics/A/1") ∧
             w_getmtime watched_world p = Returns t ∧
             is_changed (last_modified_times new_watcher) p t = true) ∧
  get_changed_files watched_world (MkWatcher watched_snapshot) "Comics/A/1" =
    (Returns ∅, MkWatcher watched_snapshot).
Proof.
  apply (get_changed_files_then_unchanged watched_world new_watcher).
  vm_compute. reflexivity.
Defined.

(** ** [count_images_in_directory] when a size cannot be read *)

Lemma count_loop_raises w (p f : string) (post : list (string * string)) (e : Exc)
    (count total_size : nat) :
  w_getsize w p = Raises e →
  for_each ((p, f) :: post) (λ '(file_path, _),
      modify (λ '(count, total_size), (count + 1, total_size));;
      size ← call (w_getsize w file_path);
      modify (λ '(count, total_size), (count, total_size + size)))
    (count, total_size)
  = (Raises e, (count + 1, total_size)).
Proof.
  intros Hp. simpl. unfold mbind, M_bind, bind, modify, call. by rewrite Hp.
Qed.

(** X12 ([count_images_in_directory]): the partial result. When
    [os.path.getsize] raises on an image file, the count covers the image
    files met before it and that file itself, the size covers only those
    met before it, and the files after it are not counted: the exception is
    swallowed and the pair reached is returned. *)
Theorem count_images_stops_at_unreadable_file
    (w : World) (directory : string) (pre post : list (string * string))
    (p f : string) (sizes : list nat) (e : Exc) :
  image_files (walk_of w directory) = pre ++ (p, f) :: post →
  Forall2 (λ '(file_path, _) size, w_getsize w file_path = Returns size) pre sizes →
  w_getsize w p = Raises e →
  count_images_in_directory w directory = (length pre + 1, sum_list sizes).
Proof.
  intros Himages Hpre Hp. unfold count_images_in_directory, try_except, count_images_loop.
  rewrite (for_each_images (λ file_path file,
             modify (λ '(count, total_size), (count + 1, total_size));;
             size ← call (w_getsize w file_path);
             modify (λ '(count, total_size), (count, total_size + size)))).
  rewrite Himages, for_each_app. unfold mbind at 1, M_bind at 1, bind at 1.
  erewrite (count_loop_returns w pre sizes 0 0) by (eapply Forall2_impl; [exact Hpre|by intros []]).
  rewrite (count_loop_raises w p f post e) by done.
  done.
Qed.

Lemma count_images_stops_at_unreadable_file_witness :
  count_images_in_directory unreadable_world "Comics/A/1" =
    (length [("Comics/A/1/001.jpg", "001.jpg")] + 1, sum_list [18]).
Proof.
  apply (count_images_stops_at_unreadable_file unreadable_world "Comics/A/1"
           [("Comics/A/1/001.jpg", "001.jpg")] [("Comics/A/1/extra/002.PNG", "002.PNG")]
           "Comics/A/1/extra/001.jpg" "001.jpg" [18]
           (MkExc PermissionError "Comics/A/1/extra/001.jpg")).
  - reflexivity.
  - repeat constructor.
  - reflexivity.
Defined.

(** ** What [compress_directory] leaves alone *)

Section preserves.
Context {X : Type} (f : CdState → X).

Lemma preserves_ret {A} (a : A) : preserves f (mret a).
Proof. by intros s o s' [= <- <-]. Qed.

Lemma preserves_bind {A B} (m : M CdState A) (k : A → M CdState B) :
  preserves f m → (∀ a, preserves f (k a)) → preserves f (m ≫= k).
Proof.
  intros Hm Hk s o s'. unfold mbind, M_bind, bind.
  destruct (m s) as [[a|e] s1] eqn:Hms.
  - intros Hks. rewrite (Hk a _ _ _ Hks). by eapply Hm.
  - intros [= <- <-]. by eapply Hm.
Qed.

Lemma preserves_modify (g : CdState → CdState) :
  (∀ s, f (g s) = f s) → preserves f (modify g).
Proof. intros Hg s o s' [= <- <-]. apply Hg. Qed.

Lemma preserves_call {A} (r : outcome A) : preserves f (call r).
Proof. by intros s o s' [= <- <-]. Qed.

Lemma preserves_attempt (failure : option Exc) : preserves f (attempt failure).
Proof. destruct failure; by intros s o s' [= <- <-]. Qed.

Lemma preserves_the_task : preserves f the_task.
Proof. by intros s o s' [= <- <-]. Qed.

Lemma preserves_for_each {A} (xs : list A) (body : A → M CdState unit) :
  (∀ x, preserves f (body x)) → preserves f (for_each xs body).
Proof.
  intros Hbody. induction xs as [|x xs IH]; simpl.
  - apply preserves_ret.
  - apply preserves_bind; [apply Hbody|by intros _].
Qed.

Lemma preserves_with_exit {A} (body : M CdState A) (exit : M CdState unit) :
  preserves f body → preserves f exit → preserves f (with_exit body exit).
Proof.
  intros Hbody Hexit s o s'. unfold with_exit.
  destruct (body s) as [[a|e] s1] eqn:Hb; destruct (exit s1) as [[u|e'] s2] eqn:Hx;
    intros [= <- <-]; rewrite (Hexit _ _ _ Hx); by eapply Hbody.
Qed.
End preserves.

Ltac preserved :=
  repeat first
    [ apply preserves_ret
    | apply preserves_call
    | apply preserves_attempt
    | apply preserves_the_task
    | apply preserves_modify; by intros []
    | apply preserves_with_exit
    | apply preserves_for_each; intros ?
    | apply preserves_bind; [|intros ?]
    | match goal with
      | |- preserves _ (if ?b then _ else _) => destruct b
      | |- preserves _ (let '(_, _) := ?x in _) => destruct x
      | |- preserves _ (match ?x with _ => _ end) => destruct x
      end ].

Lemma compress_try_config w : preserves task_config (compress_try w).
Proof.
  unfold compress_try, zipf_open, zipf_close, zipf_write, os_remove, os_rename, shutil_rmtree.
  preserved.
Qed.

Lemma removes_bind {A B} src (m : M CdState A) (k : A → M CdState B) :
  preserves cd_removed m → (∀ a, removes_on_return src (k a)) →
  removes_on_return src (m ≫= k).
Proof.
  intros Hm Hk s o s'. unfold mbind, M_bind, bind.
  destruct (m s) as [[a|e] s1] eqn:Hms.
  - intros Hks Hnil. eapply Hk; [exact Hks|]. by rewrite (Hm _ _ _ Hms).
  - intros [= <- <-] Hnil. by rewrite (Hm _ _ _ Hms).
Qed.

Lemma removes_rmtree w src (g : CompressionTask → CompressionTask) :
  removes_on_return src (shutil_rmtree w src;; modify (on_task g)).
Proof.
  intros s o s'. unfold shutil_rmtree, mbind, M_bind, bind, attempt, modify.
  destruct (w_rmtree w src); simpl; intros [= <- <-] Hnil; simpl; by rewrite ?Hnil.
Qed.

Lemma compress_try_removed w s o s' :
  compress_try w s = (o, s') → cd_removed s = [] →
  match o with
  | Returns _ => cd_removed s' = [source_path (cd_task s)]
  | Raises _ => cd_removed s' = []
  end.
Proof.
  unfold compress_try.
  change ((the_task ≫= ?k) s) with (k (cd_task s) s).
  generalize (cd_task s). intros task. revert s o s'.
  fold (removes_on_return (A:=unit) (source_path task)).
  unfold zipf_open, zipf_close, zipf_write, os_remove, os_rename.
  destruct (count_images_in_directory w (source_path task)) as [n size].
  repeat (apply removes_bind; [by preserved|intros ?]).
  apply removes_rmtree.
Qed.

(** X13 ([compress_directory]): what a call never touches, and when the
    source directory goes. Whatever the file system answers, the task keeps
    its source path, its options (time stamps, level, renaming) and the
    start time set at line 105; and [shutil.rmtree] has returned for the
    source directory exactly when the task ends completed: a task that
    ends failed has not removed its source directory (a call of
    [shutil.rmtree] that raises is taken to remove nothing). *)
Theorem compress_directory_removes_source_only_on_success
    (w : World) (t0 t1 : Q) (task : CompressionTask) :
  let r := compress_directory w t0 t1 task in
  let result := cd_task r.2 in
  source_path result = source_path task ∧
  preserve_timestamp result = preserve_timestamp task ∧
  compression_level result = compression_level task ∧
  rename_pattern result = rename_pattern task ∧
  start_time result = Some t0 ∧
  cd_removed r.2 = (if bool_decide (status result = Completed) then [source_path task] else []).
Proof.
  intros r result. subst r result. rewrite compress_directory_unfold.
  pose proof (compress_try_config w (MkCd (compress_begin t0 task) [] ∅ [])) as Hconfig.
  pose proof (compress_try_removed w (MkCd (compress_begin t0 task) [] ∅ [])) as Hremoved.
  pose proof (compress_try_ends_completed w (MkCd (compress_begin t0 task) [] ∅ [])) as Hok.
  destruct (compress_try w (MkCd (compress_begin t0 task) [] ∅ [])) as [[[]|e] s'].
  - specialize (Hconfig _ _ eq_refl). specialize (Hremoved _ _ eq_refl eq_refl).
    specialize (Hok _ eq_refl). unfold task_config in Hconfig. simpl in *.
    injection Hconfig as -> -> -> -> ->. rewrite Hok. done.
  - specialize (Hconfig _ _ eq_refl). specialize (Hremoved _ _ eq_refl eq_refl).
    unfold task_config in Hconfig. simpl in *.
    injection Hconfig as -> -> -> -> ->. done.
Qed.

(** ** A call of [compress_directory] that completes *)

Lemma compress_try_returns w task0 u s' :
  compress_try w (MkCd task0 [] ∅ []) = (Returns u, s') →
  ∃ src_mtime h csize,
    w_getmtime w (source_path task0) = Returns src_mtime ∧
    (w_exists w (final_target_path w task0) = true → w_remove w (final_target_path w task0) = None) ∧
    w_rename w (target_path task0 +:+ ".temp") (final_target_path w task0) = None ∧
    (preserve_timestamp task0 = true →
     w_utime w (final_target_path w task0) src_mtime = None) ∧
    w_md5 w (final_target_path w task0) = Returns h ∧
    w_getsize w (final_target_path w task0) = Returns csize ∧
    w_rmtree w (source_path task0) = None ∧
    target_path (cd_task s') = final_target_path w task0 ∧
    md5 (cd_task s') = Some h ∧
    compressed_size (cd_task s') = csize ∧
    error (cd_task s') = error task0 ∧
    cd_archives s' !! (target_path task0 +:+ ".temp") = None ∧
    is_Some (cd_archives s' !! final_target_path w task0).
Proof.
  intros Htry. unfold compress_try in Htry.
  apply bind_returns in Htry as (task & s1 & [-> ->]%the_task_returns & Htry).
  cbn [cd_task] in Htry.
  destruct (count_images_in_directory w (source_path task0)) as [n size] eqn:Hcount.
  cbv zeta in Htry.
  apply bind_returns in Htry as (u1 & s1 & ->%modify_returns & Htry).
  apply bind_returns in Htry as (src_mtime & s2 & [Hmtime ->]%call_returns & Htry).
  apply bind_returns in Htry as (u3 & s3 & Hopen & Htry).
  unfold zipf_open in Hopen.
  apply bind_returns in Hopen as (u4 & s4 & [_ ->]%attempt_returns & ->%modify_returns).
  apply bind_returns in Htry as (u5 & s5 & Hwith & Htry).
  apply with_exit_returns in Hwith as (s6 & u6 & Hloop & Hclose).
  rewrite (for_each_images (zipf_write w)) in Hloop.
  destruct u5. apply zip_loop_returns in Hloop as (sizes & Hsizes & ->).
  unfold zipf_close in Hclose.
  apply bind_returns in Hclose as (u7 & s7 & [_ ->]%attempt_returns & ->%modify_returns).
  cbn [cd_task cd_zipf cd_archives cd_removed on_task app] in Htry.
  apply bind_returns in Htry as (u8 & s8 & Hremove & Htry).
  apply bind_returns in Htry as (u9 & s9 & Hrename & Htry).
  unfold os_rename in Hrename.
  apply bind_returns in Hrename as (u10 & s10 & [Hren ->]%attempt_returns & ->%modify_returns).
  apply bind_returns in Htry as (u11 & s11 & ->%modify_returns & Htry).
  apply bind_returns in Htry as (u12 & s12 & Hutime & Htry).
  apply bind_returns in Htry as (h & s13 & [Hmd5 ->]%call_returns & Htry).
  apply bind_returns in Htry as (u14 & s14 & ->%modify_returns & Htry).
  apply bind_returns in Htry as (csize & s15 & [Hcsize ->]%call_returns & Htry).
  apply bind_returns in Htry as (u16 & s16 & ->%modify_returns & Htry).
  apply bind_returns in Htry as (u17 & s17 & Hrm & ->%modify_returns).
  unfold shutil_rmtree in Hrm.
  apply bind_returns in Hrm as (u18 & s18 & [Hrmtree ->]%attempt_returns & ->%modify_returns).
  set (temp := target_path task0 +:+ ".temp") in *.
  assert ((w_exists w (final_target_path w task0) = true →
           w_remove w (final_target_path w task0) = None) ∧
          cd_task s8 = set_counts n size task0 ∧
          is_Some (cd_archives s8 !! temp)) as (Hrem & Ht8 & [entries Ha8]).
  { destruct (w_exists w (final_target_path w task0)).
    - unfold os_remove in Hremove.
      apply bind_returns in Hremove as (? & ? & [Hr ->]%attempt_returns & ->%modify_returns).
      split; [done|]. split; [done|]. cbn [cd_archives].
      rewrite lookup_delete_ne by (intros Heq; by apply (temp_is_not_final w task0)).
      rewrite lookup_insert_eq. eauto.
    - apply mret_returns in Hremove as [_ ->]. split; [done|]. split; [done|].
      cbn [cd_archives]. rewrite lookup_insert_eq. eauto. }
  rewrite Ha8 in Hutime.
  assert ((preserve_timestamp task0 = true →
           w_utime w (final_target_path w task0) src_mtime = None) ∧
          s12 = on_task (set_target_path (final_target_path w task0))
            (MkCd (cd_task s8) (cd_zipf s8)
               (<[final_target_path w task0 := entries]> (delete temp (cd_archives s8)))
               (cd_removed s8))) as [Hut ->].
  { destruct (preserve_timestamp task0).
    - by apply attempt_returns in Hutime as [? ->].
    - by apply mret_returns in Hutime as [_ ->]. }
  exists src_mtime, h, csize.
  cbn [cd_task cd_zipf cd_archives cd_removed on_task]. rewrite Ht8.
  repeat split; try done.
  - rewrite lookup_insert_ne by (intros Heq; by apply (temp_is_not_final w task0)).
    by rewrite lookup_delete_eq.
  - rewrite lookup_insert_eq. eauto.
Qed.

(** X14 ([compress_directory]): what holds when the task ends completed.
    The archive is under its final name and no longer under the temporary
    one; an archive that was in the way had been removed; the task records
    the final path, the MD5 and the size that the file system answers for
    the final archive; the time of the source directory was read and, when
    time stamps are preserved, set on the archive; the error field is
    untouched and the source directory was removed. *)
Theorem compress_directory_completed
    (w : World) (t0 t1 : Q) (task : CompressionTask) :
  let r := compress_directory w t0 t1 task in
  let result := cd_task r.2 in
  let final := final_target_path w task in
  status result = Completed →
  target_path result = final ∧
  is_Some (cd_archives r.2 !! final) ∧
  cd_archives r.2 !! (target_path task +:+ ".temp") = None ∧
  (w_exists w final = true → w_remove w final = None) ∧
  w_md5 w final = Returns (default "" (md5 result)) ∧ is_Some (md5 result) ∧
  w_getsize w final = Returns (compressed_size result) ∧
  (∃ src_mtime, w_getmtime w (source_path task) = Returns src_mtime ∧
                (preserve_timestamp task = true → w_utime w final src_mtime = None)) ∧
  w_rmtree w (source_path task) = None ∧
  error result = error task.
Proof.
  intros r result final. subst r result final. rewrite compress_directory_unfold.
  destruct (compress_try w (MkCd (compress_begin t0 task) [] ∅ []))
    as [[[]|e] s'] eqn:Htry; simpl; [|done].
  intros _. apply compress_try_returns in Htry
    as (src_mtime & h & csize & Hmt & Hrem & Hren & Hut & Hmd5 & Hcs & Hrm & Htp & Hh & Hc &
        Herr & Htemp & Hfinal).
  change (final_target_path w (compress_begin t0 task)) with (final_target_path w task) in *.
  change (target_path (compress_begin t0 task)) with (target_path task) in *.
  change (source_path (compress_begin t0 task)) with (source_path task) in *.
  change (preserve_timestamp (compress_begin t0 task)) with (preserve_timestamp task) in *.
  change (error (compress_begin t0 task)) with (error task) in *.
  rewrite Hh, Hc. simpl. repeat split; try done; eauto.
Qed.

Lemma compress_directory_completed_witness :
  let task := new_task "Comics/A/1" "Comics/A/12.zip" true 8 true in
  let r := compress_directory nested_world 1 2 task in
  let result := cd_task r.2 in
  let final := final_target_path nested_world task in
  target_path result = final ∧
  is_Some (cd_archives r.2 !! final) ∧
  cd_archives r.2 !! (target_path task +:+ ".temp") = None ∧
  (w_exists nested_world final = true → w_remove nested_world final = None) ∧
  w_md5 nested_world final = Returns (default "" (md5 result)) ∧ is_Some (md5 result) ∧
  w_getsize nested_world final = Returns (compressed_size result) ∧
  (∃ src_mtime, w_getmtime nested_world (source_path task) = Returns src_mtime ∧
                (preserve_timestamp task = true → w_utime nested_world final src_mtime = None)) ∧
  w_rmtree nested_world (source_path task) = None ∧
  error result = error task.
Proof.
  apply (compress_directory_completed nested_world 1 2
           (new_task "Comics/A/1" "Comics/A/12.zip" true 8 true)).
  vm_compute. reflexivity.
Defined.

(** ** The renaming rule *)

Lemma drop_str_add_append (a b : string) (k : nat) :
  drop_str (String.length a + k) (a +:+ b) = drop_str k b.
Proof. induction a as [|c a IH]; [done|]. rewrite append_cons. exact IH. Qed.

Lemma span_decimal_digits (w : World) (number rest : string) :
  all_digits number = true →
  span_decimal w rest = (EmptyString, rest) →
  span_decimal w (number +:+ rest) = (number, rest).
Proof.
  intros Hdigits Hrest. induction number as [|c number IH]; [done|].
  cbn [all_digits] in Hdigits. apply andb_prop in Hdigits as [Hc Hdigits].
  rewrite append_cons. cbn [span_decimal]. rewrite (IH Hdigits).
  rewrite Hc. unfold is_digit in Hc.
  apply andb_prop in Hc as [Hlo%Nat.leb_le Hhi%Nat.leb_le].
  by rewrite (proj2 (Nat.ltb_lt _ _)) by lia.
Qed.

Lemma number_only_match_digits (w : World) (number : string) :
  all_digits number = true → number ≠ "" →
  number_only_match w (number +:+ ".zip") = Some number.
Proof.
  intros Hdigits Hne. unfold number_only_match.
  rewrite (span_decimal_digits w number ".zip") by done.
  destruct number; [done|]. done.
Qed.

(** X15 ([compress_directory], lines 129 to 137): the renaming rule. When
    renaming is asked for and the base name of the target is a non-empty
    run of ASCII digits followed by [.zip], the archive goes to the
    directory of the target under the chapter name made of those digits
    (leading zeros kept); when renaming is not asked for, it goes to the
    target path. *)
Theorem final_target_path_renames_numbers
    (w : World) (task : CompressionTask) (number : string) :
  basename (target_path task) = number +:+ ".zip" →
  all_digits number = true →
  number ≠ "" →
  final_target_path w task =
    if rename_pattern task
    then path_join (dirname (target_path task)) (chapter_name number)
    else target_path task.
Proof.
  intros Hbase Hdigits Hne. unfold final_target_path.
  destruct (rename_pattern task); [|done].
  by rewrite Hbase, number_only_match_digits.
Qed.

Lemma final_target_path_renames_numbers_witness :
  final_target_path quiet_world (new_task "Comics/A/007" "Comics/A/007.zip" true 8 true) =
    path_join (dirname "Comics/A/007.zip") (chapter_name "007").
Proof.
  apply (final_target_path_renames_numbers quiet_world
           (new_task "Comics/A/007" "Comics/A/007.zip" true 8 true) "007").
  - reflexivity.
  - reflexivity.
  - discriminate.
Defined.

(** The digits of the rule are those of Unicode: a target named with
    full-width digits is renamed as well, and the digits are kept as they
    are in the chapter name. Bytes that are not UTF-8 are no digits. *)
Example full_width_number_is_renamed :
  final_target_path quiet_world
    (new_task "Comics/A/12" ("Comics/A/" +:+ full_width_12 +:+ ".zip") true 8 true) =
    path_join "Comics/A" (chapter_name full_width_12) ∧
  number_only_match quiet_world ("1" +:+ full_width_12 +:+ ".zip") =
    Some ("1" +:+ full_width_12) ∧
  number_only_match quiet_world (overlong_1 +:+ ".zip") = None.
Proof. repeat split; vm_compute; reflexivity. Qed.

(** ** The totals of the report *)

Lemma add_task_result_totals (task : CompressionTask) (r : ReportGenerator) :
  let r' := add_task_result task r in
  let done := if bool_decide (status task = Completed) then 1 else 0 in
  total_chapters (summary r') = total_chapters (summary r) + done ∧
  total_images (summary r') = total_images (summary r) + done * image_count task ∧
  total_original_size (summary r') = total_original_size (summary r) + done * original_size task ∧
  total_compressed_size (summary r') =
    total_compressed_size (summary r) + done * compressed_size task ∧
  failed_tasks (summary r') =
    failed_tasks (summary r) + (if bool_decide (status task = Failed) then 1 else 0) ∧
  map row_source_path (task_results r') = map row_source_path (task_results r) ++ [source_path task] ∧
  map row_status (task_results r') = map row_status (task_results r) ++ [status task].
Proof.
  unfold add_task_result. cbv zeta. cbn [task_results summary]. rewrite !map_app.
  destruct (status task); simpl; repeat split; lia.
Qed.

Lemma report_of_totals (ts : list CompressionTask) (r : ReportGenerator) :
  let r' := report_of ts r in
  let completed := filter (λ t, status t = Completed) ts in
  total_chapters (summary r') = total_chapters (summary r) + length completed ∧
  total_images (summary r') = total_images (summary r) + sum_of image_count completed ∧
  total_original_size (summary r') =
    total_original_size (summary r) + sum_of original_size completed ∧
  total_compressed_size (summary r') =
    total_compressed_size (summary r) + sum_of compressed_size completed ∧
  failed_tasks (summary r') =
    failed_tasks (summary r) + length (filter (λ t, status t = Failed) ts) ∧
  map row_source_path (task_results r') = map row_source_path (task_results r) ++ map source_path ts ∧
  map row_status (task_results r') = map row_status (task_results r) ++ map status ts.
Proof.
  revert r. induction ts as [|t ts IH]; intros r; cbv zeta.
  { simpl. rewrite !app_nil_r. repeat split; lia. }
  unfold report_of in *. simpl foldl.
  destruct (IH (add_task_result t r)) as (Hc & Hi & Ho & Hz & Hf & Hp & Hs).
  destruct (add_task_result_totals t r) as (Hc1 & Hi1 & Ho1 & Hz1 & Hf1 & Hp1 & Hs1).
  rewrite Hc, Hi, Ho, Hz, Hf, Hp, Hs, Hc1, Hi1, Ho1, Hz1, Hf1, Hp1, Hs1.
  rewrite !filter_cons. rewrite <- !app_assoc. simpl.
  destruct (status t); simpl; repeat split; lia.
Qed.

(** X16 ([add_task_result] with [get_stats]): the report and the statistics
    of the pool agree. After every task of the manager has been added to a
    new report, the summary holds the totals that [get_stats] computes
    (images, original and compressed sizes of the completed tasks, number of
    failed tasks), its number of chapters is the number of completed tasks,
    and there is one row for each task, in order, with its source path and
    status. *)
Theorem report_agrees_with_get_stats (self : Manager) :
  let report := report_of (tasks self) new_report in
  let stats := get_stats self in
  total_images (summary report) = s_total_images stats ∧
  total_original_size (summary report) = s_total_original_size stats ∧
  total_compressed_size (summary report) = s_total_compressed_size stats ∧
  failed_tasks (summary report) = s_failed_tasks stats ∧
  total_chapters (summary report) =
    length (filter (λ t, status t = Completed) (tasks self)) ∧
  map row_source_path (task_results report) = map source_path (tasks self) ∧
  map row_status (task_results report) = map status (tasks self).
Proof.
  intros report stats.
  destruct (report_of_totals (tasks self) new_report) as (Hc & Hi & Ho & Hz & Hf & Hp & Hs).
  subst report stats. by rewrite Hc, Hi, Ho, Hz, Hf, Hp, Hs.
Qed.

(** ** The times of the report *)

Section pick_time.
Variable better : Q → Q → bool.
Variable le : Q → Q → Prop.
Hypothesis le_refl : ∀ x, le x x.
Hypothesis le_trans : ∀ x y z, le x y → le y z → le x z.
Hypothesis better_le : ∀ x y, better x y = true → le x y.
Hypothesis worse_le : ∀ x y, better x y = false → le y x.

Lemma pick_time_spec (current new : option Q) :
  let r := pick_time better current new in
  (r = current ∨ r = new) ∧
  (∀ c, current = Some c → truthy current = true →
        ∃ s, r = Some s ∧ truthy r = true ∧ le s c) ∧
  (∀ q, new = Some q → truthy new = true →
        ∃ s, r = Some s ∧ truthy r = true ∧ le s q).
Proof.
  unfold pick_time. destruct (truthy current) eqn:Hc; simpl.
  - destruct (truthy new) eqn:Hn; simpl.
    + destruct new as [x|]; [|done]. destruct current as [y|]; [|done].
      destruct (better x y) eqn:Hb.
      * split; [by right|]. split.
        -- intros c [= <-] _. exists x. eauto.
        -- intros q [= <-] _. exists x. eauto.
      * split; [by left|]. split.
        -- intros c [= <-] _. exists y. eauto.
        -- intros q [= <-] _. exists y. eauto.
    + split; [by left|]. split; [|done].
      intros c -> _. exists c. eauto.
  - split; [by right|]. split; [done|].
    intros q -> Hq. exists q. eauto.
Qed.

Lemma fold_pick_time (times : list (option Q)) (current : option Q) :
  let r := foldl (pick_time better) current times in
  (r = current ∨ r ∈ times) ∧
  (∀ c, current = Some c → truthy current = true →
        ∃ s, r = Some s ∧ truthy r = true ∧ le s c) ∧
  (∀ q, Some q ∈ times → truthy (Some q) = true →
        ∃ s, r = Some s ∧ truthy r = true ∧ le s q).
Proof.
  revert current. induction times as [|new times IH]; intros current; cbv zeta.
  { simpl. split; [by left|]. split; [eauto|]. by intros q ?%elem_of_nil. }
  simpl foldl.
  destruct (IH (pick_time better current new)) as (Hsrc & Hcur & Hnew).
  destruct (pick_time_spec current new) as (Hsrc1 & Hcur1 & Hnew1).
  split; [|split].
  - destruct Hsrc as [Heq|Hin]; [rewrite Heq|by right; right].
    destruct Hsrc1 as [Heq1|Heq1]; rewrite Heq1; [by left|right; by left].
  - intros c Hc Htc. destruct (Hcur1 c Hc Htc) as (s1 & Hs1 & Ht1 & Hle1).
    destruct (Hcur s1 Hs1 Ht1) as (s & Hs & Ht & Hle). exists s. eauto.
  - intros q [<-|Hin]%elem_of_cons Hq.
    + destruct (Hnew1 q eq_refl Hq) as (s1 & Hs1 & Ht1 & Hle1).
      destruct (Hcur s1 Hs1 Ht1) as (s & Hs & Ht & Hle). exists s. eauto.
    + by apply Hnew.
Qed.
End pick_time.

Lemma report_of_start_time (ts : list CompressionTask) (r : ReportGenerator) :
  summary_start_time (summary (report_of ts r)) =
    foldl (pick_time Qlt_bool) (summary_start_time (summary r)) (map start_time ts).
Proof.
  revert r. induction ts as [|t ts IH]; intros r; [done|].
  unfold report_of in *. simpl. rewrite IH. f_equal.
  unfold add_task_result, pick_time, time_lt, Qlt_bool. cbv zeta. cbn [summary].
  by destruct (status t).
Qed.

Lemma report_of_end_time (ts : list CompressionTask) (r : ReportGenerator) :
  summary_end_time (summary (report_of ts r)) =
    foldl (pick_time (λ x y, Qlt_bool y x)) (summary_end_time (summary r)) (map end_time ts).
Proof.
  revert r. induction ts as [|t ts IH]; intros r; [done|].
  unfold report_of in *. simpl. rewrite IH. f_equal.
  unfold add_task_result, pick_time, time_lt, Qlt_bool. cbv zeta. cbn [summary].
  destruct (status t); simpl;
    destruct (summary_end_time (summary r)), (end_time t); done.
Qed.

Lemma Qlt_bool_le x y : Qlt_bool x y = true → (x <= y)%Q.
Proof.
  unfold Qlt_bool. intros Hb%negb_true_iff.
  apply Qlt_le_weak, Qnot_le_lt. intros Hle%Qle_bool_iff. congruence.
Qed.

Lemma Qlt_bool_ge x y : Qlt_bool x y = false → (y <= x)%Q.
Proof. unfold Qlt_bool. intros Hb%negb_false_iff. by apply Qle_bool_iff. Qed.

(** X17 ([add_task_result]): the period of the report. After the tasks
    have been added to a new report, the start time of the summary is the
    start time of one of them and is not later than that of any task whose
    start time is set (and not zero); the end time is the end time of one
    of them and is not earlier than that of any task whose end time is set
    (and not zero). *)
Theorem report_spans_the_tasks (ts : list CompressionTask) (t : CompressionTask) :
  t ∈ ts →
  let s := summary (report_of ts new_report) in
  (∀ b, start_time t = Some b → ¬ (b == 0)%Q →
        ∃ first, summary_start_time s = Some first ∧ (first <= b)%Q ∧
                 ∃ t', t' ∈ ts ∧ start_time t' = Some first) ∧
  (∀ e, end_time t = Some e → ¬ (e == 0)%Q →
        ∃ last, summary_end_time s = Some last ∧ (e <= last)%Q ∧
                ∃ t', t' ∈ ts ∧ end_time t' = Some last).
Proof.
  intros Hin s. subst s. rewrite report_of_start_time, report_of_end_time. simpl.
  assert (∀ q, ¬ (q == 0)%Q → truthy (Some q) = true) as Htruthy.
  { intros q Hq. simpl. apply negb_true_iff, not_true_is_false.
    intros Hz%Qeq_bool_iff. done. }
  split.
  - intros b Hb Hnz.
    destruct (fold_pick_time Qlt_bool Qle Qle_refl Qle_trans Qlt_bool_le Qlt_bool_ge
                (map start_time ts) None) as (Hsrc & _ & Hnew).
    destruct (Hnew b) as (first & Hfirst & _ & Hle).
    { rewrite <- Hb. apply list_elem_of_fmap. eauto. }
    { by apply Htruthy. }
    exists first. split; [done|]. split; [done|].
    rewrite Hfirst in Hsrc. destruct Hsrc as [?|Hsrc]; [done|].
    apply list_elem_of_fmap in Hsrc as (t' & ? & ?). eauto.
  - intros e He Hnz.
    destruct (fold_pick_time (λ x y, Qlt_bool y x) (λ x y, Qle y x)
                Qle_refl (λ x y z Hxy Hyz, Qle_trans _ _ _ Hyz Hxy)
                (λ x y, Qlt_bool_le y x) (λ x y, Qlt_bool_ge y x)
                (map end_time ts) None) as (Hsrc & _ & Hnew).
    destruct (Hnew e) as (last & Hlast & _ & Hle).
    { rewrite <- He. apply list_elem_of_fmap. eauto. }
    { by apply Htruthy. }
    exists last. split; [done|]. split; [done|].
    rewrite Hlast in Hsrc. destruct Hsrc as [?|Hsrc]; [done|].
    apply list_elem_of_fmap in Hsrc as (t' & ? & ?). eauto.
Qed.

Lemma report_spans_the_tasks_witness :
  let s := summary (report_of (tasks steady_pool) new_report) in
  (∀ b, start_time steady_task = Some b → ¬ (b == 0)%Q →
        ∃ first, summary_start_time s = Some first ∧ (first <= b)%Q ∧
                 ∃ t', t' ∈ tasks steady_pool ∧ start_time t' = Some first) ∧
  (∀ e, end_time steady_task = Some e → ¬ (e == 0)%Q →
        ∃ last, summary_end_time s = Some last ∧ (e <= last)%Q ∧
                ∃ t', t' ∈ tasks steady_pool ∧ end_time t' = Some last).
Proof.
  apply (report_spans_the_tasks (tasks steady_pool) steady_task).
  apply list_elem_of_lookup. exists 1. reflexivity.
Defined.

(** ** [to_dict] on the task [compress_directory] returns *)

(** X18 ([to_dict] after [compress_directory]): what the dictionary of a
    processed task says. For a task without an error, processed between
    two clock readings that are not zero, the dictionary gives both
    readings and their difference as the duration, the status is completed
    or failed, and the error entry is empty exactly when the task
    completed. *)
Theorem to_dict_after_compress_directory
    (w : World) (t0 t1 : Q) (task : CompressionTask) :
  ¬ (t0 == 0)%Q → ¬ (t1 == 0)%Q → error task = None →
  let d := to_dict (cd_task (compress_directory w t0 t1 task).2) in
  d_start_time d = Some t0 ∧ d_end_time d = Some t1 ∧
  d_duration d = Some (t1 - t0)%Q ∧
  d_source_path d = source_path task ∧
  (d_status d = Completed ∨ d_status d = Failed) ∧
  (d_error d = None ↔ d_status d = Completed).
Proof.
  intros Ht0 Ht1 Herr d. subst d. rewrite compress_directory_unfold.
  assert (∀ q, ¬ (q == 0)%Q → Qeq_bool q 0 = false) as Hnz.
  { intros q Hq. apply not_true_is_false. by intros Hz%Qeq_bool_iff. }
  pose proof (compress_try_config w (MkCd (compress_begin t0 task) [] ∅ [])) as Hconfig.
  pose proof (compress_try_ends_completed w (MkCd (compress_begin t0 task) [] ∅ [])) as Hok.
  destruct (compress_try w (MkCd (compress_begin t0 task) [] ∅ [])) as [[[]|e] s'] eqn:Htry.
  - specialize (Hconfig _ _ eq_refl). specialize (Hok _ eq_refl).
    apply compress_try_returns in Htry
      as (mt & h & c & _ & _ & _ & _ & _ & _ & _ & _ & _ & _ & He & _).
    unfold task_config in Hconfig. simpl in Hconfig.
    injection Hconfig as Hsrc _ _ _ Hstart.
    unfold to_dict. simpl. rewrite Hstart, Hsrc, Hok, He. simpl.
    rewrite Herr, !Hnz by done. simpl. repeat split; eauto.
  - specialize (Hconfig _ _ eq_refl).
    unfold task_config in Hconfig. simpl in Hconfig.
    injection Hconfig as Hsrc _ _ _ Hstart.
    unfold to_dict. simpl. rewrite Hstart, Hsrc. simpl.
    rewrite !Hnz by done. simpl. repeat split; eauto; done.
Qed.

Lemma to_dict_after_compress_directory_witness :
  let task := new_task "Comics/A/1" "Comics/A/1.zip" true 8 false in
  let d := to_dict (cd_task (compress_directory rename_fails 1 2 task).2) in
  d_start_time d = Some 1%Q ∧ d_end_time d = Some 2%Q ∧
  d_duration d = Some (2 - 1)%Q ∧
  d_source_path d = source_path task ∧
  (d_status d = Completed ∨ d_status d = Failed) ∧
  (d_error d = None ↔ d_status d = Completed).
Proof.
  apply (to_dict_after_compress_directory rename_fails 1 2
           (new_task "Comics/A/1" "Comics/A/1.zip" true 8 false)).
  - discriminate.
  - discriminate.
  - reflexivity.
Defined.

(** ** The calls of [update_callback] *)

Lemma task_completed_updates f fu m :
  total_tasks m ≠ 0 → pool_futures m !! f = Some fu → fut_state fu ≠ FCancelled →
  update_callback (task_completed f m) = update_callback m ∧
  updates (task_completed f m) =
    if update_callback m
    then updates m ++ [(py_div (completed_tasks m + 1) (total_tasks m), fut_task fu)]
    else updates m.
Proof.
  intros Htot Hf Hst. unfold task_completed. simpl.
  rewrite bool_decide_eq_false_2 by done.
  destruct (update_callback m) eqn:Hcb; [|done].
  by rewrite Hf, bool_decide_eq_false_2.
Qed.

Lemma new_manager_updates_inv workers callback : updates_inv (new_manager workers callback).
Proof. split; simpl; try done; [by destruct callback|by intros u ?%elem_of_nil]. Qed.

Lemma step_updates_inv l m m' :
  counter_inv m → updates_inv m → never_stopped l = true → step l m = Some m' →
  updates_inv m'.
Proof.
  intros [Hp Hidle Hpend Hc Ht] [Hui Huc Hup Hut] Hl Hstep.
  destruct l; try done; simpl in Hstep.
  - (* add_task *)
    injection Hstep as <-. by split.
  - (* start *)
    injection Hstep as <-. destruct (decide (running m = true)) as [Hr|Hr].
    { replace (start m) with m by (unfold start; by rewrite Hr). by split. }
    apply not_true_is_false in Hr.
    rewrite start_idle by done. cbv zeta. specialize (Hui Hr).
    assert (∀ m0, updates m0 = [] → completed_tasks m0 = 0 → running m0 = true →
                  updates_inv m0) as Hfresh.
    { intros m0 Hu Hc0 Hr0. split.
      - intros Hr'. congruence.
      - rewrite Hu, Hc0. by destruct (update_callback m0).
      - by rewrite Hu.
      - rewrite Hu. by intros u ?%elem_of_nil. }
    case_bool_decide as Hts; [by apply Hfresh|].
    match goal with |- updates_inv (submit_pending ?e ?m0) =>
      pose proof (submit_pending_spec e m0) as Hs end.
    cbv zeta in Hs. simpl in Hs.
    destruct Hs as (_ & _ & _ & Hcomp & _ & Hrun & _ & _ & _ & Hupd & _).
    apply Hfresh; by rewrite ?Hupd, ?Hcomp, ?Hrun.
  - (* resume *)
    injection Hstep as <-.
    replace (resume m) with m by (unfold resume; by rewrite Hp). by split.
  - (* a worker takes a future *)
    unfold worker_take in Hstep.
    destruct (pool_futures m !! f) as [fu|] eqn:Hf; [|done]. simpl in Hstep.
    destruct (_ && _) eqn:Hguard; [|done].
    apply andb_prop in Hguard as [[Hfp%bool_decide_eq_true_1 _]%andb_prop _].
    injection Hstep as <-. split; simpl; try done.
    intros u Hu. destruct (Hut u Hu) as (g & gu & Hg & Hgs & Hgt).
    exists g, gu. split; [|done]. rewrite list_lookup_insert_ne; [done|].
    intros ->. congruence.
  - (* line 106 *)
    unfold worker_begin in Hstep.
    destruct (pool_futures m !! f) as [fu|] eqn:Hf; [|done]. simpl in Hstep.
    destruct (tasks m !! fut_task fu) as [t|] eqn:Htk; [|done]. simpl in Hstep.
    case_bool_decide as Hft; [|done].
    injection Hstep as <-. split; simpl; try done.
    intros u Hu. destruct (Hut u Hu) as (g & gu & Hg & Hgs & Hgt).
    exists g, gu. split; [|done]. rewrite list_lookup_insert_ne; [done|].
    intros ->. congruence.
  - (* the worker returns *)
    unfold worker_finish in Hstep.
    destruct (pool_futures m !! f) as [fu|] eqn:Hf; [|done]. simpl in Hstep.
    destruct (tasks m !! fut_task fu) as [t|] eqn:Htk; [|done]. simpl in Hstep.
    case_bool_decide as Hfr; [|done]. injection Hstep as <-. split; simpl; try done.
    intros u Hu. destruct (Hut u Hu) as (g & gu & Hg & Hgs & Hgt).
    exists g, gu. split; [|done]. rewrite list_lookup_insert_ne; [done|].
    intros ->. congruence.
  - (* the result is set *)
    unfold worker_done in Hstep.
    destruct (pool_futures m !! f) as [fu|] eqn:Hf; [|done]. simpl in Hstep.
    case_bool_decide as Hfr; [|done]. injection Hstep as <-.
    assert (total_tasks m ≠ 0) as Htot.
    { apply lookup_lt_Some in Hf. lia. }
    assert (running m = true) as Hr.
    { apply not_false_is_true. intros Hr. rewrite (Hidle Hr) in Hf.
      by rewrite lookup_nil in Hf. }
    set (m0 := with_pool_futures (<[f:=set_fut_state FFinished fu]> (pool_futures m)) m).
    destruct (task_completed_updates f (set_fut_state FFinished fu) m0) as [Hcb Hupd];
      [done| |done|].
    { simpl. apply list_lookup_insert_eq. by eapply lookup_lt_Some. }
    destruct (task_completed_flags f m0) as (_ & Hrun & _ & Htot').
    pose proof (task_completed_pool_futures f m0) as Hpf.
    pose proof (task_completed_counter f m0) as Hcnt.
    simpl in Hcb, Hupd, Hrun, Htot', Hpf, Hcnt.
    assert (∀ u, u ∈ updates m →
              ∃ g gu, pool_futures (task_completed f m0) !! g = Some gu ∧
                      fut_state gu = FFinished ∧ fut_task gu = u.2) as Hold.
    { intros u Hu. destruct (Hut u Hu) as (g & gu & Hg & Hgs & Hgt).
      exists g, gu. split; [|done]. rewrite Hpf, list_lookup_insert_ne; [done|].
      intros ->. congruence. }
    split.
    + rewrite Hrun, Hr. done.
    + rewrite Hcb, Hupd, Hcnt. destruct (update_callback m); [|done].
      rewrite length_app, Huc. done.
    + rewrite Hupd, Htot'. destruct (update_callback m); [|done].
      rewrite length_app, map_app, Hup, Huc. simpl.
      rewrite seq_app, map_app. simpl. do 3 f_equal. lia.
    + rewrite Hupd. destruct (update_callback m); [|done].
      intros u [Hu|Hu%list_elem_of_singleton]%elem_of_app; [by apply Hold|].
      subst u. exists f, (set_fut_state FFinished fu). rewrite Hpf. split; [|done].
      apply list_lookup_insert_eq. by eapply lookup_lt_Some.
Qed.

Lemma run_updates_inv ls m m' :
  counter_inv m → updates_inv m → forallb never_stopped ls = true → run ls m = Some m' →
  updates_inv m'.
Proof.
  revert m. induction ls as [|l ls IH]; intros m Hinv Hupd Hls Hrun; simpl in *;
    [by simplify_eq|].
  apply andb_prop in Hls as [Hl Hls].
  destruct (step l m) as [m1|] eqn:Hstep; [|done]. simpl in Hrun.
  eapply (IH m1); [by eapply step_counter_inv|by eapply step_updates_inv|done|exact Hrun].
Qed.

(** X19 ([_task_completed] and [update_callback]): the progress reported.
    In a run from a new manager that is neither paused nor cancelled, the
    callback, when one is given, has been called once for each future that
    finished and never otherwise; the progress values it received are
    [1/total], [2/total], ... in this order, and each call was for the task
    of a finished future. *)
Theorem progress_callbacks_count_up
    (workers : nat) (callback : bool) (ls : list Label) (m : Manager) :
  run ls (new_manager workers callback) = Some m →
  forallb never_stopped ls = true →
  length (updates m) = (if update_callback m then completed_tasks m else 0) ∧
  map fst (updates m) = map (λ j, py_div j (total_tasks m)) (seq 1 (length (updates m))) ∧
  Sorted Qle (map fst (updates m)) ∧
  ∀ u, u ∈ updates m →
    ∃ f fu, pool_futures m !! f = Some fu ∧ fut_state fu = FFinished ∧ fut_task fu = u.2.
Proof.
  intros Hrun Hls.
  destruct (run_updates_inv ls _ m (new_manager_counter_inv workers callback)
              (new_manager_updates_inv workers callback) Hls Hrun) as [_ Hc Hp Ht].
  split; [done|]. split; [done|]. split; [|done].
  rewrite Hp. apply fractions_sorted.
Qed.

Lemma progress_callbacks_count_up_witness :
  length (updates steady_pool) =
    (if update_callback steady_pool then completed_tasks steady_pool else 0) ∧
  map fst (updates steady_pool) =
    map (λ j, py_div j (total_tasks steady_pool)) (seq 1 (length (updates steady_pool))) ∧
  Sorted Qle (map fst (updates steady_pool)) ∧
  ∀ u, u ∈ updates steady_pool →
    ∃ f fu, pool_futures steady_pool !! f = Some fu ∧ fut_state fu = FFinished ∧
            fut_task fu = u.2.
Proof.
  apply (progress_callbacks_count_up 1 true steady_trace steady_pool).
  - vm_compute. reflexivity.
  - reflexivity.
Defined.

(** ** From a chapter found by the scan to the name of its archive *)

Lemma rfind_from_no_sep s i found : count_sep s = 0 → rfind_from sep s i found = found.
Proof.
  revert i found. induction s as [|c s IH]; intros i found Hs; [done|].
  cbn [count_sep rfind_from] in *.
  destruct (Ascii.eqb c sep) eqn:Hc; [done|].
  rewrite Ascii.eqb_sym, Hc. by apply IH.
Qed.

Lemma count_sep_append a b : count_sep (a +:+ b) = count_sep a + count_sep b.
Proof.
  induction a as [|c a IH]; [done|].
  rewrite append_cons. cbn [count_sep]. rewrite IH. lia.
Qed.

Lemma all_digits_no_sep s : all_digits s = true → count_sep s = 0.
Proof.
  induction s as [|c s IH]; [done|]. cbn [all_digits count_sep].
  intros [Hc Hs]%andb_prop. rewrite (IH Hs).
  destruct (Ascii.eqb c sep) eqn:Heq; [|done].
  apply Ascii.eqb_eq in Heq as ->. done.
Qed.

Lemma basename_path_join a b :
  count_sep b = 0 → basename (path_join a b) = b.
Proof.
  intros Hb. unfold path_join.
  assert (starts_with_sep b = false) as ->.
  { destruct b as [|c b]; [done|]. cbn [count_sep starts_with_sep] in *.
    by destruct (Ascii.eqb c sep). }
  destruct (String.eqb a "") eqn:Ha; simpl.
  { apply String.eqb_eq in Ha as ->. change ("" +:+ b) with b.
    unfold basename, rfind. by rewrite rfind_from_no_sep. }
  destruct (ends_with_sep a) eqn:Hend.
  - unfold ends_with_sep in Hend. apply andb_prop in Hend as [Hlast%Z.eqb_eq _].
    unfold basename, rfind in *. rewrite rfind_from_append, rfind_from_no_sep, Hlast by done.
    replace (Z.to_nat (Z.of_nat (String.length a) - 1 + 1)) with (String.length a) by lia.
    apply drop_str_append.
  - unfold basename, rfind. rewrite rfind_from_append.
    change ("/" +:+ b) with (String sep b). cbn [rfind_from].
    rewrite Ascii.eqb_refl, rfind_from_no_sep by done.
    replace (Z.to_nat (0 + Z.of_nat (String.length a) + 1)) with (String.length a + 1) by lia.
    rewrite drop_str_add_append. done.
Qed.

(** X20 ([prepare_compression_tasks] with [add_task] and the renaming of
    [compress_directory]): a chapter directory named by digits. For a
    chapter [(title, path, name)] whose name is a non-empty run of ASCII
    digits, the task prepared has the chapter directory as its source and
    [title/name.zip] as its target, whatever [rename_pattern] is given to
    [prepare_compression_tasks]; the base name of the target is
    [name.zip], so that the task made from it is archived under the chapter
    name built from the digits when renaming is asked for, and under the
    target otherwise. *)
Theorem numbered_chapter_is_renamed
    (w : World) (chapters : list (string * string * string)) (title path name : string)
    (rename preserve : bool) (level : Z) :
  (title, path, name) ∈ chapters →
  all_digits name = true →
  name ≠ "" →
  let target := path_join title (name +:+ ".zip") in
  (path, target) ∈ prepare_compression_tasks chapters rename ∧
  basename target = name +:+ ".zip" ∧
  final_target_path w (new_task path target preserve level true) =
    path_join (dirname target) (chapter_name name) ∧
  final_target_path w (new_task path target preserve level false) = target.
Proof.
  intros Hin Hdigits Hne target.
  assert (basename target = name +:+ ".zip") as Hbase.
  { apply basename_path_join. rewrite count_sep_append, all_digits_no_sep by done. done. }
  split; [|split; [done|split; [|done]]].
  - unfold prepare_compression_tasks. apply list_elem_of_fmap.
    exists (title, path, name). done.
  - unfold final_target_path. cbn [rename_pattern target_path new_task].
    by rewrite Hbase, number_only_match_digits.
Qed.

Lemma numbered_chapter_is_renamed_witness :
  let target := path_join "Comics/A" ("007" +:+ ".zip") in
  ("Comics/A/007", target) ∈
    prepare_compression_tasks [("Comics/A", "Comics/A/007", "007")] false ∧
  basename target = "007" +:+ ".zip" ∧
  final_target_path quiet_world (new_task "Comics/A/007" target true 8 true) =
    path_join (dirname target) (chapter_name "007") ∧
  final_target_path quiet_world (new_task "Comics/A/007" target true 8 false) = target.
Proof.
  apply (numbered_chapter_is_renamed quiet_world [("Comics/A", "Comics/A/007", "007")]
           "Comics/A" "Comics/A/007" "007" false true 8).
  - apply list_elem_of_singleton. reflexivity.
  - reflexivity.
  - discriminate.
Defined.

(** ** [find_images_recursively] and [count_images_in_directory] *)

Lemma for_each_ext {S A} (xs : list A) (f g : A → M S unit) :
  (∀ x s, f x s = g x s) → ∀ s, for_each xs f s = for_each xs g s.
Proof.
  intros Hfg. induction xs as [|x xs IH]; intros s; [done|].
  simpl. unfold mbind, M_bind, bind. rewrite Hfg.
  destruct (g x s) as [[[]|e] s']; [apply IH|done].
Qed.

Lemma find_images_loop_images w directory s :
  find_images_loop w directory (list_to_set image_extensions) s =
    for_each (image_files (walk_of w directory)) (λ '(file_path, _),
      modify (λ '(images, total_size), (images ++ [file_path], total_size));;
      size ← call (w_getsize w file_path);
      modify (λ '(images, total_size), (images, total_size + size))) s.
Proof.
  unfold find_images_loop. cbv zeta.
  rewrite <- (for_each_images (λ file_path (_ : string),
             modify (λ '(images, total_size), (images ++ [file_path], total_size));;
             size ← call (w_getsize w file_path);
             modify (λ '(images, total_size), (images, total_size + size)))).
  apply for_each_ext. intros [[root dirs] files] s0.
  apply for_each_ext. intros file s1. unfold is_image_file.
  by rewrite (bool_decide_ext _ _ (elem_of_list_to_set _ image_extensions)).
Qed.

Lemma count_images_loop_images w directory s :
  count_images_loop w directory s =
    for_each (image_files (walk_of w directory)) (λ '(file_path, _),
      modify (λ '(count, total_size), (count + 1, total_size));;
      size ← call (w_getsize w file_path);
      modify (λ '(count, total_size), (count, total_size + size))) s.
Proof.
  unfold count_images_loop.
  by rewrite (for_each_images (λ file_path (_ : string),
             modify (λ '(count, total_size), (count + 1, total_size));;
             size ← call (w_getsize w file_path);
             modify (λ '(count, total_size), (count, total_size + size)))).
Qed.

Lemma for_each_cons {S A} (x : A) (xs : list A) (body : A → M S unit) s :
  for_each (x :: xs) body s =
    match body x s with
    | (Returns _, s') => for_each xs body s'
    | (Raises e, s') => (Raises e, s')
    end.
Proof. done. Qed.

Lemma sized_step {S} (r : outcome nat) (before : S → S) (after : nat → S → S) s :
  (modify before;; size ← call r; modify (after size)) s =
    match r with
    | Returns size => (Returns tt, after size (before s))
    | Raises e => (Raises e, before s)
    end.
Proof. unfold mbind, M_bind, bind, modify, call. by destruct r. Qed.

Lemma image_loops_agree w (imgs : list (string * string)) (images : list string)
    (count total_size : nat) :
  let found := for_each imgs (λ '(file_path, _),
      modify (λ '(images, total_size), (images ++ [file_path], total_size));;
      size ← call (w_getsize w file_path);
      modify (λ '(images, total_size), (images, total_size + size))) (images, total_size) in
  let counted := for_each imgs (λ '(file_path, _),
      modify (λ '(count, total_size), (count + 1, total_size));;
      size ← call (w_getsize w file_path);
      modify (λ '(count, total_size), (count, total_size + size))) (count, total_size) in
  found.1 = counted.1 ∧
  ∃ k, k ≤ length imgs ∧ (found.1 = Returns tt → k = length imgs) ∧
       found.2.1 = images ++ take k (map fst imgs) ∧
       counted.2.1 = count + k ∧ found.2.2 = counted.2.2.
Proof.
  revert images count total_size.
  induction imgs as [|[p f] imgs IH]; intros images count total_size; cbv zeta.
  { simpl. split; [done|]. exists 0. simpl. rewrite app_nil_r. repeat split; lia. }
  rewrite !for_each_cons.
  rewrite (sized_step (w_getsize w p)
             (λ '(images, total_size), (images ++ [p], total_size))
             (λ size '(images, total_size), (images, total_size + size))).
  rewrite (sized_step (w_getsize w p)
             (λ '(count, total_size), (count + 1, total_size))
             (λ size '(count, total_size), (count, total_size + size))).
  destruct (w_getsize w p) as [size|e]; simpl.
  - destruct (IH (images ++ [p]) (count + 1) (total_size + size)) as (Ho & k & Hk & Hall & Hi & Hc & Ht).
    split; [done|]. exists (S k). simpl. rewrite Hi, Hc, <- app_assoc. simpl.
    repeat split; try done; try lia. intros Hr. by rewrite (Hall Hr).
  - split; [done|]. exists 1. simpl. rewrite take_0. repeat split; try done; lia.
Qed.

Lemma find_loop_returns w (imgs : list (string * string)) (images : list string)
    (total_size : nat) :
  Forall (λ p, ∃ size, w_getsize w p = Returns size) (map fst imgs) →
  (for_each imgs (λ '(file_path, _),
      modify (λ '(images, total_size), (images ++ [file_path], total_size));;
      size ← call (w_getsize w file_path);
      modify (λ '(images, total_size), (images, total_size + size)))
    (images, total_size)).1 = Returns tt.
Proof.
  revert images total_size. induction imgs as [|[p f] imgs IH];
    intros images total_size Hreadable; [done|].
  apply Forall_cons in Hreadable as [[size Hsize] Hrest]. simpl in Hsize.
  rewrite for_each_cons.
  rewrite (sized_step (w_getsize w p)
             (λ '(images, total_size), (images ++ [p], total_size))
             (λ size '(images, total_size), (images, total_size + size))).
  rewrite Hsize. by apply IH.
Qed.

(** X21 ([utils.find_images_recursively] with
    [count_images_in_directory]): the two loops agree. Given the image
    extensions of the manager, and whatever the file system answers,
    [find_images_recursively] returns as many paths as
    [count_images_in_directory] counts and the same total size; the paths
    are the first of the image files below the directory, in the order of
    the walk (all of them unless a size could not be read, and then up to
    and including the file whose size could not be read). *)
Theorem find_images_agrees_with_count (w : World) (directory : string) :
  let found := find_images_recursively w directory (list_to_set image_extensions) in
  let paths := map fst (image_files (walk_of w directory)) in
  (length found.1, found.2) = count_images_in_directory w directory ∧
  found.1 `prefix_of` paths ∧
  (Forall (λ p, ∃ size, w_getsize w p = Returns size) paths → found.1 = paths).
Proof.
  intros found paths. subst found paths.
  unfold find_images_recursively, count_images_in_directory, try_except.
  rewrite find_images_loop_images, count_images_loop_images.
  destruct (image_loops_agree w (image_files (walk_of w directory)) [] 0 0)
    as (Ho & k & Hk & Hall & Hi & Hc & Ht).
  cbv zeta in *.
  set (imgs := image_files (walk_of w directory)) in *.
  destruct (for_each imgs _ ([], 0)) as [o1 [images total]] eqn:Hfind.
  destruct (for_each imgs _ (0, 0)) as [o2 [count total']] eqn:Hcount.
  simpl in *. subst o2 images count total'.
  split; [|split].
  - destruct o1 as [[]|e]; simpl; by rewrite length_take, length_map, Nat.min_l by lia.
  - destruct o1 as [[]|e]; simpl; apply prefix_take.
  - intros Hreadable.
    pose proof (find_loop_returns w imgs [] 0 Hreadable) as Hret.
    rewrite Hfind in Hret. simpl in Hret.
    rewrite Hret in *. simpl. rewrite (Hall eq_refl).
    by rewrite <- (length_map fst imgs), firstn_all.
Qed.

(** ** [sanitize_filename] *)

Lemma invalid_is_no_dot c : is_invalid_char c = true → is_dot_or_space c = false.
Proof. by destruct c as [[] [] [] [] [] [] [] []]. Qed.

Lemma replace_invalid_valid s :
  all_chars (λ c, negb (is_invalid_char c)) (replace_invalid s) = true.
Proof.
  induction s as [|c s IH]; [done|]. cbn [replace_invalid all_chars]. rewrite IH.
  by destruct (is_invalid_char c) eqn:Hc; [|rewrite Hc].
Qed.

Lemma replace_invalid_id s :
  all_chars (λ c, negb (is_invalid_char c)) s = true → replace_invalid s = s.
Proof.
  induction s as [|c s IH]; [done|]. cbn [replace_invalid all_chars].
  intros [Hc%negb_true_iff Hs]%andb_prop. by rewrite Hc, IH.
Qed.

Lemma replace_invalid_length s : String.length (replace_invalid s) = String.length s.
Proof. induction s as [|c s IH]; [done|]. simpl. by rewrite IH. Qed.

Lemma replace_invalid_dots s :
  all_chars is_dot_or_space (replace_invalid s) = all_chars is_dot_or_space s.
Proof.
  induction s as [|c s IH]; [done|]. cbn [replace_invalid all_chars]. rewrite IH. f_equal.
  destruct (is_invalid_char c) eqn:Hc; [|done]. by rewrite (invalid_is_no_dot c Hc).
Qed.

Lemma rstrip_dots_all (test : ascii → bool) s :
  all_chars test s = true → all_chars test (rstrip_dots s) = true.
Proof.
  induction s as [|c s IH]; [done|]. cbn [rstrip_dots all_chars].
  intros [Hc Hs]%andb_prop. destruct (_ && _); [done|].
  cbn [all_chars]. by rewrite Hc, IH.
Qed.

Lemma rstrip_dots_length s : String.length (rstrip_dots s) ≤ String.length s.
Proof.
  induction s as [|c s IH]; [done|]. cbn [rstrip_dots].
  destruct (_ && _); simpl; lia.
Qed.

Lemma rstrip_dots_idemp s : rstrip_dots (rstrip_dots s) = rstrip_dots s.
Proof.
  induction s as [|c s IH]; [done|]. cbn [rstrip_dots].
  destruct (String.eqb (rstrip_dots s) "" && is_dot_or_space c) eqn:Hc; [done|].
  cbn [rstrip_dots]. by rewrite IH, Hc.
Qed.

Lemma rstrip_dots_last s c :
  last_char (rstrip_dots s) = Some c → is_dot_or_space c = false.
Proof.
  induction s as [|c0 s IH]; [done|]. cbn [rstrip_dots].
  destruct (String.eqb (rstrip_dots s) "") eqn:He; simpl.
  - apply String.eqb_eq in He. rewrite He.
    destruct (is_dot_or_space c0) eqn:Hc0; [done|]. simpl. by intros [= <-].
  - destruct (rstrip_dots s) as [|c1 r]; [done|]. exact IH.
Qed.

Lemma rstrip_dots_empty s : rstrip_dots s = "" ↔ all_chars is_dot_or_space s = true.
Proof.
  induction s as [|c s IH]; [done|]. cbn [rstrip_dots all_chars].
  destruct (String.eqb (rstrip_dots s) "") eqn:He; simpl.
  - apply String.eqb_eq in He. rewrite (proj1 IH He), andb_true_r.
    by destruct (is_dot_or_space c).
  - split; [done|]. intros [_ Hs]%andb_prop. apply IH in Hs.
    rewrite Hs in He. done.
Qed.

(** X22 ([utils.sanitize_filename]): the name returned. It holds none of
    the characters of the class [invalid_chars], does not end with a dot or
    a space, is not longer than the name given and is left as it is by a
    second call; it is empty exactly when the name given is made of dots
    and spaces only. *)
Theorem sanitize_filename_spec (filename : string) :
  let sanitized := sanitize_filename filename in
  all_chars (λ c, negb (is_invalid_char c)) sanitized = true ∧
  (∀ c, last_char sanitized = Some c → is_dot_or_space c = false) ∧
  String.length sanitized ≤ String.length filename ∧
  sanitize_filename sanitized = sanitized ∧
  (sanitized = "" ↔ all_chars is_dot_or_space filename = true).
Proof.
  intros sanitized. subst sanitized. unfold sanitize_filename. cbv zeta.
  assert (all_chars (λ c, negb (is_invalid_char c)) (rstrip_dots (replace_invalid filename))
          = true) as Hvalid by apply rstrip_dots_all, replace_invalid_valid.
  split; [done|]. split; [apply rstrip_dots_last|]. split; [|split].
  - rewrite <- (replace_invalid_length filename). apply rstrip_dots_length.
  - by rewrite (replace_invalid_id _ Hvalid), rstrip_dots_idemp.
  - by rewrite rstrip_dots_empty, replace_invalid_dots.
Qed.
